(** * A shallow embedding of the streaming TAR decoder

    Source: [src/src/base-tar-filter-impl.cxx] with the declarations of
    [base-tar-filter-impl.hxx] and [tar-header.hxx].

    Conventions of the embedding:
    - [char] data are [Byte.byte]; [byte_val] gives the value of a byte read
      through [unsigned char] (0..255).  The comparisons the code makes on
      plain [char] (['0' <= c <= '7'], [c == '\0']) give the same answer on
      the unsigned value, whatever the signedness of [char].
    - [std::size_t] and [uint64_t] are [Z] in [0, 2^64) with the wrap-around
      written out ([wrap64]); [int64_t] is [Z] in [-2^63, 2^63).
    - a [const char *] into a buffer is the suffix of the buffer that starts
      at the pointed byte ([drop]); [at_ p i] is [p[i]].
    - [std::vector<char>] and [std::string] are [list byte]. *)

From Stdlib Require Import ZArith Lia Bool Strings.Byte.
From stdpp Require Import base numbers list.

Local Open Scope Z_scope.

(** ** Machine integers and bytes *)

Definition byte_val (b : byte) : Z := Z.of_N (Byte.to_N b).

Definition wrap64 (z : Z) : Z := z mod 2 ^ 64.

Definition INT64_MAX : Z := 2 ^ 63 - 1.
Definition INT64_MIN : Z := - 2 ^ 63.

(** [static_cast<int64_t>] of a [uint64_t]. *)
Definition to_int64 (l : Z) : Z := if l <? 2 ^ 63 then l else l - 2 ^ 64.

(** [p[i]]: bytes beyond the modelled buffer read as NUL (the code never
    reads there: every pointer it passes points into the 512-byte header
    buffer with the field inside it). *)
Definition at_ (p : list byte) (i : nat) : Z := byte_val (nth i p x00).

(** ** The header layout, [struct TarHeader] *)

Module TarHeader.
Definition sizeof_name : nat := 100.
Definition sizeof_mode : nat := 8.
Definition sizeof_uid : nat := 8.
Definition sizeof_gid : nat := 8.
Definition sizeof_size : nat := 12.
Definition sizeof_mtime : nat := 12.
Definition sizeof_chksum : nat := 8.
Definition sizeof_typeflag : nat := 1.
Definition sizeof_linkname : nat := 100.
Definition sizeof_magic : nat := 6.
Definition sizeof_version : nat := 2.
Definition sizeof_uname : nat := 32.
Definition sizeof_gname : nat := 32.
Definition sizeof_devmajor : nat := 8.
Definition sizeof_devminor : nat := 8.
Definition sizeof_prefix : nat := 155.
Definition sizeof_padding : nat := 12.

(** Offsets of the packed struct: each field follows the previous one. *)
Definition offsetof_name : nat := 0.
Definition offsetof_size : nat :=
  (sizeof_name + sizeof_mode + sizeof_uid + sizeof_gid)%nat.
Definition offsetof_typeflag : nat :=
  (offsetof_size + sizeof_size + sizeof_mtime + sizeof_chksum)%nat.

Definition sizeof_TarHeader : nat :=
  (offsetof_typeflag + sizeof_typeflag + sizeof_linkname + sizeof_magic
   + sizeof_version + sizeof_uname + sizeof_gname + sizeof_devmajor
   + sizeof_devminor + sizeof_prefix + sizeof_padding)%nat.

(** [tar->name], [tar->size], [tar->typeflag] as pointers. *)
Definition name (tar : list byte) : list byte := drop offsetof_name tar.
Definition size (tar : list byte) : list byte := drop offsetof_size tar.
Definition typeflag (tar : list byte) : list byte :=
  drop offsetof_typeflag tar.
End TarHeader.

(** ** Header field decoding (the unnamed namespace of the .cxx file) *)

(** [is_zero_block_impl]: [for (i = 0; i < 512; ++i) if (block[i] != 0)
    return false; return true;].  [count] is the number of iterations left. *)
Fixpoint zero_scan (block : list byte) (i count : nat) : bool :=
  match count with
  | O => true
  | S count' =>
      if at_ block i =? 0 then zero_scan block (S i) count' else false
  end.

Definition is_zero_block_impl (block : list byte) : bool :=
  zero_scan block 0 512.

(** [parse_base256_impl], first loop:
    [while (char_cnt > sizeof(int64_t)) { --char_cnt; if (c != neg) return
    overflow; c = *++p; }].  [k] counts the iterations left, [i] is the
    offset of [p] from the start of the field.  [None] is the early return. *)
Fixpoint skip_sign_bytes (p : list byte) (neg : Z) (k i : nat) (c : Z)
  : option (nat * Z) :=
  match k with
  | O => Some (i, c)
  | S k' =>
      if c =? neg then skip_sign_bytes p neg k' (S i) (at_ p (S i)) else None
  end.

(** Second loop: [while (--char_cnt > 0) { l = (l << 8) | c; c = *++p; }]. *)
Fixpoint shift_in_bytes (p : list byte) (k i : nat) (l c : Z) : Z * Z :=
  match k with
  | O => (l, c)
  | S k' =>
      shift_in_bytes p k' (S i) (wrap64 (Z.lor (l ≪ 8) c)) (at_ p (S i))
  end.

(** [char_cnt] is at least 1 at every call site (it is [sizeof(tar->size)]);
    for [char_cnt = 0] the C++ counter would wrap, which is not modelled. *)
Definition parse_base256_impl (p : list byte) (char_cnt : nat) : Z :=
  let c0 := at_ p 0 in
  let negative := negb (Z.land c0 0x40 =? 0) in
  let neg := if negative then 0xff else 0 in
  let c := if negative then Z.lor c0 0x80 else Z.land c0 0x7f in
  let l := if negative then wrap64 (Z.lnot 0) else 0 in
  let overflow := if negative then INT64_MIN else INT64_MAX in
  match skip_sign_bytes p neg (char_cnt - 8) 0 c with
  | None => overflow
  | Some (i, c) =>
      if negb (Z.land (Z.lxor c neg) 0x80 =? 0) then overflow
      else
        let '(l, c) := shift_in_bytes p (Nat.min char_cnt 8 - 1) i l c in
        to_int64 (wrap64 (Z.lor (l ≪ 8) c))
  end.

(** [parse_octal_impl]:
    [for (i = 0; i < n && p[i]; ++i) if ('0' <= p[i] <= '7')
       result = (result << 3) + (p[i] - '0');]
    [k] is [n - i]. *)
Fixpoint parse_octal_from (p : list byte) (k i : nat) (result : Z) : Z :=
  match k with
  | O => result
  | S k' =>
      let c := at_ p i in
      if c =? 0 then result
      else if (48 <=? c) && (c <=? 55)
           then parse_octal_from p k' (S i) (wrap64 ((result ≪ 3) + (c - 48)))
           else parse_octal_from p k' (S i) result
  end.

Definition parse_octal_impl (p : list byte) (n : nat) : Z :=
  parse_octal_from p n 0 0.

(** [parse_file_size_impl]: the result is a [std::size_t]. *)
Definition parse_file_size_impl (tar : list byte) : Z :=
  if negb (Z.land (at_ (TarHeader.size tar) 0) 0x80 =? 0)
  then wrap64 (parse_base256_impl (TarHeader.size tar) TarHeader.sizeof_size)
  else parse_octal_impl (TarHeader.size tar) TarHeader.sizeof_size.

(** [extract_file_name_impl]: [for (; len < sizeof(tar->name); ++len)
    if (start[len] == 0) break; return std::string(start, len);] *)
Fixpoint name_length (start : list byte) (len count : nat) : nat :=
  match count with
  | O => len
  | S count' =>
      if at_ start len =? 0 then len else name_length start (S len) count'
  end.

Definition extract_file_name_impl (tar : list byte) : list byte :=
  let start := TarHeader.name tar in
  take (name_length start 0 TarHeader.sizeof_name) start.

(** [is_regular_file]: [typeflag[0] == '0' || typeflag[0] == '\0']. *)
Definition is_regular_file (tar : list byte) : bool :=
  (at_ (TarHeader.typeflag tar) 0 =? 48)
  || (at_ (TarHeader.typeflag tar) 0 =? 0).

(** ** The decoder, [class BaseTarFilterImpl] *)

Inductive State := ReadHeader | ReadFileData | SkipPadding | Done.

Record BaseTarFilterImpl := mkImpl {
  header_buffer : list byte;
  header_bytes_read : Z;
  file_size_ : Z;
  file_bytes_read : Z;
  padding_bytes : Z;
  padding_bytes_skipped : Z;
  state : State;
  current_file_name : list byte
}.

(** The default member initialisers; the constructor body is empty. *)
Definition new_BaseTarFilterImpl : BaseTarFilterImpl :=
  {| header_buffer := [];
     header_bytes_read := 0;
     file_size_ := 0;
     file_bytes_read := 0;
     padding_bytes := 0;
     padding_bytes_skipped := 0;
     state := ReadHeader;
     current_file_name := [] |}.

(** [BaseTarFilterImpl::close]: the seven assignments of the source, in its
    order; [padding_bytes] is not among them. *)
Definition close (self : BaseTarFilterImpl) : BaseTarFilterImpl :=
  {| state := ReadHeader;
     header_bytes_read := 0;
     file_bytes_read := 0;
     padding_bytes_skipped := 0;
     file_size_ := 0;
     header_buffer := [];
     current_file_name := [];
     padding_bytes := padding_bytes self |}.

(** ** [BaseTarFilterImpl::filter]

    A call [filter(src_begin, src_end, dest_begin, dest_end, flush)]:
    - [src] is the caller's source memory, a cursor is the index of the
      byte it points to; the bytes the call may read are those of
      [[src_begin, src_end)], which the caller keeps inside [src];
    - the destination is write-only and written front to back, so it is
      modelled by the list of the bytes written at
      [[dest_begin, dest_begin')], in order;
    - [flush] is ignored by the code and left out. *)

(** The bytes of [[p, p + n)]. *)
Definition bytes_at (src : list byte) (p n : Z) : list byte :=
  take (Z.to_nat n) (drop (Z.to_nat p) src).

(** Line 209: [(512 - (file_size_ % 512)) % 512] on [std::size_t]. *)
Definition padding_for (file_size : Z) : Z :=
  wrap64 (512 - file_size mod 512) mod 512.

(** What one pass through the [switch] does: [Break] leaves the switch and
    goes back to the loop test, [Return] leaves the function.  Both carry
    the decoder, the two cursors and the bytes written by this pass. *)
Inductive outcome :=
| Break (self : BaseTarFilterImpl) (src_begin dest_begin : Z) (out : list byte)
| Return (r : bool) (self : BaseTarFilterImpl) (src_begin dest_begin : Z)
         (out : list byte).

(** [state = s;] *)
Definition set_state (s : State) (self : BaseTarFilterImpl)
  : BaseTarFilterImpl :=
  {| header_buffer := header_buffer self;
     header_bytes_read := header_bytes_read self;
     file_size_ := file_size_ self;
     file_bytes_read := file_bytes_read self;
     padding_bytes := padding_bytes self;
     padding_bytes_skipped := padding_bytes_skipped self;
     state := s;
     current_file_name := current_file_name self |}.

(** Lines 200-219, entered when [header_bytes_read == 512]; [self] already
    holds the header buffer after the [memcpy] and the new count. *)
Definition header_complete (self : BaseTarFilterImpl) (src_begin dest_begin : Z)
  : outcome :=
  if is_zero_block_impl (header_buffer self) then
    Return false (set_state Done self) src_begin dest_begin []
  else
    let tar := header_buffer self in
    let file_size := parse_file_size_impl tar in
    let regular := is_regular_file tar in
    Break
      {| header_buffer := header_buffer self;
         header_bytes_read := 0;
         file_size_ := if regular then file_size else 0;
         file_bytes_read := 0;
         padding_bytes := padding_for file_size;
         padding_bytes_skipped := 0;
         state := if regular then ReadFileData else SkipPadding;
         current_file_name := extract_file_name_impl tar |}
      src_begin dest_begin [].

(** Lines 189-198 of [case State::ReadHeader]: the number of bytes to copy
    and the decoder after the copy.  [resize(512)] value-initialises the
    new bytes; the [memcpy] is [list_inserts], exact while the copied bytes
    fit in the vector (an out-of-bounds copy is undefined in C++ and is
    dropped here).  A positive pointer difference is unchanged by the cast
    to [std::size_t]. *)
Definition header_to_copy (self : BaseTarFilterImpl) (src_begin src_end : Z)
  : Z :=
  let needed := wrap64 (512 - header_bytes_read self) in
  let available := src_end - src_begin in
  Z.min needed available.

Definition accumulate_header (self : BaseTarFilterImpl) (src : list byte)
    (src_begin src_end : Z) : BaseTarFilterImpl :=
  let to_copy := header_to_copy self src_begin src_end in
  let buf := if Z.of_nat (length (header_buffer self)) <? 512
             then resize 512 x00 (header_buffer self)
             else header_buffer self in
  {| header_buffer :=
       list_inserts (Z.to_nat (header_bytes_read self))
         (bytes_at src src_begin to_copy) buf;
     header_bytes_read := wrap64 (header_bytes_read self + to_copy);
     file_size_ := file_size_ self;
     file_bytes_read := file_bytes_read self;
     padding_bytes := padding_bytes self;
     padding_bytes_skipped := padding_bytes_skipped self;
     state := state self;
     current_file_name := current_file_name self |}.

(** [case State::ReadHeader]. *)
Definition read_header (self : BaseTarFilterImpl) (src : list byte)
    (src_begin src_end dest_begin : Z) : outcome :=
  let to_copy := header_to_copy self src_begin src_end in
  let self := accumulate_header self src src_begin src_end in
  let src_begin := src_begin + to_copy in
  if header_bytes_read self =? 512
  then header_complete self src_begin dest_begin
  else Break self src_begin dest_begin [].

(** [case State::ReadFileData]. *)
Definition read_file_data (self : BaseTarFilterImpl) (src : list byte)
    (src_begin src_end dest_begin dest_end : Z) : outcome :=
  let remaining := wrap64 (file_size_ self - file_bytes_read self) in
  let src_avail := src_end - src_begin in
  let dest_space := dest_end - dest_begin in
  let to_copy := Z.min remaining (Z.min src_avail dest_space) in
  let out := bytes_at src src_begin to_copy in
  let file_bytes_read' := wrap64 (file_bytes_read self + to_copy) in
  Break
    {| header_buffer := header_buffer self;
       header_bytes_read := header_bytes_read self;
       file_size_ := file_size_ self;
       file_bytes_read := file_bytes_read';
       padding_bytes := padding_bytes self;
       padding_bytes_skipped := padding_bytes_skipped self;
       state := if file_bytes_read' =? file_size_ self
                then SkipPadding else state self;
       current_file_name := current_file_name self |}
    (src_begin + to_copy) (dest_begin + to_copy) out.

(** [case State::SkipPadding]. *)
Definition skip_padding (self : BaseTarFilterImpl)
    (src_begin src_end dest_begin : Z) : outcome :=
  let remaining := wrap64 (padding_bytes self - padding_bytes_skipped self) in
  let src_avail := src_end - src_begin in
  let to_skip := Z.min remaining src_avail in
  let padding_bytes_skipped' := wrap64 (padding_bytes_skipped self + to_skip) in
  Break
    {| header_buffer := header_buffer self;
       header_bytes_read := header_bytes_read self;
       file_size_ := file_size_ self;
       file_bytes_read := file_bytes_read self;
       padding_bytes := padding_bytes self;
       padding_bytes_skipped := padding_bytes_skipped';
       state := if padding_bytes_skipped' =? padding_bytes self
                then ReadHeader else state self;
       current_file_name := current_file_name self |}
    (src_begin + to_skip) dest_begin [].

(** The body of the [while] loop: the [switch (state)]. *)
Definition filter_body (self : BaseTarFilterImpl) (src : list byte)
    (src_begin src_end dest_begin dest_end : Z) : outcome :=
  match state self with
  | ReadHeader => read_header self src src_begin src_end dest_begin
  | ReadFileData =>
      read_file_data self src src_begin src_end dest_begin dest_end
  | SkipPadding => skip_padding self src_begin src_end dest_begin
  | Done => Return false self src_begin dest_begin []
  end.

(** What a call hands back: the return value, the decoder, the two cursors
    (passed by reference) and the bytes written. *)
Record result := mkResult {
  ret : bool;
  decoder : BaseTarFilterImpl;
  src_begin' : Z;
  dest_begin' : Z;
  written : list byte
}.

(** [while (src_begin < src_end && dest_begin < dest_end) { switch ... }
    return true;]  The loop is unrolled [fuel] times; [None] means the fuel
    ran out before the loop ended. *)
Fixpoint filter_loop (fuel : nat) (src : list byte) (src_end dest_end : Z)
    (self : BaseTarFilterImpl) (src_begin dest_begin : Z) (out : list byte)
  : option result :=
  if (src_begin <? src_end) && (dest_begin <? dest_end) then
    match fuel with
    | O => None
    | S fuel' =>
        match filter_body self src src_begin src_end dest_begin dest_end with
        | Return r self' sb db o => Some (mkResult r self' sb db (out ++ o))
        | Break self' sb db o =>
            filter_loop fuel' src src_end dest_end self' sb db (out ++ o)
        end
    end
  else Some (mkResult true self src_begin dest_begin out).

(** Every pass either consumes a source byte or is one of at most five
    passes in a row that only change the state, so this many passes are
    enough ([filter_terminates] below). *)
Definition filter_fuel (src_begin src_end : Z) : nat :=
  (6 * Z.to_nat (src_end - src_begin) + 6)%nat.

Definition filter (self : BaseTarFilterImpl) (src : list byte)
    (src_begin src_end dest_begin dest_end : Z) : option result :=
  filter_loop (filter_fuel src_begin src_end) src src_end dest_end
    self src_begin dest_begin [].

(** ** States

    [size_t_fields]: every counter holds a [std::size_t] value (a typing
    condition of the embedding).  [consistent]: the invariants the decoder
    keeps between calls. *)
Definition is_size_t (z : Z) : Prop := 0 <= z < 2 ^ 64.

Record size_t_fields (self : BaseTarFilterImpl) : Prop := {
  hbr_size_t : is_size_t (header_bytes_read self);
  fs_size_t : is_size_t (file_size_ self);
  fbr_size_t : is_size_t (file_bytes_read self);
  pb_size_t : is_size_t (padding_bytes self);
  pbs_size_t : is_size_t (padding_bytes_skipped self)
}.

Record consistent (self : BaseTarFilterImpl) : Prop := {
  cons_fields : size_t_fields self;
  cons_header : state self = Done \/ header_bytes_read self < 512;
  cons_file : state self = ReadFileData ->
              file_bytes_read self <= file_size_ self;
  cons_padding : state self = ReadHeader \/ state self = Done
                 \/ padding_bytes_skipped self <= padding_bytes self
}.

(** ** A driver: repeated calls over one archive

    [pos] is the number of archive bytes consumed so far.  Call number [i]
    of a schedule is given a source buffer holding the next [n_in] bytes of
    the archive (or what is left of it) and an empty destination buffer of
    [n_out] bytes; the input it did not consume is offered again, in front
    of the bytes that follow, by the next call.  The driver stops calling
    when [filter] returns [false].  A partition of the archive into chunks,
    each one offered until it is consumed, is such a schedule. *)
Record run := mkRun {
  stopped : bool;
  final : BaseTarFilterImpl;
  consumed : Z;
  output : list byte
}.

Fixpoint drive (archive : list byte) (schedule : list (nat * nat))
    (self : BaseTarFilterImpl) (pos : Z) (out : list byte) : run :=
  match schedule with
  | [] => mkRun false self pos out
  | (n_in, n_out) :: schedule' =>
      let chunk := bytes_at archive pos (Z.of_nat n_in) in
      match filter self chunk 0 (Z.of_nat (length chunk))
              0 (Z.of_nat n_out) with
      | None => mkRun false self pos out
      | Some r =>
          if ret r
          then drive archive schedule' (decoder r) (pos + src_begin' r)
                 (out ++ written r)
          else mkRun true (decoder r) (pos + src_begin' r) (out ++ written r)
      end
  end.

Definition decode (archive : list byte) (schedule : list (nat * nat)) : run :=
  drive archive schedule new_BaseTarFilterImpl 0 [].

(** The same calls seen on the archive as one source memory and on one
    destination memory: the cursors are positions in the archive and in
    the output ([drive_on_memory] below shows it is the same driver). *)
Fixpoint drive_mem (archive : list byte) (schedule : list (nat * nat))
    (self : BaseTarFilterImpl) (pos : Z) (out : list byte) : run :=
  match schedule with
  | [] => mkRun false self pos out
  | (n_in, n_out) :: schedule' =>
      let src_end := Z.min (pos + Z.of_nat n_in) (Z.of_nat (length archive)) in
      let dest_begin := Z.of_nat (length out) in
      match filter self archive pos src_end
              dest_begin (dest_begin + Z.of_nat n_out) with
      | None => mkRun false self pos out
      | Some r =>
          if ret r
          then drive_mem archive schedule' (decoder r) (src_begin' r)
                 (out ++ written r)
          else mkRun true (decoder r) (src_begin' r) (out ++ written r)
      end
  end.

(** Cursors moved from a buffer of its own to a place in a larger memory. *)
Definition rebase (ds dd : Z) (r : result) : result :=
  mkResult (ret r) (decoder r) (ds + src_begin' r) (dd + dest_begin' r)
    (written r).

Definition rebase_outcome (ds dd : Z) (o : outcome) : outcome :=
  match o with
  | Break s sb db out => Break s (ds + sb) (dd + db) out
  | Return r s sb db out => Return r s (ds + sb) (dd + db) out
  end.

(** One-byte input and output buffers, [n] calls. *)
Definition bytewise (n : nat) : list (nat * nat) := replicate n (1%nat, 1%nat).

(** ** Definitions that follow the specification's words *)

(** The byte with the given value (taken modulo 256). *)
Definition byte_of_Z (z : Z) : byte :=
  match Byte.of_N (Z.to_N (z mod 256)) with
  | Some b => b
  | None => x00
  end.

(** Big-endian digits in base 256, [n] of them: two's complement of [z] on
    [8 * n] bits. *)
Fixpoint be_bytes (n : nat) (z : Z) : list byte :=
  match n with
  | O => []
  | S n' => byte_of_Z (z / 256 ^ Z.of_nat n') :: be_bytes n' z
  end.

(** The value of a list of bytes read as a big-endian unsigned number. *)
Definition be_value (bs : list byte) : Z :=
  fold_left (fun acc b => acc * 256 + byte_val b) bs 0.

(** The base-256 form of a size field: the 12-byte big-endian two's
    complement of [v], with the high bit of the first byte set. *)
Definition encode_base256 (v : Z) : list byte :=
  match be_bytes 12 v with
  | [] => []
  | b :: bs => byte_of_Z (Z.lor (byte_val b) 0x80) :: bs
  end.

(** The number a 12-byte base-256 field denotes: below the marker bit, 95
    bits of two's complement whose sign bit is bit 0x40 of the first byte. *)
Definition field_value (field : list byte) : Z :=
  let w := be_value (take 12 field) mod 2 ^ 95 in
  if w <? 2 ^ 94 then w else w - 2 ^ 95.

Definition sign_bit_set (field : list byte) : bool :=
  negb (Z.land (at_ field 0) 0x40 =? 0).

(** The octal field parse in the specification's words: stop at the first
    NUL, accumulate the digits '0'..'7' in base 8, ignore every other byte. *)
Fixpoint octal_value (field : list byte) (result : Z) : Z :=
  match field with
  | [] => result
  | b :: rest =>
      if byte_val b =? 0 then result
      else if (48 <=? byte_val b) && (byte_val b <=? 55)
           then octal_value rest (result * 8 + (byte_val b - 48))
           else octal_value rest result
  end.

(** ** Sample archives *)

(** A header block with the given name, size field and type flag; all the
    other fields are NUL. *)
Definition header_block (name size_field : list byte) (typeflag : byte)
  : list byte :=
  resize 100 x00 name ++ replicate 24 x00 ++ resize 12 x00 size_field
  ++ replicate 20 x00 ++ [typeflag] ++ replicate 355 x00.

Definition zero_block : list byte := replicate 512 x00.

(** A payload followed by its padding up to the next block boundary. *)
Definition payload_blocks (payload : list byte) : list byte :=
  payload
  ++ replicate (Z.to_nat (padding_for (Z.of_nat (length payload)))) x00.

(** "hello.txt", 3 bytes ("hi\n"), regular file, then one zero block. *)
Definition hello_name : list byte :=
  [x68; x65; x6c; x6c; x6f; x2e; x74; x78; x74].
Definition hello_content : list byte := [x68; x69; x0a].
Definition hello_archive : list byte :=
  header_block hello_name (replicate 10 x30 ++ [x33]) x30
  ++ payload_blocks hello_content ++ zero_block.

(** A pax extended header (type flag 'x') that declares 100 payload bytes
    (octal 144), then the regular file "hello.txt", then two zero blocks. *)
Definition pax_payload : list byte := replicate 100 x41.
Definition pax_archive : list byte :=
  header_block [x70; x61; x78] (replicate 8 x30 ++ [x31; x34; x34]) x78
  ++ payload_blocks pax_payload
  ++ header_block hello_name (replicate 10 x30 ++ [x33]) x30
  ++ payload_blocks hello_content ++ zero_block ++ zero_block.

(** One regular file "a" of one byte, then one zero block. *)
Definition one_byte_archive : list byte :=
  header_block [x61] (replicate 10 x30 ++ [x31]) x30
  ++ payload_blocks [x62] ++ zero_block.

(** A decoder stopped in the middle of the padding of a one-byte entry. *)
Definition mid_padding : BaseTarFilterImpl :=
  {| header_buffer := header_block [x61] (replicate 10 x30 ++ [x31]) x30;
     header_bytes_read := 0;
     file_size_ := 1;
     file_bytes_read := 1;
     padding_bytes := 511;
     padding_bytes_skipped := 7;
     state := SkipPadding;
     current_file_name := [x61] |}.

(** A decoder that has seen the end marker. *)
Definition finished : BaseTarFilterImpl :=
  {| header_buffer := zero_block;
     header_bytes_read := 512;
     file_size_ := 0;
     file_bytes_read := 0;
     padding_bytes := 0;
     padding_bytes_skipped := 0;
     state := Done;
     current_file_name := [] |}.

(** ** Reading an [outcome] *)

Definition o_self (o : outcome) : BaseTarFilterImpl :=
  match o with Break s _ _ _ | Return _ s _ _ _ => s end.
Definition o_src (o : outcome) : Z :=
  match o with Break _ sb _ _ | Return _ _ sb _ _ => sb end.
Definition o_dest (o : outcome) : Z :=
  match o with Break _ _ db _ | Return _ _ _ db _ => db end.
Definition o_out (o : outcome) : list byte :=
  match o with Break _ _ _ out | Return _ _ _ _ out => out end.
Definition o_ret (o : outcome) : option bool :=
  match o with Break _ _ _ _ => None | Return r _ _ _ _ => Some r end.

(** The termination measure of the loop: six units per source byte left,
    plus the number of passes that may still go by without consuming one. *)
Definition rank (self : BaseTarFilterImpl) : nat :=
  ((if Z.eqb (header_bytes_read self) 512 then 3 else 0)
   + match state self with
     | ReadFileData => 2
     | SkipPadding => 1
     | _ => 0
     end)%nat.

Definition measure (self : BaseTarFilterImpl) (src_begin src_end : Z) : nat :=
  (6 * Z.to_nat (src_end - src_begin) + rank self)%nat.

(** [o] with [out1] written before its own output. *)
Definition prepend (out1 : list byte) (o : outcome) : outcome :=
  match o with
  | Break s sb db out => Break s sb db (out1 ++ out)
  | Return r s sb db out => Return r s sb db (out1 ++ out)
  end.

(** The loop, started on these data, ends with [r]. *)
Definition returns (src : list byte) (src_end dest_end : Z)
    (self : BaseTarFilterImpl) (src_begin dest_begin : Z) (out : list byte)
    (r : result) : Prop :=
  exists fuel,
    filter_loop fuel src src_end dest_end self src_begin dest_begin out
    = Some r.

(** Two decoders that differ at most in [padding_bytes], and only while
    that member is dead: in [ReadHeader] it is assigned before it is read
    again, in [Done] it is never read. *)
Definition alike (s s' : BaseTarFilterImpl) : Prop :=
  header_buffer s = header_buffer s'
  /\ header_bytes_read s = header_bytes_read s'
  /\ file_size_ s = file_size_ s'
  /\ file_bytes_read s = file_bytes_read s'
  /\ padding_bytes_skipped s = padding_bytes_skipped s'
  /\ state s = state s'
  /\ current_file_name s = current_file_name s'
  /\ (padding_bytes s = padding_bytes s'
      \/ state s = ReadHeader \/ state s = Done).

Definition alike_results (r r' : option result) : Prop :=
  match r, r' with
  | Some r, Some r' =>
      ret r = ret r' /\ src_begin' r = src_begin' r'
      /\ dest_begin' r = dest_begin' r' /\ written r = written r'
      /\ alike (decoder r) (decoder r')
  | None, None => True
  | _, _ => False
  end.

(** ** Further definitions: writing a size field, entries, invariants *)

(** The usual writing of a number in a ustar numeric field: [k] octal
    digits, most significant first (the size field has 11 and a NUL). *)
Fixpoint octal_digits (k : nat) (n : Z) : list byte :=
  match k with
  | O => []
  | S k' => byte_of_Z (48 + (n / 8 ^ Z.of_nat k') mod 8) :: octal_digits k' n
  end.

(** The invariants of [consistent], with the bounds of the two members the
    header path sets: the padding length is below a block, and the header
    buffer is empty (never used, or cleared by [close]) or one block long. *)
Record well_formed (self : BaseTarFilterImpl) : Prop := {
  wf_consistent : consistent self;
  wf_padding : padding_bytes self < 512;
  wf_buffer : length (header_buffer self) = 0%nat
              \/ length (header_buffer self) = 512%nat
}.

(** The header buffer as [case State::ReadHeader] uses it, after the
    [resize]. *)
Definition resized (buf : list byte) : list byte :=
  if Z.of_nat (length buf) <? 512 then resize 512 x00 buf else buf.

(** The decoders a program can hold: a new one, and whatever calls to
    [filter] (on any memory and ranges) and to [close] make of it. *)
Inductive reachable : BaseTarFilterImpl -> Prop :=
| reach_new : reachable new_BaseTarFilterImpl
| reach_filter self src src_begin src_end dest_begin dest_end r :
    reachable self ->
    filter self src src_begin src_end dest_begin dest_end = Some r ->
    reachable (decoder r)
| reach_close self : reachable self -> reachable (close self).

(** Two decoders in [ReadHeader] that hold the same header bytes so far:
    whatever else they hold was set by earlier entries and is assigned
    again before it is read. *)
Definition same_header_progress (s s' : BaseTarFilterImpl) : Prop :=
  state s = ReadHeader /\ state s' = ReadHeader
  /\ header_bytes_read s = header_bytes_read s'
  /\ 0 <= header_bytes_read s < 512
  /\ length (resized (header_buffer s)) = 512%nat
  /\ length (resized (header_buffer s')) = 512%nat
  /\ take (Z.to_nat (header_bytes_read s)) (resized (header_buffer s))
     = take (Z.to_nat (header_bytes_read s)) (resized (header_buffer s')).

(** Decoders that decode alike from here on. *)
Definition equivalent (s s' : BaseTarFilterImpl) : Prop :=
  s = s' \/ same_header_progress s s'
  \/ (state s = Done /\ state s' = Done).

Definition equivalent_results (r r' : option result) : Prop :=
  match r, r' with
  | Some r, Some r' =>
      ret r = ret r' /\ src_begin' r = src_begin' r'
      /\ dest_begin' r = dest_begin' r' /\ written r = written r'
      /\ equivalent (decoder r) (decoder r')
  | None, None => True
  | _, _ => False
  end.

(** ** Entries as the decoder takes them

    An entry is a header block, the payload the decoder emits and the
    bytes it skips before the next header.  [entry_ok] says what the code
    makes of the header: a regular file has as many payload bytes as the
    size field says; any other entry has no payload, and in both cases
    [(512 - size mod 512) mod 512] bytes are skipped (for an entry of
    another type that declares a size that is not a multiple of 512, these
    are not the bytes up to the next block boundary after its data). *)
Record entry := mkEntry {
  e_header : list byte;
  e_payload : list byte;
  e_skipped : list byte
}.

Definition entry_bytes (e : entry) : list byte :=
  e_header e ++ e_payload e ++ e_skipped e.

Definition entry_ok (e : entry) : Prop :=
  length (e_header e) = 512%nat
  /\ is_zero_block_impl (e_header e) = false
  /\ Z.of_nat (length (e_skipped e))
     = padding_for (parse_file_size_impl (e_header e))
  /\ if is_regular_file (e_header e)
     then Z.of_nat (length (e_payload e)) = parse_file_size_impl (e_header e)
     else e_payload e = [].

(** The decoder once the header block [hdr] is parsed (lines 205-218). *)
Definition after_header (hdr : list byte) : BaseTarFilterImpl :=
  {| header_buffer := hdr;
     header_bytes_read := 0;
     file_size_ := if is_regular_file hdr then parse_file_size_impl hdr else 0;
     file_bytes_read := 0;
     padding_bytes := padding_for (parse_file_size_impl hdr);
     padding_bytes_skipped := 0;
     state := if is_regular_file hdr then ReadFileData else SkipPadding;
     current_file_name := extract_file_name_impl hdr |}.

(** The decoder once the entry of header [hdr] is behind it. *)
Definition after_entry (hdr : list byte) : BaseTarFilterImpl :=
  {| header_buffer := hdr;
     header_bytes_read := 0;
     file_size_ := if is_regular_file hdr then parse_file_size_impl hdr else 0;
     file_bytes_read :=
       if is_regular_file hdr then parse_file_size_impl hdr else 0;
     padding_bytes := padding_for (parse_file_size_impl hdr);
     padding_bytes_skipped := padding_for (parse_file_size_impl hdr);
     state := ReadHeader;
     current_file_name := extract_file_name_impl hdr |}.

(** The decoder of a regular file once its payload is copied. *)
Definition after_payload (hdr : list byte) : BaseTarFilterImpl :=
  {| header_buffer := hdr;
     header_bytes_read := 0;
     file_size_ := parse_file_size_impl hdr;
     file_bytes_read := parse_file_size_impl hdr;
     padding_bytes := padding_for (parse_file_size_impl hdr);
     padding_bytes_skipped := 0;
     state := SkipPadding;
     current_file_name := extract_file_name_impl hdr |}.

(** An archive: entries, the zero block that ends it, and whatever follows
    (a second zero block, blocking-factor padding). *)
Definition archive_bytes (entries : list entry) (trailer : list byte)
  : list byte :=
  concat (map entry_bytes entries) ++ zero_block ++ trailer.

Definition archive_output (entries : list entry) : list byte :=
  concat (map e_payload entries).

(** "hello.txt" of [hello_archive] as an entry. *)
Definition hello_entry : entry :=
  {| e_header := header_block hello_name (replicate 10 x30 ++ [x33]) x30;
     e_payload := hello_content;
     e_skipped := replicate 509 x00 |}.

(** What a decoder in state [Done] holds: the zero block it stopped at. *)
Definition done_at_zero_block (self : BaseTarFilterImpl) : Prop :=
  state self = Done ->
  header_buffer self = zero_block /\ header_bytes_read self = 512.

(** What the public members say while an entry's data is read or its
    padding skipped: they describe the entry whose header is in the
    buffer. *)
Definition describes_entry (self : BaseTarFilterImpl) : Prop :=
  state self = ReadFileData \/ state self = SkipPadding ->
  current_file_name self = extract_file_name_impl (header_buffer self)
  /\ file_size_ self
     = (if is_regular_file (header_buffer self)
        then parse_file_size_impl (header_buffer self) else 0)
  /\ padding_bytes self
     = padding_for (parse_file_size_impl (header_buffer self))
  /\ header_bytes_read self = 0
  /\ is_zero_block_impl (header_buffer self) = false
  /\ (state self = ReadFileData -> is_regular_file (header_buffer self) = true).

(** ** Proof tactics *)

Ltac body_cases self :=
  unfold filter_body, read_header, header_complete, read_file_data,
    skip_padding, accumulate_header, header_to_copy, set_state;
  destruct (state self) eqn:?; cbn [header_bytes_read header_buffer];
  repeat match goal with
    | |- context [if ?b then _ else _] =>
        lazymatch b with
        | Z.of_nat _ <? 512 => fail
        | _ => destruct b eqn:?
        end
    end;
  cbn [o_self o_src o_dest o_out o_ret header_bytes_read header_buffer
       file_size_ file_bytes_read padding_bytes padding_bytes_skipped state
       current_file_name].

Ltac eqb_to_prop :=
  repeat match goal with
    | H : (_ =? _) = true |- _ => apply Z.eqb_eq in H
    | H : (_ =? _) = false |- _ => apply Z.eqb_neq in H
    | H : (_ <? _) = true |- _ => apply Z.ltb_lt in H
    | H : (_ <? _) = false |- _ => apply Z.ltb_ge in H
    end.

Ltac wrap_lia :=
  unfold is_size_t, wrap64 in *;
  change (2 ^ 64) with 18446744073709551616 in *;
  Z.div_mod_to_equations; lia.

Ltac rank_lia :=
  unfold measure, rank;
  cbn [o_self o_src header_bytes_read state];
  repeat match goal with
    | H : state _ = _ |- _ => rewrite H
    end;
  repeat match goal with
    | |- context [if ?b then _ else _] => destruct b eqn:?
    end;
  eqb_to_prop; wrap_lia.

Ltac unwrap_inner shift_in :=
  repeat match goal with
    | |- context [wrap64 (wrap64 ?l * 256 + ?c)] =>
        lazymatch l with
        | context [wrap64] => fail
        | _ => rewrite (shift_in l c)
        end
    end.

Ltac bool_to_prop :=
  repeat match goal with
    | H : (_ && _) = true |- _ => apply andb_true_iff in H as [? ?]
    | H : (_ && _) = false |- _ => apply andb_false_iff in H as [?|?]
    | H : negb _ = true |- _ => apply negb_true_iff in H
    | H : negb _ = false |- _ => apply negb_false_iff in H
    | H : (_ =? _) = true |- _ => apply Z.eqb_eq in H
    | H : (_ =? _) = false |- _ => apply Z.eqb_neq in H
    | H : (_ <? _) = true |- _ => apply Z.ltb_lt in H
    | H : (_ <? _) = false |- _ => apply Z.ltb_ge in H
    | H : (_ <=? _) = true |- _ => apply Z.leb_le in H
    | H : (_ <=? _) = false |- _ => apply Z.leb_gt in H
    end.

Ltac alike_cases :=
  repeat match goal with
    | |- context [if ?b then _ else _] =>
        lazymatch b with
        | Z.of_nat _ <? 512 => fail
        | _ => destruct b
        end
    end;
  unfold alike;
  cbn [state header_buffer header_bytes_read file_size_ file_bytes_read
       padding_bytes padding_bytes_skipped current_file_name];
  repeat split; auto.

(** * Theorems *)

(** * Basic facts *)

Lemma byte_val_range (b : byte) : 0 <= byte_val b < 256.
Proof.
  unfold byte_val. pose proof (Byte.to_N_bounded b). lia.
Qed.

Lemma wrap64_range (z : Z) : 0 <= wrap64 z < 2 ^ 64.
Proof. unfold wrap64. apply Z.mod_pos_bound. lia. Qed.

Lemma wrap64_small (z : Z) : 0 <= z < 2 ^ 64 -> wrap64 z = z.
Proof. unfold wrap64. apply Z.mod_small. Qed.

Lemma wrap64_is_size_t (z : Z) : is_size_t (wrap64 z).
Proof. apply wrap64_range. Qed.

Lemma wrap64_sub_le (a b : Z) :
  is_size_t a -> is_size_t b -> b <= a -> wrap64 (a - b) = a - b.
Proof. unfold is_size_t. intros. apply wrap64_small. lia. Qed.

Lemma length_bytes_at (src : list byte) (p n : Z) :
  Z.of_nat (length (bytes_at src p n)) <= Z.max 0 n.
Proof. unfold bytes_at. rewrite length_take. lia. Qed.

Lemma length_bytes_at_inside (src : list byte) (p n : Z) :
  0 <= p -> 0 <= n -> p + n <= Z.of_nat (length src) ->
  Z.of_nat (length (bytes_at src p n)) = n.
Proof. unfold bytes_at. intros. rewrite length_take, length_drop. lia. Qed.

Lemma padding_for_range (s : Z) : 0 <= padding_for s < 512.
Proof. unfold padding_for. apply Z.mod_pos_bound. lia. Qed.

(** The [static_assert] of the header file, and the offsets of the fields
    the decoder reads. *)
Lemma sizeof_TarHeader_512 :
  TarHeader.sizeof_TarHeader = 512%nat
  /\ TarHeader.offsetof_name = 0%nat
  /\ TarHeader.offsetof_size = 124%nat
  /\ TarHeader.offsetof_typeflag = 156%nat.
Proof. repeat split. Qed.

Lemma length_header_block (name size_field : list byte) (typeflag : byte) :
  length (header_block name size_field typeflag) = 512%nat.
Proof.
  unfold header_block.
  rewrite !length_app, !length_resize, !length_replicate. reflexivity.
Qed.

(** * One pass through the loop body *)

Lemma parse_octal_from_size_t (p : list byte) (k i : nat) (result : Z) :
  is_size_t result -> is_size_t (parse_octal_from p k i result).
Proof.
  revert i result. induction k as [|k IH]; intros i result Hr; simpl; [done|].
  destruct (at_ p i =? 0); [done|].
  destruct ((48 <=? at_ p i) && (at_ p i <=? 55)); apply IH;
    [apply wrap64_is_size_t | done].
Qed.

Lemma parse_file_size_impl_size_t (tar : list byte) :
  is_size_t (parse_file_size_impl tar).
Proof.
  unfold parse_file_size_impl.
  destruct (negb _); [apply wrap64_is_size_t|].
  apply parse_octal_from_size_t. unfold is_size_t. lia.
Qed.

Lemma padding_for_size_t (s : Z) : is_size_t (padding_for s).
Proof. pose proof (padding_for_range s). unfold is_size_t. lia. Qed.

Lemma body_bounds self src sb se db de :
  sb < se -> db < de ->
  let o := filter_body self src sb se db de in
  sb <= o_src o <= se /\ db <= o_dest o <= de
  /\ Z.of_nat (length (o_out o)) <= o_dest o - db.
Proof.
  intros Hs Hd o. subst o.
  pose proof (wrap64_range (512 - header_bytes_read self)).
  pose proof (wrap64_range (file_size_ self - file_bytes_read self)).
  pose proof (wrap64_range (padding_bytes self - padding_bytes_skipped self)).
  body_cases self; cbn [length];
    try match goal with
      | |- context [bytes_at ?s ?p ?n] => pose proof (length_bytes_at s p n)
      end; lia.
Qed.

Lemma body_return self src sb se db de r :
  o_ret (filter_body self src sb se db de) = Some r ->
  r = false /\ state (o_self (filter_body self src sb se db de)) = Done
  /\ o_dest (filter_body self src sb se db de) = db
  /\ o_out (filter_body self src sb se db de) = [].
Proof.
  body_cases self; intros [= <-] || intros [=]; auto.
Qed.

Lemma body_size_t self src sb se db de :
  size_t_fields self ->
  size_t_fields (o_self (filter_body self src sb se db de)).
Proof.
  intros [H1 H2 H3 H4 H5].
  body_cases self; constructor;
    cbn [header_bytes_read file_size_ file_bytes_read padding_bytes
         padding_bytes_skipped];
    auto using wrap64_is_size_t, parse_file_size_impl_size_t,
      padding_for_size_t;
    unfold is_size_t; lia.
Qed.

Lemma body_progress self src sb se db de :
  size_t_fields self -> sb < se -> db < de ->
  o_ret (filter_body self src sb se db de) = None ->
  (measure (o_self (filter_body self src sb se db de))
     (o_src (filter_body self src sb se db de)) se < measure self sb se)%nat.
Proof.
  intros [H1 H2 H3 H4 H5] Hs Hd.
  unfold filter_body. destruct (state self) eqn:Est.
  - unfold read_header, accumulate_header, header_to_copy.
    set (t := Z.min _ _). set (buf := list_inserts _ _ _).
    cbn [header_bytes_read].
    destruct (wrap64 (header_bytes_read self + t) =? 512) eqn:E.
    + unfold header_complete. cbn [header_buffer].
      destruct (is_zero_block_impl buf); [discriminate|].
      intros _. subst t. destruct (is_regular_file buf); rank_lia.
    + intros _. subst t. rank_lia.
  - intros _. unfold read_file_data. rank_lia.
  - intros _. unfold skip_padding. rank_lia.
  - discriminate.
Qed.

(** * The loop *)

Lemma filter_loop_exit fuel src se de self sb db out :
  (sb <? se) && (db <? de) = false ->
  filter_loop fuel src se de self sb db out
  = Some (mkResult true self sb db out).
Proof. intros H. destruct fuel; simpl; rewrite H; reflexivity. Qed.

Lemma filter_loop_pass fuel src se de self sb db out :
  (sb <? se) && (db <? de) = true ->
  filter_loop (S fuel) src se de self sb db out
  = match filter_body self src sb se db de with
    | Return r self' sb' db' o => Some (mkResult r self' sb' db' (out ++ o))
    | Break self' sb' db' o =>
        filter_loop fuel src se de self' sb' db' (out ++ o)
    end.
Proof. intros H. simpl. rewrite H. reflexivity. Qed.

Lemma guard_true sb se db de :
  (sb <? se) && (db <? de) = true <-> sb < se /\ db < de.
Proof. rewrite andb_true_iff, !Z.ltb_lt. tauto. Qed.

Lemma guard_false sb se db de :
  (sb <? se) && (db <? de) = false <-> se <= sb \/ de <= db.
Proof. rewrite andb_false_iff, !Z.ltb_ge. tauto. Qed.

Lemma filter_loop_more_fuel fuel fuel' src se de self sb db out r :
  filter_loop fuel src se de self sb db out = Some r ->
  (fuel <= fuel')%nat ->
  filter_loop fuel' src se de self sb db out = Some r.
Proof.
  revert fuel' self sb db out.
  induction fuel as [|fuel IH]; intros fuel' self sb db out H Hle.
  - destruct ((sb <? se) && (db <? de)) eqn:G.
    + simpl in H. rewrite G in H. discriminate.
    + rewrite filter_loop_exit in * by done. done.
  - destruct ((sb <? se) && (db <? de)) eqn:G.
    + destruct fuel' as [|fuel']; [lia|].
      rewrite filter_loop_pass in * by done.
      destruct (filter_body self src sb se db de); [|done].
      apply IH; [done|lia].
    + rewrite filter_loop_exit in * by done. done.
Qed.

Lemma filter_loop_terminates fuel src se de self sb db out :
  size_t_fields self ->
  (measure self sb se < fuel)%nat ->
  exists r, filter_loop fuel src se de self sb db out = Some r.
Proof.
  revert self sb db out.
  induction fuel as [|fuel IH]; intros self sb db out Hf Hm; [lia|].
  destruct ((sb <? se) && (db <? de)) eqn:G.
  - rewrite filter_loop_pass by done. apply guard_true in G as [Hs Hd].
    pose proof (body_progress self src sb se db de Hf Hs Hd) as Hp.
    pose proof (body_size_t self src sb se db de Hf) as Hf'.
    destruct (filter_body self src sb se db de); [|eauto].
    apply IH; [done|]. cbn [o_ret o_self o_src] in Hp.
    specialize (Hp eq_refl). lia.
  - rewrite filter_loop_exit by done. eauto.
Qed.

Lemma measure_lt_filter_fuel self sb se :
  (measure self sb se < filter_fuel sb se)%nat.
Proof.
  unfold measure, filter_fuel, rank.
  destruct (header_bytes_read self =? 512), (state self); lia.
Qed.

(** The call returns: the loop ends within the fuel [filter] gives it. *)
Lemma filter_terminates self src sb se db de :
  size_t_fields self -> exists r, filter self src sb se db de = Some r.
Proof.
  intros Hf. apply filter_loop_terminates; [done|].
  apply measure_lt_filter_fuel.
Qed.

Lemma filter_loop_bounds fuel src se de self sb db out r :
  sb <= se -> db <= de ->
  filter_loop fuel src se de self sb db out = Some r ->
  sb <= src_begin' r <= se /\ db <= dest_begin' r <= de
  /\ Z.of_nat (length (written r)) - Z.of_nat (length out)
     <= dest_begin' r - db.
Proof.
  revert self sb db out.
  induction fuel as [|fuel IH]; intros self sb db out Hs Hd H.
  - destruct ((sb <? se) && (db <? de)) eqn:G.
    + simpl in H. rewrite G in H. discriminate.
    + rewrite filter_loop_exit in H by done. injection H as <-. simpl. lia.
  - destruct ((sb <? se) && (db <? de)) eqn:G.
    + rewrite filter_loop_pass in H by done. apply guard_true in G as [Gs Gd].
      pose proof (body_bounds self src sb se db de Gs Gd) as Hb. cbn zeta in Hb.
      destruct (filter_body self src sb se db de) as [s' sb' db' o|? s' sb' db' o];
        cbn in Hb.
      * apply IH in H; [|lia..]. rewrite length_app in H. lia.
      * injection H as <-. cbn. rewrite length_app. lia.
    + rewrite filter_loop_exit in H by done. injection H as <-. simpl. lia.
Qed.

Lemma filter_loop_returns_false fuel src se de self sb db out r :
  filter_loop fuel src se de self sb db out = Some r ->
  ret r = false -> state (decoder r) = Done.
Proof.
  revert self sb db out.
  induction fuel as [|fuel IH]; intros self sb db out H Hr.
  - destruct ((sb <? se) && (db <? de)) eqn:G.
    + simpl in H. rewrite G in H. discriminate.
    + rewrite filter_loop_exit in H by done. injection H as <-. discriminate.
  - destruct ((sb <? se) && (db <? de)) eqn:G.
    + rewrite filter_loop_pass in H by done.
      pose proof (body_return self src sb se db de) as Hb.
      destruct (filter_body self src sb se db de) as [s' sb' db' o|b s' sb' db' o];
        cbn in Hb.
      * eauto.
      * injection H as <-. cbn in *. destruct (Hb b eq_refl) as (_ & ? & _). done.
    + rewrite filter_loop_exit in H by done. injection H as <-. discriminate.
Qed.

Lemma body_written_exact self src sb se db de :
  sb < se -> db < de -> 0 <= sb -> se <= Z.of_nat (length src) ->
  Z.of_nat (length (o_out (filter_body self src sb se db de)))
  = o_dest (filter_body self src sb se db de) - db.
Proof.
  intros Hs Hd H0 Hlen.
  pose proof (wrap64_range (file_size_ self - file_bytes_read self)).
  body_cases self; cbn [length]; try lia.
  all: rewrite length_bytes_at_inside; lia.
Qed.

Lemma filter_loop_written_exact fuel src se de self sb db out r :
  0 <= sb -> sb <= se -> se <= Z.of_nat (length src) -> db <= de ->
  filter_loop fuel src se de self sb db out = Some r ->
  Z.of_nat (length (written r)) - Z.of_nat (length out)
  = dest_begin' r - db.
Proof.
  revert self sb db out.
  induction fuel as [|fuel IH]; intros self sb db out H0 Hs Hlen Hd H.
  - destruct ((sb <? se) && (db <? de)) eqn:G.
    + simpl in H. rewrite G in H. discriminate.
    + rewrite filter_loop_exit in H by done. injection H as <-. simpl. lia.
  - destruct ((sb <? se) && (db <? de)) eqn:G.
    + rewrite filter_loop_pass in H by done. apply guard_true in G as [Gs Gd].
      pose proof (body_bounds self src sb se db de Gs Gd) as Hb.
      pose proof (body_written_exact self src sb se db de Gs Gd H0 Hlen) as Hw.
      cbn zeta in Hb.
      destruct (filter_body self src sb se db de)
        as [s' sb' db' o|? s' sb' db' o]; cbn in Hb, Hw.
      * apply IH in H; [|lia..]. rewrite length_app in H. lia.
      * injection H as <-. cbn. rewrite length_app. lia.
    + rewrite filter_loop_exit in H by done. injection H as <-. simpl. lia.
Qed.

(** * The octal field parser *)

Lemma at_lookup (p : list byte) (i : nat) :
  at_ p i = match p !! i with Some b => byte_val b | None => 0 end.
Proof.
  unfold at_. rewrite nth_lookup. destruct (p !! i); reflexivity.
Qed.

Lemma wrap64_step (x y d : Z) :
  wrap64 x = wrap64 y -> wrap64 (x * 8 + d) = wrap64 (y * 8 + d).
Proof.
  unfold wrap64. intros H.
  rewrite <- (Zplus_mod_idemp_l (x * 8)), <- (Zmult_mod_idemp_l x), H,
    Zmult_mod_idemp_l, Zplus_mod_idemp_l.
  reflexivity.
Qed.

Lemma octal_value_wrap (field : list byte) (x y : Z) :
  wrap64 x = wrap64 y ->
  wrap64 (octal_value field x) = wrap64 (octal_value field y).
Proof.
  revert x y. induction field as [|b rest IH]; intros x y H; simpl; [done|].
  destruct (byte_val b =? 0); [done|].
  destruct ((48 <=? byte_val b) && (byte_val b <=? 55)); [|auto].
  apply IH, wrap64_step, H.
Qed.

Lemma wrap64_idemp (x : Z) : wrap64 (wrap64 x) = wrap64 x.
Proof. unfold wrap64. apply Zmod_mod. Qed.

Lemma parse_octal_from_value (p : list byte) (k i : nat) (result : Z) :
  wrap64 (parse_octal_from p k i result)
  = wrap64 (octal_value (take k (drop i p)) result).
Proof.
  revert i result. induction k as [|k IH]; intros i result; simpl.
  { reflexivity. }
  rewrite at_lookup. destruct (p !! i) as [b|] eqn:E.
  - rewrite (drop_S _ _ _ E). simpl.
    destruct (byte_val b =? 0); [done|].
    destruct ((48 <=? byte_val b) && (byte_val b <=? 55)); [|apply IH].
    rewrite IH. apply octal_value_wrap.
    rewrite Z.shiftl_mul_pow2 by lia. rewrite wrap64_idemp. reflexivity.
  - rewrite drop_ge by (apply lookup_ge_None; done). reflexivity.
Qed.

Lemma octal_value_bound (field : list byte) (result : Z) :
  0 <= result ->
  0 <= octal_value field result
       < (result + 1) * 8 ^ Z.of_nat (length field).
Proof.
  revert result. induction field as [|b rest IH]; intros result H; simpl length.
  { simpl. lia. }
  rewrite Nat2Z.inj_succ, Z.pow_succ_r by lia.
  assert (0 < 8 ^ Z.of_nat (length rest)) by (apply Z.pow_pos_nonneg; lia).
  simpl. destruct (byte_val b =? 0); [nia|].
  destruct ((48 <=? byte_val b) && (byte_val b <=? 55)) eqn:D.
  - apply andb_true_iff in D as [D1%Z.leb_le D2%Z.leb_le].
    specialize (IH (result * 8 + (byte_val b - 48))). nia.
  - specialize (IH result H). nia.
Qed.

Lemma parse_octal_impl_value (p : list byte) (n : nat) :
  parse_octal_impl p n = wrap64 (octal_value (take n p) 0).
Proof.
  pose proof (parse_octal_from_value p n 0 0) as H.
  rewrite drop_0 in H. rewrite <- H. symmetry. apply wrap64_small.
  apply parse_octal_from_size_t. unfold is_size_t. lia.
Qed.

(** The parser looks at the first [n] bytes only. *)
Lemma parse_octal_impl_at_most_n (p q : list byte) (n : nat) :
  take n p = take n q -> parse_octal_impl p n = parse_octal_impl q n.
Proof. intros H. rewrite !parse_octal_impl_value, H. reflexivity. Qed.

(** It stops at the first NUL: what follows does not matter. *)
Lemma parse_octal_impl_stops_at_nul (pre post post' : list byte) (n : nat) :
  parse_octal_impl (pre ++ x00 :: post) n
  = parse_octal_impl (pre ++ x00 :: post') n.
Proof.
  rewrite !parse_octal_impl_value. f_equal. generalize 0.
  revert n. induction pre as [|b pre IH]; intros n z.
  - destruct n; reflexivity.
  - destruct n; [reflexivity|]. simpl.
    destruct (byte_val b =? 0); [done|].
    destruct ((48 <=? byte_val b) && (byte_val b <=? 55)); apply IH.
Qed.

(** C9.  On every field [p] and length [n] the octal parser returns a
    value (it has no failure case), which is the one obtained by going
    through the first [n] bytes only, stopping at the first NUL, replacing
    [result] by [result * 8 + digit] at each byte in '0'..'7' and leaving
    [result] alone at any other byte.  The arithmetic is that of
    [std::size_t]: up to 21 bytes (the size field has 12) nothing wraps
    and the value is exact; beyond, it is taken modulo 2^64. *)
Theorem parse_octal_impl_spec (p : list byte) (n : nat) :
  parse_octal_impl p n = wrap64 (octal_value (take n p) 0)
  /\ ((n <= 21)%nat -> parse_octal_impl p n = octal_value (take n p) 0).
Proof.
  split; [apply parse_octal_impl_value|].
  intros Hn. rewrite parse_octal_impl_value. apply wrap64_small.
  pose proof (octal_value_bound (take n p) 0 ltac:(lia)) as Hb.
  assert (8 ^ Z.of_nat (length (take n p)) <= 8 ^ 21).
  { apply Z.pow_le_mono_r; [lia|]. rewrite length_take. lia. }
  change (8 ^ 21) with (2 ^ 63) in *. lia.
Qed.

(** The size field "00000000144" followed by NUL is 100. *)
Lemma parse_octal_impl_spec_size_field :
  parse_octal_impl (replicate 8 x30 ++ [x31; x34; x34; x00]) 12 = 100
  /\ octal_value (take 12 (replicate 8 x30 ++ [x31; x34; x34; x00])) 0 = 100.
Proof.
  split; [|reflexivity].
  rewrite (proj2 (parse_octal_impl_spec
                    (replicate 8 x30 ++ [x31; x34; x34; x00]) 12)).
  - reflexivity.
  - lia.
Defined.

(** * The base-256 field parser *)

(** Bit tests on one byte, by enumeration of the 256 bytes. *)
Lemma byte_sign_bit (b : byte) :
  (Z.land (byte_val b) 0x40 =? 0) = (byte_val b mod 128 <? 64).
Proof. destruct b; reflexivity. Qed.

Lemma byte_marker_bit (b : byte) :
  (Z.land (byte_val b) 0x80 =? 0) = (byte_val b <? 128).
Proof. destruct b; reflexivity. Qed.

Lemma byte_clear_marker (b : byte) :
  Z.land (byte_val b) 0x7f = byte_val b mod 128.
Proof. destruct b; reflexivity. Qed.

Lemma byte_set_marker (b : byte) :
  Z.lor (byte_val b) 0x80 = byte_val b mod 128 + 128.
Proof. destruct b; reflexivity. Qed.

Lemma byte_top_bit_pos (b : byte) :
  (Z.land (Z.lxor (byte_val b) 0) 0x80 =? 0) = (byte_val b <? 128).
Proof. destruct b; reflexivity. Qed.

Lemma byte_top_bit_neg (b : byte) :
  (Z.land (Z.lxor (byte_val b) 0xff) 0x80 =? 0) = (128 <=? byte_val b).
Proof. destruct b; reflexivity. Qed.

Lemma shift_in_byte (l c : Z) :
  0 <= c < 256 -> Z.lor (l ≪ 8) c = l * 256 + c.
Proof.
  intros Hc. rewrite Z.shiftl_mul_pow2 by lia. change (2 ^ 8) with 256.
  symmetry. apply Z.add_nocarry_lor. apply Z.bits_inj'. intros n Hn.
  rewrite Z.land_spec, Z.bits_0.
  destruct (Z.lt_ge_cases n 8) as [Hlt|Hge].
  - change 256 with (2 ^ 8). rewrite Z.mul_pow2_bits_low by lia. reflexivity.
  - rewrite (Z.bits_above_log2 c n); [apply andb_false_r|lia|].
    destruct (Z.eq_dec c 0) as [->|]; [simpl; lia|].
    apply Z.log2_lt_pow2; [lia|].
    apply Z.lt_le_trans with (2 ^ 8); [simpl; lia|].
    apply Z.pow_le_mono_r; lia.
Qed.

Lemma wrap64_shift_in (l c : Z) :
  wrap64 (wrap64 l * 256 + c) = wrap64 (l * 256 + c).
Proof.
  unfold wrap64.
  rewrite <- (Zplus_mod_idemp_l (_ * 256)), Zmult_mod_idemp_l,
    Zplus_mod_idemp_l.
  reflexivity.
Qed.

Lemma byte_val_byte_of_Z (z : Z) : byte_val (byte_of_Z z) = z mod 256.
Proof.
  unfold byte_of_Z, byte_val.
  pose proof (Z.mod_pos_bound z 256 ltac:(lia)) as Hz.
  destruct (Byte.of_N (Z.to_N (z mod 256))) as [b|] eqn:E.
  - apply Byte.to_of_N in E. rewrite E. lia.
  - apply Byte.of_N_None_iff in E. lia.
Qed.

(** The parser on a 12-byte field (whatever follows it in memory), as a
    closed expression in the values of its bytes. *)
Lemma parse_base256_impl_12 (b0 b1 b2 b3 b4 b5 b6 b7 b8 b9 b10 b11 : byte)
    (rest : list byte) :
  let low :=
    ((((((byte_val b4 * 256 + byte_val b5) * 256 + byte_val b6) * 256
        + byte_val b7) * 256 + byte_val b8) * 256 + byte_val b9) * 256
     + byte_val b10) * 256 + byte_val b11 in
  parse_base256_impl
    ([b0; b1; b2; b3; b4; b5; b6; b7; b8; b9; b10; b11] ++ rest) 12
  = if byte_val b0 mod 128 <? 64 then
      if (byte_val b0 mod 128 =? 0) && (byte_val b1 =? 0)
         && (byte_val b2 =? 0) && (byte_val b3 =? 0) && (byte_val b4 <? 128)
      then low else INT64_MAX
    else
      if (byte_val b0 mod 128 + 128 =? 255) && (byte_val b1 =? 255)
         && (byte_val b2 =? 255) && (byte_val b3 =? 255)
         && (128 <=? byte_val b4)
      then low - 2 ^ 64 else INT64_MIN.
Proof.
  intros low. unfold parse_base256_impl.
  change (at_ _ 0) with (byte_val b0).
  rewrite byte_sign_bit, byte_clear_marker, byte_set_marker.
  pose proof (byte_val_range b0) as R0. pose proof (byte_val_range b1) as R1.
  pose proof (byte_val_range b2) as R2. pose proof (byte_val_range b3) as R3.
  pose proof (byte_val_range b4) as R4. pose proof (byte_val_range b5) as R5.
  pose proof (byte_val_range b6) as R6. pose proof (byte_val_range b7) as R7.
  pose proof (byte_val_range b8) as R8. pose proof (byte_val_range b9) as R9.
  pose proof (byte_val_range b10) as R10. pose proof (byte_val_range b11) as R11.
  change (12 - 8)%nat with 4%nat. change (Nat.min 12 8 - 1)%nat with 7%nat.
  destruct (byte_val b0 mod 128 <? 64) eqn:Hs; cbn [negb].
  - cbn [skip_sign_bytes].
    destruct (byte_val b0 mod 128 =? 0); cbn [andb]; [|reflexivity].
    change (at_ _ 1) with (byte_val b1).
    destruct (byte_val b1 =? 0); cbn [andb]; [|reflexivity].
    change (at_ _ 2) with (byte_val b2).
    destruct (byte_val b2 =? 0); cbn [andb]; [|reflexivity].
    change (at_ _ 3) with (byte_val b3).
    destruct (byte_val b3 =? 0); cbn [andb]; [|reflexivity].
    change (at_ _ 4) with (byte_val b4).
    rewrite byte_top_bit_pos.
    destruct (byte_val b4 <? 128) eqn:T4; cbn [negb]; [|reflexivity].
    cbn [shift_in_bytes].
    change (at_ _ 5) with (byte_val b5). change (at_ _ 6) with (byte_val b6).
    change (at_ _ 7) with (byte_val b7). change (at_ _ 8) with (byte_val b8).
    change (at_ _ 9) with (byte_val b9). change (at_ _ 10) with (byte_val b10).
    change (at_ _ 11) with (byte_val b11).
    rewrite !shift_in_byte by done. unwrap_inner wrap64_shift_in.
    apply Z.ltb_lt in T4.
    change (0 * 256 + byte_val b4) with (byte_val b4). fold low.
    unfold to_int64. rewrite wrap64_small by (subst low; lia).
    destruct (low <? 2 ^ 63) eqn:Hl; [reflexivity|].
    apply Z.ltb_ge in Hl. subst low. lia.
  - cbn [skip_sign_bytes].
    destruct (byte_val b0 mod 128 + 128 =? 255); cbn [andb]; [|reflexivity].
    change (at_ _ 1) with (byte_val b1).
    destruct (byte_val b1 =? 255); cbn [andb]; [|reflexivity].
    change (at_ _ 2) with (byte_val b2).
    destruct (byte_val b2 =? 255); cbn [andb]; [|reflexivity].
    change (at_ _ 3) with (byte_val b3).
    destruct (byte_val b3 =? 255); cbn [andb]; [|reflexivity].
    change (at_ _ 4) with (byte_val b4).
    rewrite byte_top_bit_neg.
    destruct (128 <=? byte_val b4) eqn:T4; cbn [negb]; [|reflexivity].
    cbn [shift_in_bytes].
    change (at_ _ 5) with (byte_val b5). change (at_ _ 6) with (byte_val b6).
    change (at_ _ 7) with (byte_val b7). change (at_ _ 8) with (byte_val b8).
    change (at_ _ 9) with (byte_val b9). change (at_ _ 10) with (byte_val b10).
    change (at_ _ 11) with (byte_val b11).
    rewrite !shift_in_byte by done. unwrap_inner wrap64_shift_in.
    apply Z.leb_le in T4.
    replace (wrap64 _) with low.
    + unfold to_int64. destruct (low <? 2 ^ 63) eqn:Hl; [|reflexivity].
      apply Z.ltb_lt in Hl. subst low. lia.
    + change (Z.lnot 0) with (-1).
      unfold wrap64. apply Z.mod_unique with (q := -1).
      * left. subst low. lia.
      * subst low. lia.
Qed.

Lemma length_12 (field : list byte) :
  length field = 12%nat ->
  exists b0 b1 b2 b3 b4 b5 b6 b7 b8 b9 b10 b11,
    field = [b0; b1; b2; b3; b4; b5; b6; b7; b8; b9; b10; b11].
Proof.
  intros H.
  do 12 (destruct field as [|? field]; [discriminate|]).
  destruct field; [|discriminate]. eauto 13.
Qed.

Lemma field_value_12 (b0 b1 b2 b3 b4 b5 b6 b7 b8 b9 b10 b11 : byte)
    (rest : list byte) :
  field_value ([b0; b1; b2; b3; b4; b5; b6; b7; b8; b9; b10; b11] ++ rest)
  = (((((((((((byte_val b0 mod 128 * 256 + byte_val b1) * 256 + byte_val b2)
             * 256 + byte_val b3) * 256 + byte_val b4) * 256 + byte_val b5)
          * 256 + byte_val b6) * 256 + byte_val b7) * 256 + byte_val b8)
       * 256 + byte_val b9) * 256 + byte_val b10) * 256 + byte_val b11)
    - (if byte_val b0 mod 128 <? 64 then 0 else 2 ^ 95).
Proof.
  unfold field_value, be_value. cbn [app firstn fold_left].
  change (take 0 rest) with (@nil byte). cbn [fold_left].
  pose proof (byte_val_range b0) as R0. pose proof (byte_val_range b1) as R1.
  pose proof (byte_val_range b2) as R2. pose proof (byte_val_range b3) as R3.
  pose proof (byte_val_range b4) as R4. pose proof (byte_val_range b5) as R5.
  pose proof (byte_val_range b6) as R6. pose proof (byte_val_range b7) as R7.
  pose proof (byte_val_range b8) as R8. pose proof (byte_val_range b9) as R9.
  pose proof (byte_val_range b10) as R10.
  pose proof (byte_val_range b11) as R11.
  set (m := byte_val b0 mod 128).
  assert (Hm : 0 <= m < 128) by (apply Z.mod_pos_bound; lia).
  set (w := (((((((((((m * 256 + byte_val b1) * 256 + byte_val b2)
             * 256 + byte_val b3) * 256 + byte_val b4) * 256 + byte_val b5)
          * 256 + byte_val b6) * 256 + byte_val b7) * 256 + byte_val b8)
       * 256 + byte_val b9) * 256 + byte_val b10) * 256 + byte_val b11)).
  assert (Hw : 0 <= w < 2 ^ 95) by (subst w; lia).
  replace (_ mod 2 ^ 95) with w.
  - destruct (m <? 64) eqn:Hs, (w <? 2 ^ 94) eqn:Hq;
      try apply Z.ltb_lt in Hs; try apply Z.ltb_lt in Hq;
      try apply Z.ltb_ge in Hs; try apply Z.ltb_ge in Hq;
      subst w; lia.
  - apply Z.mod_unique with (q := byte_val b0 / 128); [left; done|].
    pose proof (Z.div_mod (byte_val b0) 128 ltac:(lia)) as Hd. fold m in Hd.
    subst w. lia.
Qed.

Lemma sign_bit_set_12 (b0 : byte) (rest : list byte) :
  sign_bit_set (b0 :: rest) = negb (byte_val b0 mod 128 <? 64).
Proof.
  unfold sign_bit_set. change (at_ _ 0) with (byte_val b0).
  rewrite byte_sign_bit. reflexivity.
Qed.

(** The parser returns the value of the field clamped to [int64_t], and
    its sign is the sign bit of the field. *)
Lemma parse_base256_impl_clamps (field rest : list byte) :
  length field = 12%nat ->
  parse_base256_impl (field ++ rest) 12
  = Z.max INT64_MIN (Z.min INT64_MAX (field_value (field ++ rest)))
  /\ (parse_base256_impl (field ++ rest) 12 < 0
      <-> sign_bit_set (field ++ rest) = true).
Proof.
  intros Hlen.
  destruct (length_12 field Hlen)
    as (b0 & b1 & b2 & b3 & b4 & b5 & b6 & b7 & b8 & b9 & b10 & b11 & ->).
  rewrite parse_base256_impl_12, field_value_12.
  change ([b0; b1; b2; b3; b4; b5; b6; b7; b8; b9; b10; b11] ++ rest)
    with (b0 :: ([b1; b2; b3; b4; b5; b6; b7; b8; b9; b10; b11] ++ rest)).
  rewrite sign_bit_set_12.
  pose proof (byte_val_range b0) as R0. pose proof (byte_val_range b1) as R1.
  pose proof (byte_val_range b2) as R2. pose proof (byte_val_range b3) as R3.
  pose proof (byte_val_range b4) as R4. pose proof (byte_val_range b5) as R5.
  pose proof (byte_val_range b6) as R6. pose proof (byte_val_range b7) as R7.
  pose proof (byte_val_range b8) as R8. pose proof (byte_val_range b9) as R9.
  pose proof (byte_val_range b10) as R10.
  pose proof (byte_val_range b11) as R11.
  set (m := byte_val b0 mod 128).
  assert (Hm : 0 <= m < 128) by (apply Z.mod_pos_bound; lia).
  clearbody m. clear R0.
  unfold INT64_MIN, INT64_MAX.
  destruct (m <? 64) eqn:Hs; cbn [negb].
  - match goal with
    | |- context [if ?b then _ else _] => destruct b eqn:Hc
    end; bool_to_prop; (split; [lia | split; [lia | discriminate]]).
  - match goal with
    | |- context [if ?b then _ else _] => destruct b eqn:Hc
    end; bool_to_prop; (split; [lia | split; [done | lia]]).
Qed.

(** The encoder of the specification. *)
Lemma be_value_from (bs : list byte) (a : Z) :
  fold_left (fun acc b => acc * 256 + byte_val b) bs a
  = a * 256 ^ Z.of_nat (length bs) + be_value bs.
Proof.
  unfold be_value. revert a. induction bs as [|b bs IH]; intros a.
  - simpl. lia.
  - cbn [fold_left length]. rewrite IH, (IH (0 * 256 + byte_val b)).
    rewrite Nat2Z.inj_succ, Z.pow_succ_r by lia. lia.
Qed.

Lemma be_value_cons (b : byte) (bs : list byte) :
  be_value (b :: bs) = byte_val b * 256 ^ Z.of_nat (length bs) + be_value bs.
Proof.
  unfold be_value at 1. cbn [fold_left]. rewrite be_value_from. lia.
Qed.

Lemma length_be_bytes (n : nat) (z : Z) : length (be_bytes n z) = n.
Proof. induction n as [|n IH]; simpl; [done|]. rewrite IH. done. Qed.

Lemma be_value_be_bytes (n : nat) (z : Z) :
  be_value (be_bytes n z) = z mod 256 ^ Z.of_nat n.
Proof.
  induction n as [|n IH].
  - simpl. rewrite Z.mod_1_r. reflexivity.
  - cbn [be_bytes]. rewrite be_value_cons, length_be_bytes, IH.
    rewrite byte_val_byte_of_Z, Nat2Z.inj_succ, Z.pow_succ_r by lia.
    assert (0 < 256 ^ Z.of_nat n) by (apply Z.pow_pos_nonneg; lia).
    rewrite (Z.mul_comm 256), Z.rem_mul_r by lia. lia.
Qed.

Lemma encode_base256_cons (v : Z) :
  encode_base256 v
  = byte_of_Z (Z.lor (byte_val (byte_of_Z (v / 256 ^ 11))) 0x80)
    :: be_bytes 11 v.
Proof. reflexivity. Qed.

Lemma length_encode_base256 (v : Z) : length (encode_base256 v) = 12%nat.
Proof. rewrite encode_base256_cons. cbn [length]. rewrite length_be_bytes. done. Qed.

Lemma encode_base256_first (v : Z) :
  at_ (encode_base256 v) 0
  = byte_val (byte_of_Z (v / 256 ^ 11)) mod 128 + 128.
Proof.
  rewrite encode_base256_cons. unfold at_. cbn [nth].
  rewrite byte_val_byte_of_Z, byte_set_marker.
  apply Z.mod_small.
  pose proof (Z.mod_pos_bound (byte_val (byte_of_Z (v / 256 ^ 11))) 128).
  lia.
Qed.

Lemma encode_base256_marker (v : Z) :
  Z.land (at_ (encode_base256 v) 0) 0x80 <> 0.
Proof.
  pose proof (encode_base256_first v) as H.
  rewrite encode_base256_cons in *. unfold at_ in *. cbn [nth] in *.
  pose proof (byte_marker_bit
                (byte_of_Z (Z.lor (byte_val (byte_of_Z (v / 256 ^ 11))) 128)))
    as Hm.
  pose proof (Z.mod_pos_bound (byte_val (byte_of_Z (v / 256 ^ 11))) 128).
  intros E. rewrite E in Hm. cbn [Z.eqb] in Hm. symmetry in Hm.
  apply Z.ltb_lt in Hm. lia.
Qed.

Lemma field_value_encode_base256 (v : Z) :
  INT64_MIN <= v <= INT64_MAX -> field_value (encode_base256 v) = v.
Proof.
  unfold INT64_MIN, INT64_MAX. intros Hv.
  unfold field_value.
  rewrite take_ge by (rewrite length_encode_base256; lia).
  pose proof (encode_base256_first v) as Hfirst.
  pose proof (be_value_be_bytes 12 v) as Hbe.
  rewrite encode_base256_cons in *. unfold at_ in Hfirst. cbn [nth] in Hfirst.
  change (be_bytes 12 v) with (byte_of_Z (v / 256 ^ 11) :: be_bytes 11 v)
    in Hbe.
  rewrite be_value_cons in *. rewrite length_be_bytes in *.
  rewrite Hfirst. clear Hfirst.
  set (x := byte_val (byte_of_Z (v / 256 ^ 11))) in *.
  pose proof (byte_val_range (byte_of_Z (v / 256 ^ 11))) as Rx. fold x in Rx.
  set (t := be_value (be_bytes 11 v)) in *.
  change (Z.of_nat 11) with 11 in *. change (Z.of_nat 12) with 12 in *.
  change (256 ^ 11) with (2 ^ 88) in *. change (256 ^ 12) with (2 ^ 96) in *.
  assert (Hw : ((x mod 128 + 128) * 2 ^ 88 + t) mod 2 ^ 95 = v mod 2 ^ 95).
  { replace ((x mod 128 + 128) * 2 ^ 88 + t)
      with (v mod 2 ^ 96 + (1 - x / 128) * 2 ^ 95).
    - rewrite Z_mod_plus_full.
      change (2 ^ 96) with (2 ^ 95 * 2). rewrite Z.rem_mul_r by lia.
      rewrite Z.mul_comm, Z_mod_plus_full. apply Z.mod_mod. lia.
    - rewrite <- Hbe. pose proof (Z.div_mod x 128 ltac:(lia)). lia. }
  rewrite Hw. clear Hw Hbe.
  destruct (v mod 2 ^ 95 <? 2 ^ 94) eqn:E; bool_to_prop;
    Z.div_mod_to_equations; lia.
Qed.

Lemma field_value_app (field rest : list byte) :
  length field = 12%nat -> field_value (field ++ rest) = field_value field.
Proof.
  intros H. unfold field_value.
  rewrite take_app_le by lia. reflexivity.
Qed.

Lemma parse_base256_impl_encode (v : Z) (rest : list byte) :
  INT64_MIN <= v <= INT64_MAX ->
  parse_base256_impl (encode_base256 v ++ rest) 12 = v.
Proof.
  intros Hv.
  rewrite (proj1 (parse_base256_impl_clamps _ rest (length_encode_base256 v))).
  rewrite field_value_app by apply length_encode_base256.
  rewrite field_value_encode_base256 by done. lia.
Qed.

(** C7.  For [v] in the range of [int64_t], the 12-byte big-endian two's
    complement of [v] with the high bit of the first byte set decodes to
    [v] through [parse_base256_impl], and a header carrying it in its size
    field gives [v] (as a [std::size_t]) through [parse_file_size_impl].
    For every 12-byte field the result is negative exactly when bit 0x40
    of the first byte is set; it is the value of the field when that value
    fits [int64_t], [INT64_MAX] when the value is above the range and
    [INT64_MIN] when it is below: the parser has no failure case. *)
Theorem base256_decoding (v : Z) (field : list byte) :
  INT64_MIN <= v <= INT64_MAX ->
  length field = 12%nat ->
  (length (encode_base256 v) = 12%nat
   /\ Z.land (at_ (encode_base256 v) 0) 0x80 <> 0
   /\ parse_base256_impl (encode_base256 v) 12 = v
   /\ forall pre post : list byte,
        length pre = TarHeader.offsetof_size ->
        parse_file_size_impl (pre ++ encode_base256 v ++ post) = wrap64 v)
  /\ (parse_base256_impl field 12 < 0 <-> sign_bit_set field = true)
  /\ (INT64_MIN <= field_value field <= INT64_MAX ->
      parse_base256_impl field 12 = field_value field)
  /\ (INT64_MAX < field_value field ->
      parse_base256_impl field 12 = INT64_MAX)
  /\ (field_value field < INT64_MIN ->
      parse_base256_impl field 12 = INT64_MIN).
Proof.
  intros Hv Hlen. split.
  - split; [apply length_encode_base256|].
    split; [apply encode_base256_marker|]. split.
    + rewrite <- (app_nil_r (encode_base256 v)).
      apply parse_base256_impl_encode, Hv.
    + intros pre post Hpre. unfold parse_file_size_impl, TarHeader.size.
      rewrite drop_app_length' by done.
      pose proof (encode_base256_marker v) as Hm.
      replace (at_ (encode_base256 v ++ post) 0)
        with (at_ (encode_base256 v) 0)
        by (rewrite encode_base256_cons; reflexivity).
      apply Z.eqb_neq in Hm. rewrite Hm. cbn [negb].
      change TarHeader.sizeof_size with 12%nat.
      rewrite parse_base256_impl_encode by done. reflexivity.
  - destruct (parse_base256_impl_clamps field [] Hlen) as [Hc Hs].
    rewrite app_nil_r in Hc, Hs.
    split; [done|]. rewrite Hc. unfold INT64_MIN, INT64_MAX in *.
    repeat split; lia.
Qed.

(** The integer of the specification, 8 GiB, and a field that denotes
    2^64, which is clamped. *)
Lemma base256_decoding_8GiB :
  parse_base256_impl (encode_base256 8589934592) 12 = 8589934592
  /\ field_value [x80; x00; x00; x01; x00; x00; x00; x00; x00; x00; x00; x00]
     = 2 ^ 64
  /\ parse_base256_impl
       [x80; x00; x00; x01; x00; x00; x00; x00; x00; x00; x00; x00] 12
     = INT64_MAX.
Proof.
  pose proof (base256_decoding 8589934592
                [x80; x00; x00; x01; x00; x00; x00; x00; x00; x00; x00; x00])
    as H.
  destruct H as [(_ & _ & Hrt & _) (_ & _ & Hmax & _)].
  - unfold INT64_MIN, INT64_MAX. lia.
  - reflexivity.
  - split; [exact Hrt|]. split; [reflexivity|].
    apply Hmax. vm_compute. reflexivity.
Defined.

(** * A closed decoder decodes as a new one

    [close] leaves [padding_bytes] as it was, but in the state it sets,
    [ReadHeader], that member is assigned before it is read: a closed
    decoder decodes as a new one does. *)

Lemma alike_close_new self : alike (close self) new_BaseTarFilterImpl.
Proof.
  unfold alike, close, new_BaseTarFilterImpl.
  cbn [state header_buffer header_bytes_read file_size_ file_bytes_read
       padding_bytes padding_bytes_skipped current_file_name].
  tauto.
Qed.

Lemma body_alike s s' src sb se db de :
  alike s s' ->
  match filter_body s src sb se db de, filter_body s' src sb se db de with
  | Break t sb1 db1 o1, Break t' sb2 db2 o2 =>
      sb1 = sb2 /\ db1 = db2 /\ o1 = o2 /\ alike t t'
  | Return b t sb1 db1 o1, Return b' t' sb2 db2 o2 =>
      b = b' /\ sb1 = sb2 /\ db1 = db2 /\ o1 = o2 /\ alike t t'
  | _, _ => False
  end.
Proof.
  destruct s as [hb hbr fs fbr pb pbs st name],
           s' as [hb' hbr' fs' fbr' pb' pbs' st' name'].
  unfold alike.
  cbn [state header_buffer header_bytes_read file_size_ file_bytes_read
       padding_bytes padding_bytes_skipped current_file_name].
  intros (<- & <- & <- & <- & <- & <- & <- & Hp).
  unfold filter_body. cbn [state]. destruct st.
  - unfold read_header, accumulate_header, header_to_copy, header_complete,
      set_state.
    cbn [state header_buffer header_bytes_read file_size_ file_bytes_read
         padding_bytes padding_bytes_skipped current_file_name].
    alike_cases.
  - destruct Hp as [<-|[Hp|Hp]]; try discriminate.
    unfold read_file_data.
    cbn [state header_buffer header_bytes_read file_size_ file_bytes_read
         padding_bytes padding_bytes_skipped current_file_name].
    alike_cases.
  - destruct Hp as [<-|[Hp|Hp]]; try discriminate.
    unfold skip_padding.
    cbn [state header_buffer header_bytes_read file_size_ file_bytes_read
         padding_bytes padding_bytes_skipped current_file_name].
    alike_cases.
  - alike_cases.
Qed.

Lemma filter_loop_alike fuel src se de s s' sb db out :
  alike s s' ->
  alike_results (filter_loop fuel src se de s sb db out)
    (filter_loop fuel src se de s' sb db out).
Proof.
  revert s s' sb db out.
  induction fuel as [|fuel IH]; intros s s' sb db out Ha.
  - simpl. destruct ((sb <? se) && (db <? de)); [exact I|].
    unfold alike_results. cbn [ret decoder src_begin' dest_begin' written].
    auto.
  - destruct ((sb <? se) && (db <? de)) eqn:G.
    + rewrite !filter_loop_pass by done.
      pose proof (body_alike s s' src sb se db de Ha) as Hb.
      destruct (filter_body s src sb se db de),
               (filter_body s' src sb se db de); try contradiction.
      * destruct Hb as (<- & <- & <- & Ha'). apply IH, Ha'.
      * destruct Hb as (<- & <- & <- & <- & Ha').
        unfold alike_results. cbn [ret decoder src_begin' dest_begin' written].
        auto.
    + rewrite !filter_loop_exit by done.
      unfold alike_results. cbn [ret decoder src_begin' dest_begin' written].
      auto.
Qed.

(** After [close], every call returns what it returns on a new decoder:
    same return value, same cursors, same bytes written, and decoders that
    are again alike. *)
Lemma close_decodes_as_new self src sb se db de :
  alike_results (filter (close self) src sb se db de)
    (filter new_BaseTarFilterImpl src sb se db de).
Proof. apply filter_loop_alike, alike_close_new. Qed.

(** * Calls that cannot enter the loop, and calls on a finished decoder *)

(** The sample decoders are states the decoder reaches. *)
Lemma finished_reached :
  filter new_BaseTarFilterImpl zero_block 0 512 0 1
  = Some (mkResult false finished 512 0 []).
Proof. vm_compute. reflexivity. Qed.

Lemma mid_padding_reached :
  filter new_BaseTarFilterImpl one_byte_archive 0 520 0 16
  = Some (mkResult true mid_padding 520 1 [x62]).
Proof. vm_compute. reflexivity. Qed.

(** C10.  Whatever the decoder state (the terminal state [Done] included),
    a call whose source range is empty ([src_begin = src_end]) or whose
    destination range is empty ([dest_begin = dest_end]) returns [true],
    leaves the decoder as it was, moves neither cursor and writes nothing:
    the loop test fails before the [switch] is reached. *)
Theorem filter_empty_range_noop self src src_begin src_end dest_begin dest_end :
  src_begin = src_end \/ dest_begin = dest_end ->
  filter self src src_begin src_end dest_begin dest_end
  = Some (mkResult true self src_begin dest_begin []).
Proof.
  intros H. apply filter_loop_exit. apply guard_false. lia.
Qed.

Lemma filter_empty_range_noop_finished :
  state finished = Done
  /\ filter finished hello_archive 7 7 0 16
     = Some (mkResult true finished 7 0 [])
  /\ filter mid_padding hello_archive 0 16 3 3
     = Some (mkResult true mid_padding 0 3 []).
Proof.
  split; [reflexivity|]. split.
  - apply (filter_empty_range_noop finished hello_archive 7 7 0 16).
    left. reflexivity.
  - apply (filter_empty_range_noop mid_padding hello_archive 0 16 3 3).
    right. reflexivity.
Defined.

(** C5, as stated, fails: the decoder that has read a zero block is in
    state [Done], and called with an empty source range it returns [true],
    not the stop signal. *)
Lemma finished_empty_source_returns_true :
  filter new_BaseTarFilterImpl zero_block 0 512 0 1
  = Some (mkResult false finished 512 0 [])
  /\ state finished = Done
  /\ filter finished [] 0 0 0 1 = Some (mkResult true finished 0 0 [])
  /\ filter finished [] 0 0 0 1 <> Some (mkResult false finished 0 0 []).
Proof.
  split; [vm_compute; reflexivity|].
  split; [reflexivity|]. split; [reflexivity | discriminate].
Qed.

(** C5, amended.  A call made in state [Done] with a non-empty source range
    and a non-empty destination range consumes nothing, writes nothing,
    leaves the decoder unchanged and returns [false]. *)
Theorem filter_done_stops self src src_begin src_end dest_begin dest_end :
  state self = Done ->
  src_begin < src_end -> dest_begin < dest_end ->
  filter self src src_begin src_end dest_begin dest_end
  = Some (mkResult false self src_begin dest_begin []).
Proof.
  intros Hst Hs Hd. unfold filter, filter_fuel.
  replace (6 * Z.to_nat (src_end - src_begin) + 6)%nat
    with (S (6 * Z.to_nat (src_end - src_begin) + 5)) by lia.
  rewrite filter_loop_pass by (apply guard_true; lia).
  unfold filter_body. rewrite Hst. reflexivity.
Qed.

Lemma filter_done_stops_finished :
  filter finished hello_archive 0 1536 0 64
  = Some (mkResult false finished 0 0 []).
Proof.
  apply (filter_done_stops finished hello_archive 0 1536 0 64);
    [reflexivity | lia | lia].
Defined.

(** * Cursors *)

(** C6.  For every decoder (its counters being [std::size_t] values) and
    every pair of ranges, the call returns, and afterwards the input cursor
    is at or after its old value and not beyond [src_end], the output cursor
    is at or after its old value and not beyond [dest_end], and the bytes
    written are no more than the output cursor moved, hence no more than
    the destination space supplied; when the source range lies inside the
    source memory the bytes written are exactly the bytes the output cursor
    moved over. *)
Theorem filter_cursor_bounds self src src_begin src_end dest_begin dest_end :
  size_t_fields self ->
  src_begin <= src_end -> dest_begin <= dest_end ->
  exists r,
    filter self src src_begin src_end dest_begin dest_end = Some r
    /\ src_begin <= src_begin' r <= src_end
    /\ dest_begin <= dest_begin' r <= dest_end
    /\ Z.of_nat (length (written r)) <= dest_begin' r - dest_begin
    /\ Z.of_nat (length (written r)) <= dest_end - dest_begin
    /\ (0 <= src_begin -> src_end <= Z.of_nat (length src) ->
        Z.of_nat (length (written r)) = dest_begin' r - dest_begin).
Proof.
  intros Hf Hs Hd.
  destruct (filter_terminates self src src_begin src_end dest_begin dest_end Hf)
    as [r Hr].
  exists r. split; [done|].
  pose proof (filter_loop_bounds _ _ _ _ _ _ _ _ _ Hs Hd Hr) as (H1 & H2 & H3).
  cbn [length] in H3. repeat split; try lia.
  intros H0 Hlen.
  pose proof (filter_loop_written_exact _ _ _ _ _ _ _ _ _ H0 Hs Hlen Hd Hr) as H4.
  cbn [length] in H4. lia.
Qed.

Lemma filter_cursor_bounds_hello :
  exists r,
    filter new_BaseTarFilterImpl hello_archive 0 1536 0 2 = Some r
    /\ 0 <= src_begin' r <= 1536
    /\ 0 <= dest_begin' r <= 2
    /\ Z.of_nat (length (written r)) <= dest_begin' r - 0
    /\ Z.of_nat (length (written r)) <= 2 - 0
    /\ (0 <= 0 -> 1536 <= Z.of_nat (length hello_archive) ->
        Z.of_nat (length (written r)) = dest_begin' r - 0).
Proof.
  apply (filter_cursor_bounds new_BaseTarFilterImpl hello_archive 0 1536 0 2).
  - constructor; unfold is_size_t; simpl; lia.
  - lia.
  - lia.
Defined.

(** * The end marker *)

(** C4.  In state [ReadHeader], at any pass of the loop, if the copy brings
    the header count to 512 and the 512 accumulated bytes are all zero,
    the pass sets the state to [Done] and returns [false] on the spot: the
    input cursor stands just after the bytes copied, nothing is written,
    and no second zero block is looked at.  The same holds for the call
    when this is its first pass. *)
Theorem zero_block_stops self src src_begin src_end dest_begin dest_end :
  state self = ReadHeader ->
  src_begin < src_end -> dest_begin < dest_end ->
  header_bytes_read (accumulate_header self src src_begin src_end) = 512 ->
  is_zero_block_impl
    (header_buffer (accumulate_header self src src_begin src_end)) = true ->
  let stop := set_state Done (accumulate_header self src src_begin src_end) in
  let src_begin' := src_begin + header_to_copy self src_begin src_end in
  state stop = Done
  /\ filter_body self src src_begin src_end dest_begin dest_end
     = Return false stop src_begin' dest_begin []
  /\ filter self src src_begin src_end dest_begin dest_end
     = Some (mkResult false stop src_begin' dest_begin []).
Proof.
  intros Hst Hs Hd Hcount Hzero stop sb'.
  assert (Hbody : filter_body self src src_begin src_end dest_begin dest_end
                  = Return false stop sb' dest_begin []).
  { unfold filter_body, read_header. rewrite Hst.
    cbn zeta. rewrite Hcount. cbn [Z.eqb Pos.eqb].
    unfold header_complete. rewrite Hzero. reflexivity. }
  split; [reflexivity|]. split; [done|].
  unfold filter, filter_fuel.
  replace (6 * Z.to_nat (src_end - src_begin) + 6)%nat
    with (S (6 * Z.to_nat (src_end - src_begin) + 5)) by lia.
  rewrite filter_loop_pass by (apply guard_true; lia).
  rewrite Hbody. reflexivity.
Qed.

(** One zero block given to a new decoder: the call stops after 512 bytes. *)
Lemma zero_block_stops_single_block :
  state (set_state Done
           (accumulate_header new_BaseTarFilterImpl zero_block 0 512)) = Done
  /\ filter_body new_BaseTarFilterImpl zero_block 0 512 0 1
     = Return false
         (set_state Done
            (accumulate_header new_BaseTarFilterImpl zero_block 0 512))
         (0 + header_to_copy new_BaseTarFilterImpl 0 512) 0 []
  /\ filter new_BaseTarFilterImpl zero_block 0 512 0 1
     = Some (mkResult false
               (set_state Done
                  (accumulate_header new_BaseTarFilterImpl zero_block 0 512))
               (0 + header_to_copy new_BaseTarFilterImpl 0 512) 0 []).
Proof.
  apply (zero_block_stops new_BaseTarFilterImpl zero_block 0 512 0 1).
  - reflexivity.
  - lia.
  - lia.
  - vm_compute. reflexivity.
  - vm_compute. reflexivity.
Defined.

(** * Padding *)

Lemma padding_for_eq (s : Z) : padding_for s = (512 - s mod 512) mod 512.
Proof.
  unfold padding_for. rewrite wrap64_small; [done|].
  pose proof (Z.mod_pos_bound s 512). lia.
Qed.

(** C8.  When a header is parsed (the accumulated block is not the end
    marker), the padding length stored is [(512 - s mod 512) mod 512] for
    the declared size [s] the size field decodes to, and lies in [0, 511];
    the formula gives 0, 511, 1, 0, 511, 0 for s = 0, 1, 511, 512, 513,
    1024.  The [std::size_t] arithmetic of line 209 never wraps. *)
Theorem padding_length self src_begin dest_begin :
  is_zero_block_impl (header_buffer self) = false ->
  let s := parse_file_size_impl (header_buffer self) in
  let self' := o_self (header_complete self src_begin dest_begin) in
  padding_bytes self' = (512 - s mod 512) mod 512
  /\ 0 <= padding_bytes self' <= 511
  /\ (forall size : Z, padding_for size = (512 - size mod 512) mod 512
                       /\ 0 <= padding_for size <= 511)
  /\ map padding_for [0; 1; 511; 512; 513; 1024] = [0; 511; 1; 0; 511; 0].
Proof.
  intros Hz s self'. subst self'. unfold header_complete. rewrite Hz.
  cbn [o_self padding_bytes]. fold s.
  pose proof (padding_for_range s).
  split; [apply padding_for_eq|]. split; [lia|]. split; [|reflexivity].
  intros size. pose proof (padding_for_range size).
  split; [apply padding_for_eq | lia].
Qed.

Lemma padding_length_one_byte_entry :
  let self := accumulate_header new_BaseTarFilterImpl one_byte_archive 0 512 in
  let s := parse_file_size_impl (header_buffer self) in
  let self' := o_self (header_complete self 512 0) in
  s = 1
  /\ padding_bytes self' = (512 - s mod 512) mod 512
  /\ 0 <= padding_bytes self' <= 511
  /\ (forall size : Z, padding_for size = (512 - size mod 512) mod 512
                       /\ 0 <= padding_for size <= 511)
  /\ map padding_for [0; 1; 511; 512; 513; 1024] = [0; 511; 1; 0; 511; 0].
Proof.
  split; [vm_compute; reflexivity|].
  apply (padding_length
           (accumulate_header new_BaseTarFilterImpl one_byte_archive 0 512)
           512 0).
  vm_compute. reflexivity.
Defined.

(** * [close] *)

(** C3: [close] misses one member.  A new decoder fed the header of a
    one-byte entry, its byte and seven bytes of its padding stands in
    [SkipPadding] with [padding_bytes = 511]; after [close] that member is
    still 511, where a newly constructed decoder has 0, so the closed
    decoder is not equal to a new one.  The seven members [close] assigns
    do equal those of a new decoder. *)
Theorem close_keeps_padding_bytes :
  exists r,
    filter new_BaseTarFilterImpl one_byte_archive 0 520 0 16 = Some r
    /\ state (decoder r) = SkipPadding
    /\ padding_bytes (close (decoder r)) = 511
    /\ padding_bytes new_BaseTarFilterImpl = 0
    /\ close (decoder r) <> new_BaseTarFilterImpl
    /\ close (decoder r)
       = {| header_buffer := header_buffer new_BaseTarFilterImpl;
            header_bytes_read := header_bytes_read new_BaseTarFilterImpl;
            file_size_ := file_size_ new_BaseTarFilterImpl;
            file_bytes_read := file_bytes_read new_BaseTarFilterImpl;
            padding_bytes := 511;
            padding_bytes_skipped := padding_bytes_skipped new_BaseTarFilterImpl;
            state := state new_BaseTarFilterImpl;
            current_file_name := current_file_name new_BaseTarFilterImpl |}.
Proof.
  eexists. split; [vm_compute; reflexivity|].
  cbn [decoder]. repeat split; try reflexivity.
  unfold close, new_BaseTarFilterImpl. cbn. intros [=].
Qed.

(** * Entries that are not regular files *)

(** What the code does with such an entry, whatever the header: the state
    becomes [SkipPadding] with [file_size_] forced to 0, so the bytes
    skipped before the next header are the padding length alone. *)
Lemma non_regular_entry_skips_padding_only self src_begin dest_begin :
  is_zero_block_impl (header_buffer self) = false ->
  is_regular_file (header_buffer self) = false ->
  header_complete self src_begin dest_begin
  = Break
      {| header_buffer := header_buffer self;
         header_bytes_read := 0;
         file_size_ := 0;
         file_bytes_read := 0;
         padding_bytes := padding_for (parse_file_size_impl (header_buffer self));
         padding_bytes_skipped := 0;
         state := SkipPadding;
         current_file_name := extract_file_name_impl (header_buffer self) |}
      src_begin dest_begin [].
Proof.
  intros Hz Hr. unfold header_complete. rewrite Hz, Hr. reflexivity.
Qed.

(** C1: the payload of a non-regular entry is not consumed.  The archive
    holds a pax extended header (type flag 'x') declaring 100 payload
    bytes, its payload block, the regular file "hello.txt" ("hi\n") and two
    zero blocks, so the header of "hello.txt" is the block at 1024.  After
    the first header the decoder skips 412 bytes only: offered the bytes up
    to 924 it is back in [ReadHeader] with an empty header count, offered
    the bytes up to 1024 it has already taken the last 100 bytes of the
    payload block as the start of a header, and the whole archive decodes
    to nothing and stops inside the fifth block, at 2460. *)
Theorem non_regular_payload_not_skipped :
  (exists r,
      filter new_BaseTarFilterImpl pax_archive 0 924 0 16 = Some r
      /\ src_begin' r = 924 /\ written r = []
      /\ state (decoder r) = ReadHeader
      /\ header_bytes_read (decoder r) = 0
      /\ padding_bytes_skipped (decoder r) = 412
      /\ padding_bytes (decoder r) = 412)
  /\ (exists r,
      filter new_BaseTarFilterImpl pax_archive 0 1024 0 16 = Some r
      /\ src_begin' r = 1024 /\ written r = []
      /\ state (decoder r) = ReadHeader
      /\ header_bytes_read (decoder r) = 100)
  /\ stopped (decode pax_archive [(3072%nat, 16%nat)]) = true
  /\ consumed (decode pax_archive [(3072%nat, 16%nat)]) = 2460
  /\ output (decode pax_archive [(3072%nat, 16%nat)]) = []
  /\ output (decode (drop 1024 pax_archive) [(2048%nat, 16%nat)])
     = hello_content.
Proof.
  split; [eexists; split; [vm_compute; reflexivity|]; cbn; tauto|].
  split; [eexists; split; [vm_compute; reflexivity|]; cbn; tauto|].
  vm_compute. tauto.
Qed.

(** * Chunking: one long call against one-byte calls *)

Lemma new_consistent : consistent new_BaseTarFilterImpl.
Proof.
  constructor; [constructor; unfold is_size_t; simpl; lia | right; simpl; lia
               | discriminate | left; reflexivity].
Qed.

Lemma body_consistent self src sb se db de :
  consistent self -> sb < se -> db < de ->
  consistent (o_self (filter_body self src sb se db de)).
Proof.
  intros [Hf Hh Hd Hp] Hs Hdd.
  constructor; [apply body_size_t, Hf| | |];
    destruct Hf as [H1 H2 H3 H4 H5];
    pose proof (padding_for_range
                  (parse_file_size_impl
                     (header_buffer (accumulate_header self src sb se))));
    pose proof (parse_file_size_impl_size_t
                  (header_buffer (accumulate_header self src sb se)));
    unfold filter_body; destruct (state self) eqn:Est;
    try (destruct Hh as [Hh|Hh]; [discriminate|]);
    try (destruct Hp as [Hp|[Hp|Hp]]; [discriminate..|]);
    try specialize (Hd eq_refl).
  all: unfold read_header, header_complete, read_file_data, skip_padding;
    cbn [o_self].
  all: repeat match goal with
         | |- context [if ?b then _ else _] => destruct b eqn:?
         end;
    cbn [o_self state header_bytes_read file_size_ file_bytes_read
         padding_bytes padding_bytes_skipped set_state accumulate_header] in *;
    try rewrite Est in *.
  all: try (left; reflexivity).
  all: try (right; left; reflexivity).
  all: try (intros Habs; discriminate Habs).
  all: try (intros _).
  all: eqb_to_prop; unfold header_to_copy in *.
  all: try (right; right; wrap_lia).
  all: try (right; wrap_lia).
  all: try wrap_lia.
Qed.

Lemma bytes_at_split (src : list byte) (p n : Z) :
  0 <= p -> 1 <= n ->
  bytes_at src p n = bytes_at src p 1 ++ bytes_at src (p + 1) (n - 1).
Proof.
  intros Hp Hn. unfold bytes_at.
  replace (Z.to_nat n) with (Z.to_nat 1 + Z.to_nat (n - 1))%nat by lia.
  replace (Z.to_nat (p + 1)) with (Z.to_nat p + Z.to_nat 1)%nat by lia.
  rewrite <- drop_drop. symmetry. apply take_take_drop.
Qed.

Lemma length_bytes_at_1 (src : list byte) (p : Z) :
  0 <= p < Z.of_nat (length src) -> length (bytes_at src p 1) = 1%nat.
Proof.
  intros Hp. pose proof (length_bytes_at_inside src p 1). lia.
Qed.

Lemma skip_padding_split self sb se db :
  consistent self -> state self = SkipPadding -> sb < se ->
  skip_padding self sb se db = skip_padding self sb (sb + 1) db
  \/ exists s1,
       skip_padding self sb (sb + 1) db = Break s1 (sb + 1) db []
       /\ sb + 1 < se /\ state s1 = SkipPadding
       /\ skip_padding self sb se db = skip_padding s1 (sb + 1) se db.
Proof.
  intros [[H1 H2 H3 H4 H5] Hh Hd Hp] Est Hs.
  destruct Hp as [Hp|[Hp|Hp]]; [congruence..|].
  set (R := padding_bytes self - padding_bytes_skipped self).
  assert (ER : wrap64 (padding_bytes self - padding_bytes_skipped self) = R)
    by (apply wrap64_sub_le; done).
  destruct (Z.le_gt_cases (Z.min R (se - sb)) 1) as [Hle|Hgt].
  - left. unfold skip_padding. rewrite ER.
    replace (sb + 1 - sb) with 1 by lia.
    replace (Z.min R (se - sb)) with (Z.min R 1) by lia. reflexivity.
  - right. eexists. split; [|split; [lia|]].
    + unfold skip_padding. rewrite ER.
      replace (sb + 1 - sb) with 1 by lia.
      replace (Z.min R 1) with 1 by lia. reflexivity.
    + cbn [state padding_bytes_skipped padding_bytes]. rewrite Est.
      assert (E1 : wrap64 (padding_bytes_skipped self + 1)
                   = padding_bytes_skipped self + 1) by wrap_lia.
      rewrite E1.
      destruct (Z.eqb_spec (padding_bytes_skipped self + 1) (padding_bytes self));
        [lia|].
      split; [reflexivity|].
      unfold skip_padding.
      cbn [state padding_bytes_skipped padding_bytes header_buffer
           header_bytes_read file_size_ file_bytes_read current_file_name].
      rewrite ER, Est.
      replace (wrap64 (padding_bytes self - (padding_bytes_skipped self + 1)))
        with (R - 1) by wrap_lia.
      replace (Z.min (R - 1) (se - (sb + 1))) with (Z.min R (se - sb) - 1)
        by lia.
      replace (padding_bytes_skipped self + 1 + (Z.min R (se - sb) - 1))
        with (padding_bytes_skipped self + Z.min R (se - sb)) by lia.
      replace (sb + 1 + (Z.min R (se - sb) - 1)) with (sb + Z.min R (se - sb))
        by lia.
      reflexivity.
Qed.

Lemma read_file_data_split self src sb se db de :
  consistent self -> state self = ReadFileData ->
  0 <= sb -> sb < se -> db < de ->
  read_file_data self src sb se db de
  = read_file_data self src sb (sb + 1) db (db + 1)
  \/ exists s1,
       read_file_data self src sb (sb + 1) db (db + 1)
       = Break s1 (sb + 1) (db + 1) (bytes_at src sb 1)
       /\ sb + 1 < se /\ db + 1 < de /\ state s1 = ReadFileData
       /\ read_file_data self src sb se db de
          = prepend (bytes_at src sb 1)
              (read_file_data s1 src (sb + 1) se (db + 1) de).
Proof.
  intros [[H1 H2 H3 H4 H5] Hh Hd Hp] Est H0 Hs Hdd.
  specialize (Hd Est).
  set (R := file_size_ self - file_bytes_read self).
  assert (ER : wrap64 (file_size_ self - file_bytes_read self) = R)
    by (apply wrap64_sub_le; done).
  set (t := Z.min R (Z.min (se - sb) (de - db))).
  destruct (Z.le_gt_cases t 1) as [Hle|Hgt].
  - left. unfold read_file_data. rewrite ER. fold t.
    replace (sb + 1 - sb) with 1 by lia. replace (db + 1 - db) with 1 by lia.
    replace (Z.min R (Z.min 1 1)) with t by lia. reflexivity.
  - right. eexists. split; [|split; [lia|split; [lia|]]].
    + unfold read_file_data. rewrite ER.
      replace (sb + 1 - sb) with 1 by lia. replace (db + 1 - db) with 1 by lia.
      replace (Z.min R (Z.min 1 1)) with 1 by lia. reflexivity.
    + cbn [state file_bytes_read file_size_]. rewrite Est.
      assert (E1 : wrap64 (file_bytes_read self + 1)
                   = file_bytes_read self + 1) by wrap_lia.
      rewrite E1.
      destruct (Z.eqb_spec (file_bytes_read self + 1) (file_size_ self));
        [lia|].
      split; [reflexivity|].
      unfold read_file_data.
      cbn [state padding_bytes_skipped padding_bytes header_buffer
           header_bytes_read file_size_ file_bytes_read current_file_name
           prepend].
      rewrite ER, Est. fold t.
      replace (wrap64 (file_size_ self - (file_bytes_read self + 1)))
        with (R - 1) by wrap_lia.
      replace (Z.min (R - 1) (Z.min (se - (sb + 1)) (de - (db + 1))))
        with (t - 1) by lia.
      replace (file_bytes_read self + 1 + (t - 1))
        with (file_bytes_read self + t) by lia.
      replace (sb + 1 + (t - 1)) with (sb + t) by lia.
      replace (db + 1 + (t - 1)) with (db + t) by lia.
      rewrite <- bytes_at_split by lia.
      reflexivity.
Qed.

Lemma resized_length (buf : list byte) :
  512 <= Z.of_nat (length (if Z.of_nat (length buf) <? 512
                           then resize 512 x00 buf else buf)).
Proof.
  destruct (Z.ltb_spec (Z.of_nat (length buf)) 512); [|done].
  rewrite length_resize. lia.
Qed.

Lemma read_header_split self src sb se db :
  consistent self -> state self = ReadHeader ->
  0 <= sb -> sb < se -> se <= Z.of_nat (length src) ->
  read_header self src sb se db = read_header self src sb (sb + 1) db
  \/ exists s1,
       read_header self src sb (sb + 1) db = Break s1 (sb + 1) db []
       /\ sb + 1 < se /\ state s1 = ReadHeader
       /\ read_header self src sb se db = read_header s1 src (sb + 1) se db.
Proof.
  intros [[H1 H2 H3 H4 H5] Hh Hd Hp] Est H0 Hs Hlen.
  destruct Hh as [Hh|Hh]; [congruence|].
  set (N := 512 - header_bytes_read self).
  assert (EN : wrap64 (512 - header_bytes_read self) = N) by wrap_lia.
  destruct (Z.le_gt_cases (Z.min N (se - sb)) 1) as [Hle|Hgt].
  - left. unfold read_header, accumulate_header, header_to_copy. rewrite EN.
    replace (sb + 1 - sb) with 1 by lia.
    replace (Z.min N (se - sb)) with (Z.min N 1) by wrap_lia. reflexivity.
  - right.
    assert (T1 : header_to_copy self sb (sb + 1) = 1).
    { unfold header_to_copy. rewrite EN. lia. }
    assert (E1 : wrap64 (header_bytes_read self + 1)
                 = header_bytes_read self + 1) by wrap_lia.
    exists (accumulate_header self src sb (sb + 1)).
    split; [|split; [lia|split; [exact Est|]]].
    + unfold read_header. rewrite T1.
      unfold accumulate_header at 1. cbn [header_bytes_read]. rewrite T1, E1.
      destruct (Z.eqb_spec (header_bytes_read self + 1) 512); [lia|].
      reflexivity.
    + assert (T2 : header_to_copy (accumulate_header self src sb (sb + 1))
                     (sb + 1) se
                   = header_to_copy self sb se - 1).
      { unfold header_to_copy, accumulate_header at 1.
        cbn [header_bytes_read]. fold (header_to_copy self sb (sb + 1)).
        rewrite T1, E1, EN.
        replace (wrap64 (512 - (header_bytes_read self + 1))) with (N - 1)
          by wrap_lia.
        lia. }
      set (buf0 := if Z.of_nat (length (header_buffer self)) <? 512
                   then resize 512 x00 (header_buffer self)
                   else header_buffer self).
      pose proof (resized_length (header_buffer self)) as Hb0. fold buf0 in Hb0.
      assert (B1 : header_buffer (accumulate_header self src sb (sb + 1))
                   = list_inserts (Z.to_nat (header_bytes_read self))
                       (bytes_at src sb 1) buf0).
      { unfold accumulate_header. cbn [header_buffer]. rewrite T1.
        reflexivity. }
      assert (C1 : header_bytes_read (accumulate_header self src sb (sb + 1))
                   = header_bytes_read self + 1).
      { unfold accumulate_header. cbn [header_bytes_read]. rewrite T1.
        exact E1. }
      assert (Hto : 1 <= header_to_copy self sb se)
        by (unfold header_to_copy; rewrite EN; lia).
      assert (EA : accumulate_header (accumulate_header self src sb (sb + 1))
                     src (sb + 1) se
                   = accumulate_header self src sb se).
      { unfold accumulate_header at 1. rewrite T2, B1, C1.
        rewrite length_inserts.
        destruct (Z.ltb_spec (Z.of_nat (length buf0)) 512) as [?|_]; [lia|].
        unfold accumulate_header. fold buf0.
        cbn [file_size_ file_bytes_read padding_bytes padding_bytes_skipped
             state current_file_name].
        f_equal.
        - rewrite (bytes_at_split src sb (header_to_copy self sb se)) by lia.
          rewrite list_inserts_app_l, length_bytes_at_1 by lia.
          replace (Z.to_nat (header_bytes_read self + 1))
            with (1 + Z.to_nat (header_bytes_read self))%nat
            by (unfold is_size_t in H1; lia).
          reflexivity.
        - f_equal. lia. }
      unfold read_header. rewrite EA, T2. cbn zeta.
      replace (sb + 1 + (header_to_copy self sb se - 1))
        with (sb + header_to_copy self sb se) by lia.
      reflexivity.
Qed.

(** A pass over a long window is the pass over its first byte, possibly
    followed by a pass, in the same state, over the rest. *)
Lemma body_split self src sb se db de :
  consistent self ->
  0 <= sb -> sb < se -> se <= Z.of_nat (length src) -> db < de ->
  filter_body self src sb se db de
  = filter_body self src sb (sb + 1) db (db + 1)
  \/ exists s1 db1 out1,
       filter_body self src sb (sb + 1) db (db + 1)
       = Break s1 (sb + 1) db1 out1
       /\ sb + 1 < se /\ db1 < de
       /\ filter_body self src sb se db de
          = prepend out1 (filter_body s1 src (sb + 1) se db1 de).
Proof.
  intros Hc H0 Hs Hlen Hd. unfold filter_body.
  destruct (state self) eqn:Est.
  - destruct (read_header_split self src sb se db Hc Est H0 Hs Hlen)
      as [E|(s1 & E1 & Hlt & Est1 & E)]; [left; done|].
    right. exists s1, db, []. rewrite Est1.
    split; [done|]. split; [done|]. split; [done|]. rewrite E.
    destruct (read_header s1 src (sb + 1) se db); reflexivity.
  - destruct (read_file_data_split self src sb se db de Hc Est H0 Hs Hd)
      as [E|(s1 & E1 & Hlt & Hlt' & Est1 & E)]; [left; done|].
    right. exists s1, (db + 1), (bytes_at src sb 1). rewrite Est1.
    split; [done|]. split; [done|]. split; done.
  - destruct (skip_padding_split self sb se db Hc Est Hs)
      as [E|(s1 & E1 & Hlt & Est1 & E)]; [left; done|].
    right. exists s1, db, []. rewrite Est1.
    split; [done|]. split; [done|]. split; [done|]. rewrite E.
    destruct (skip_padding s1 (sb + 1) se db); reflexivity.
  - left. reflexivity.
Qed.

Lemma body_dest_le_src self src sb se db de :
  sb < se -> db < de ->
  o_dest (filter_body self src sb se db de) - db
  <= o_src (filter_body self src sb se db de) - sb.
Proof.
  intros Hs Hd.
  pose proof (wrap64_range (512 - header_bytes_read self)).
  pose proof (wrap64_range (file_size_ self - file_bytes_read self)).
  pose proof (wrap64_range (padding_bytes self - padding_bytes_skipped self)).
  body_cases self; lia.
Qed.

(** The bytes written before a run of the loop stay in front of its own. *)
Lemma filter_loop_acc fuel src se de self sb db pre acc r :
  filter_loop fuel src se de self sb db acc = Some r ->
  filter_loop fuel src se de self sb db (pre ++ acc)
  = Some (mkResult (ret r) (decoder r) (src_begin' r) (dest_begin' r)
            (pre ++ written r)).
Proof.
  revert self sb db acc r.
  induction fuel as [|fuel IH]; intros self sb db acc r H.
  - destruct ((sb <? se) && (db <? de)) eqn:G.
    + simpl in H. rewrite G in H. discriminate.
    + rewrite filter_loop_exit in * by done. injection H as <-. reflexivity.
  - destruct ((sb <? se) && (db <? de)) eqn:G.
    + rewrite filter_loop_pass in * by done.
      destruct (filter_body self src sb se db de) as [s' sb' db' o|b s' sb' db' o].
      * rewrite <- app_assoc. apply IH, H.
      * injection H as <-. cbn. rewrite app_assoc. reflexivity.
    + rewrite filter_loop_exit in * by done. injection H as <-. reflexivity.
Qed.

Lemma filter_loop_consistent fuel src se de self sb db out r :
  consistent self ->
  filter_loop fuel src se de self sb db out = Some r ->
  consistent (decoder r).
Proof.
  revert self sb db out.
  induction fuel as [|fuel IH]; intros self sb db out Hc H.
  - destruct ((sb <? se) && (db <? de)) eqn:G.
    + simpl in H. rewrite G in H. discriminate.
    + rewrite filter_loop_exit in H by done. injection H as <-. done.
  - destruct ((sb <? se) && (db <? de)) eqn:G.
    + rewrite filter_loop_pass in H by done. apply guard_true in G as [Gs Gd].
      pose proof (body_consistent self src sb se db de Hc Gs Gd) as Hc'.
      destruct (filter_body self src sb se db de) as [s' sb' db' o|b s' sb' db' o];
        cbn [o_self] in Hc'.
      * eauto.
      * injection H as <-. done.
    + rewrite filter_loop_exit in H by done. injection H as <-. done.
Qed.

(** A run of the loop over a long window is a run over its first byte
    (with room for one byte), followed, unless that one returned [false],
    by a run over the rest. *)
Lemma loop_split fuel src se de self sb db out r :
  consistent self ->
  0 <= sb -> sb < se -> se <= Z.of_nat (length src) -> db < de ->
  filter_loop fuel src se de self sb db out = Some r ->
  exists r1,
    returns src (sb + 1) (db + 1) self sb db out r1
    /\ if ret r1
       then src_begin' r1 = sb + 1
            /\ returns src se de (decoder r1) (sb + 1) (dest_begin' r1)
                 (written r1) r
       else r = r1.
Proof.
  revert self out.
  induction fuel as [|fuel IH]; intros self out Hc H0 Hs Hlen Hd H.
  { simpl in H. rewrite (proj2 (guard_true sb se db de)) in H by lia.
    discriminate. }
  rewrite filter_loop_pass in H by (apply guard_true; lia).
  assert (G1 : (sb <? sb + 1) && (db <? db + 1) = true)
    by (apply guard_true; lia).
  pose proof (body_bounds self src sb (sb + 1) db (db + 1)
                ltac:(lia) ltac:(lia)) as Hb.
  pose proof (body_dest_le_src self src sb (sb + 1) db (db + 1)
                ltac:(lia) ltac:(lia)) as Hl.
  pose proof (body_return self src sb (sb + 1) db (db + 1)) as Hr.
  pose proof (body_consistent self src sb (sb + 1) db (db + 1) Hc
                ltac:(lia) ltac:(lia)) as Hc1.
  cbn zeta in Hb.
  destruct (body_split self src sb se db de Hc H0 Hs Hlen Hd)
    as [E|(s1 & db1 & out1 & E1 & Hlt & Hlt' & E)].
  - rewrite E in H.
    destruct (filter_body self src sb (sb + 1) db (db + 1))
      as [s' sb' db' o|b s' sb' db' o] eqn:Eb; cbn in Hb, Hl, Hr, Hc1.
    + destruct (Z.eq_dec sb' sb) as [->|Hne].
      * (* a pass that consumed nothing *)
        assert (db' = db) as -> by lia.
        destruct (IH s' (out ++ o) Hc1 H0 Hs Hlen Hd H) as (r1 & [f1 Hr1] & Hk).
        exists r1. split; [|exact Hk].
        exists (S f1). rewrite filter_loop_pass, Eb by done. exact Hr1.
      * (* a pass that consumed the byte *)
        assert (sb' = sb + 1) as -> by lia.
        exists (mkResult true s' (sb + 1) db' (out ++ o)). split.
        -- exists 1%nat. rewrite filter_loop_pass, Eb by done.
           apply filter_loop_exit. apply guard_false. lia.
        -- cbn. split; [done|]. exists fuel. exact H.
    + injection H as <-. destruct (Hr b eq_refl) as (-> & _).
      exists (mkResult false s' sb' db' (out ++ o)). split; [|reflexivity].
      exists 1%nat. rewrite filter_loop_pass, Eb by done. reflexivity.
  - rewrite E in H. rewrite E1 in Hb, Hl, Hr, Hc1. cbn in Hb, Hl, Hc1.
    exists (mkResult true s1 (sb + 1) db1 (out ++ out1)). split.
    + exists 1%nat. rewrite filter_loop_pass, E1 by done.
      apply filter_loop_exit. apply guard_false. lia.
    + cbn. split; [done|]. exists (S fuel).
      rewrite filter_loop_pass by (apply guard_true; lia).
      destruct (filter_body s1 src (sb + 1) se db1 de)
        as [s' sb' db' o|b s' sb' db' o]; cbn [prepend] in H;
        rewrite app_assoc in H; exact H.
Qed.

Lemma returns_filter self src sb se db de out r :
  size_t_fields self ->
  returns src se de self sb db out r ->
  exists r0,
    filter self src sb se db de = Some r0
    /\ r = mkResult (ret r0) (decoder r0) (src_begin' r0) (dest_begin' r0)
             (out ++ written r0).
Proof.
  intros Hf [fuel H].
  destruct (filter_terminates self src sb se db de Hf) as [r0 H0].
  exists r0. split; [done|].
  unfold filter in H0. apply (filter_loop_acc _ _ _ _ _ _ _ out) in H0.
  rewrite app_nil_r in H0.
  destruct (Nat.le_ge_cases fuel (filter_fuel sb se)) as [Hle|Hle].
  - rewrite (filter_loop_more_fuel _ _ _ _ _ _ _ _ _ _ H Hle) in H0. congruence.
  - rewrite (filter_loop_more_fuel _ _ _ _ _ _ _ _ _ _ H0 Hle) in H. congruence.
Qed.

Lemma filter_returns self src sb se db de out r0 :
  filter self src sb se db de = Some r0 ->
  returns src se de self sb db out
    (mkResult (ret r0) (decoder r0) (src_begin' r0) (dest_begin' r0)
       (out ++ written r0)).
Proof.
  intros H. exists (filter_fuel sb se).
  apply (filter_loop_acc _ _ _ _ _ _ _ out) in H.
  rewrite app_nil_r in H. exact H.
Qed.

Lemma header_complete_rebase self ds dd sb db :
  header_complete self (ds + sb) (dd + db)
  = rebase_outcome ds dd (header_complete self sb db).
Proof.
  unfold header_complete.
  destruct (is_zero_block_impl (header_buffer self)); reflexivity.
Qed.

Section OneArchive.

Variable archive : list byte.

(** One call of the one-byte driver. *)
Lemma drive_bytewise_call n self pos out r1 :
  consistent self ->
  0 <= pos < Z.of_nat (length archive) ->
  returns archive (pos + 1) (Z.of_nat (length out) + 1) self pos
    (Z.of_nat (length out)) out r1 ->
  drive_mem archive (bytewise (S n)) self pos out
  = if ret r1
    then drive_mem archive (bytewise n) (decoder r1) (src_begin' r1) (written r1)
    else mkRun true (decoder r1) (src_begin' r1) (written r1).
Proof.
  intros Hc Hpos Hr.
  destruct (returns_filter _ _ _ _ _ _ _ _ (cons_fields _ Hc) Hr)
    as (r0 & H0 & ->).
  cbn [bytewise replicate drive_mem].
  replace (Z.min (pos + Z.of_nat 1) (Z.of_nat (length archive)))
    with (pos + 1) by lia.
  change (Z.of_nat 1) with 1. rewrite H0. cbn [ret decoder src_begin' written].
  reflexivity.
Qed.

(** A call over any window is matched, call for call, by the one-byte
    driver: it reaches the same decoder, cursor and output, and stops when
    the call returns [false]. *)
Lemma bytewise_simulates de (n : nat) :
  forall self pos out r,
    consistent self ->
    0 <= pos ->
    forall se,
      pos <= se -> se <= Z.of_nat (length archive) ->
      Z.of_nat (length out) <= de ->
      (Z.to_nat (se - pos) <= n)%nat ->
      returns archive se de self pos (Z.of_nat (length out)) out r ->
      forall m,
        if ret r
        then drive_mem archive (bytewise (Z.to_nat (src_begin' r - pos) + m))
               self pos out
             = drive_mem archive (bytewise m) (decoder r) (src_begin' r)
                 (written r)
        else drive_mem archive (bytewise (S (Z.to_nat (src_begin' r - pos) + m)))
               self pos out
             = mkRun true (decoder r) (src_begin' r) (written r).
Proof.
  induction n as [|n IH]; intros self pos out r Hc H0 se Hs Hlen Hd Hn Hr m.
  - (* the window is empty *)
    destruct Hr as [fuel Hr].
    rewrite filter_loop_exit in Hr by (apply guard_false; lia).
    injection Hr as <-. cbn [ret src_begin' decoder written].
    replace (Z.to_nat (pos - pos)) with 0%nat by lia. reflexivity.
  - destruct ((pos <? se) && (Z.of_nat (length out) <? de)) eqn:G.
    + apply guard_true in G as [Gs Gd]. destruct Hr as [fuel Hr].
      pose proof (filter_loop_bounds _ _ _ _ _ _ _ _ _ Hs Hd Hr)
        as (Hb1 & Hb2 & _).
      destruct (loop_split _ _ _ _ _ _ _ _ _ Hc H0 Gs Hlen Gd Hr)
        as (r1 & Hr1 & Hk).
      pose proof Hr1 as [f1 Hf1].
      pose proof (filter_loop_bounds f1 archive (pos + 1)
                    (Z.of_nat (length out) + 1) self pos
                    (Z.of_nat (length out)) out r1
                    ltac:(lia) ltac:(lia) Hf1) as (Hc1 & Hc2 & _).
      pose proof (filter_loop_written_exact f1 archive (pos + 1)
                    (Z.of_nat (length out) + 1) self pos
                    (Z.of_nat (length out)) out r1
                    H0 ltac:(lia) ltac:(lia) ltac:(lia) Hf1) as Hw.
      pose proof (filter_loop_consistent _ _ _ _ _ _ _ _ _ Hc Hf1) as Hcons.
      destruct (ret r1) eqn:Eret.
      * destruct Hk as [Hsb [f2 Hf2]].
        assert (Hdb : dest_begin' r1 = Z.of_nat (length (written r1))) by lia.
        rewrite Hdb in Hf2.
        pose proof (filter_loop_bounds f2 archive se de (decoder r1)
                      (pos + 1) (Z.of_nat (length (written r1)))
                      (written r1) r
                      ltac:(lia) ltac:(lia) Hf2) as (Hd1 & _).
        assert (Hr2 : returns archive se de (decoder r1) (pos + 1)
                        (Z.of_nat (length (written r1))) (written r1) r)
          by (exists f2; exact Hf2).
        specialize (IH (decoder r1) (pos + 1) (written r1) r Hcons
                      ltac:(lia) se ltac:(lia) Hlen ltac:(lia) ltac:(lia)
                      Hr2 m).
        replace (Z.to_nat (src_begin' r - pos))
          with (S (Z.to_nat (src_begin' r - (pos + 1)))) by lia.
        destruct (ret r).
        -- cbn [Nat.add].
           rewrite (drive_bytewise_call _ self pos out r1 Hc
                      ltac:(lia) Hr1).
           rewrite Eret, Hsb. exact IH.
        -- rewrite (drive_bytewise_call _ self pos out r1 Hc
                      ltac:(lia) Hr1).
           rewrite Eret, Hsb. exact IH.
      * subst r1. rewrite Eret.
        rewrite (drive_bytewise_call _ self pos out r Hc
                   ltac:(lia) Hr1).
        rewrite Eret. reflexivity.
    + destruct Hr as [fuel Hr]. rewrite filter_loop_exit in Hr by done.
      injection Hr as <-. cbn [ret src_begin' decoder written].
      replace (Z.to_nat (pos - pos)) with 0%nat by lia. reflexivity.
Qed.

(** Whatever schedule reaches the stop signal, the one-byte driver reaches
    it too, with the same decoder, the same input consumed and the same
    output. *)
Lemma drive_stopped_bytewise schedule :
  forall self pos out,
    consistent self ->
    0 <= pos <= Z.of_nat (length archive) ->
    stopped (drive_mem archive schedule self pos out) = true ->
    forall n,
      (Z.to_nat (Z.of_nat (length archive) - pos) + 1 <= n)%nat ->
      drive_mem archive (bytewise n) self pos out
      = drive_mem archive schedule self pos out.
Proof.
  induction schedule as [|[n_in n_out] schedule IH];
    intros self pos out Hc Hpos Hstop n Hn.
  { discriminate. }
  cbn [drive_mem] in *.
  set (se := Z.min (pos + Z.of_nat n_in) (Z.of_nat (length archive))) in *.
  set (db := Z.of_nat (length out)) in *.
  set (de := db + Z.of_nat n_out) in *.
  destruct (filter self archive pos se db de) as [r0|] eqn:E; [|discriminate].
  pose proof (filter_returns _ _ _ _ _ _ out _ E) as Hr.
  set (r := mkResult (ret r0) (decoder r0) (src_begin' r0) (dest_begin' r0)
              (out ++ written r0)) in *.
  pose proof (filter_loop_bounds _ archive se de self pos db [] r0
                ltac:(lia) ltac:(lia) E) as (Hb & _).
  pose proof (filter_loop_consistent _ _ _ _ _ _ _ _ _ Hc E) as Hcons.
  pose proof (bytewise_simulates de
                (Z.to_nat (se - pos)) self pos out r Hc ltac:(lia) se
                ltac:(lia) ltac:(lia) ltac:(lia) ltac:(lia) Hr) as Hsim.
  cbn [ret decoder src_begin' written r] in Hsim.
  destruct (ret r0) eqn:Eret.
  - specialize (Hsim (n - Z.to_nat (src_begin' r0 - pos))%nat).
    replace (Z.to_nat (src_begin' r0 - pos)
             + (n - Z.to_nat (src_begin' r0 - pos)))%nat with n in Hsim by lia.
    rewrite Hsim. apply IH; [done|lia|done|lia].
  - specialize (Hsim (n - S (Z.to_nat (src_begin' r0 - pos)))%nat).
    replace (S (Z.to_nat (src_begin' r0 - pos)
                + (n - S (Z.to_nat (src_begin' r0 - pos)))))%nat
      with n in Hsim by lia.
    exact Hsim.
Qed.

(** ** A call sees only its window *)

Section Window.

Variables pos n : Z.
Hypothesis pos_nonneg : 0 <= pos.

Lemma bytes_at_window (c t : Z) :
  0 <= c ->
  c + t <= Z.of_nat (length (bytes_at archive pos n)) ->
  bytes_at archive (pos + c) t = bytes_at (bytes_at archive pos n) c t.
Proof.
  intros Hc Ht. unfold bytes_at in *.
  rewrite length_take in Ht.
  rewrite skipn_firstn_comm, take_take, drop_drop.
  replace (Z.to_nat pos + Z.to_nat c)%nat with (Z.to_nat (pos + c)) by lia.
  f_equal. lia.
Qed.

Lemma body_rebase self c e dd d f :
  0 <= c -> c < e ->
  e <= Z.of_nat (length (bytes_at archive pos n)) -> d < f ->
  filter_body self archive (pos + c) (pos + e) (dd + d) (dd + f)
  = rebase_outcome pos dd
      (filter_body self (bytes_at archive pos n) c e d f).
Proof.
  intros Hc Hce He Hdf.
  pose proof (wrap64_range (512 - header_bytes_read self)) as R1.
  pose proof (wrap64_range (file_size_ self - file_bytes_read self)) as R2.
  unfold filter_body. destruct (state self).
  - unfold read_header.
    assert (T : header_to_copy self (pos + c) (pos + e)
                = header_to_copy self c e).
    { unfold header_to_copy. f_equal. lia. }
    assert (A : accumulate_header self archive (pos + c) (pos + e)
                = accumulate_header self (bytes_at archive pos n) c e).
    { unfold accumulate_header. rewrite T.
      rewrite (bytes_at_window c) by
        (unfold header_to_copy; lia).
      reflexivity. }
    cbn zeta. rewrite T, A, <- Z.add_assoc.
    destruct (header_bytes_read _ =? 512);
      [apply header_complete_rebase | reflexivity].
  - unfold read_file_data.
    replace (pos + e - (pos + c)) with (e - c) by lia.
    replace (dd + f - (dd + d)) with (f - d) by lia.
    rewrite (bytes_at_window c) by lia.
    cbn [rebase_outcome]. rewrite <- !Z.add_assoc. reflexivity.
  - unfold skip_padding.
    replace (pos + e - (pos + c)) with (e - c) by lia.
    cbn [rebase_outcome]. rewrite <- !Z.add_assoc. reflexivity.
  - reflexivity.
Qed.

Lemma filter_loop_rebase fuel e dd f :
  e <= Z.of_nat (length (bytes_at archive pos n)) ->
  forall self c d out,
    0 <= c ->
    filter_loop fuel archive (pos + e) (dd + f) self (pos + c) (dd + d) out
    = rebase pos dd
      <$> filter_loop fuel (bytes_at archive pos n) e f self c d out.
Proof.
  intros He.
  induction fuel as [|fuel IH]; intros self c d out Hc.
  - simpl.
    replace (pos + c <? pos + e) with (c <? e) by lia.
    replace (dd + d <? dd + f) with (d <? f) by lia.
    destruct ((c <? e) && (d <? f)); reflexivity.
  - destruct ((c <? e) && (d <? f)) eqn:G.
    + rewrite !filter_loop_pass; [|done|].
      2:{ apply guard_true. apply guard_true in G. lia. }
      apply guard_true in G as [Gc Gd].
      rewrite (body_rebase self c e dd d f) by done.
      pose proof (body_bounds self (bytes_at archive pos n) c e d f Gc Gd)
        as Hb.
      cbn zeta in Hb.
      destruct (filter_body self (bytes_at archive pos n) c e d f)
        as [s' sb' db' o|b s' sb' db' o]; cbn [rebase_outcome].
      * cbn in Hb. apply IH. lia.
      * reflexivity.
    + rewrite !filter_loop_exit; [reflexivity|done|].
      apply guard_false. apply guard_false in G. lia.
Qed.

(** A call given the window in a source buffer of its own and an empty
    destination buffer does what the call on the window inside a larger
    memory does. *)
Lemma filter_rebase self dd f :
  let chunk := bytes_at archive pos n in
  filter self archive pos (pos + Z.of_nat (length chunk)) dd (dd + f)
  = rebase pos dd <$> filter self chunk 0 (Z.of_nat (length chunk)) 0 f.
Proof.
  intros chunk. unfold filter, filter_fuel.
  replace (pos + Z.of_nat (length chunk) - pos)
    with (Z.of_nat (length chunk) - 0) by lia.
  pose proof (filter_loop_rebase
                (6 * Z.to_nat (Z.of_nat (length chunk) - 0) + 6)
                (Z.of_nat (length chunk)) dd f
                ltac:(subst chunk; lia) self 0 0 [] ltac:(lia)) as H.
  rewrite !Z.add_0_r in H. exact H.
Qed.

End Window.

Lemma drive_on_memory schedule :
  forall self pos out,
    0 <= pos <= Z.of_nat (length archive) ->
    drive archive schedule self pos out
    = drive_mem archive schedule self pos out.
Proof.
  induction schedule as [|[n_in n_out] schedule IH]; intros self pos out Hpos.
  { reflexivity. }
  cbn [drive drive_mem].
  set (chunk := bytes_at archive pos (Z.of_nat n_in)).
  assert (Hlen : Z.min (pos + Z.of_nat n_in) (Z.of_nat (length archive))
                 = pos + Z.of_nat (length chunk)).
  { subst chunk. unfold bytes_at. rewrite length_take, length_drop. lia. }
  rewrite Hlen.
  pose proof (filter_rebase pos (Z.of_nat n_in) ltac:(lia) self
                (Z.of_nat (length out)) (Z.of_nat n_out)) as Hw.
  cbn zeta in Hw. fold chunk in Hw. rewrite Hw. clear Hw.
  destruct (filter self chunk 0 (Z.of_nat (length chunk)) 0 (Z.of_nat n_out))
    as [r|] eqn:E; [|reflexivity].
  cbn [fmap option_fmap option_map rebase ret decoder src_begin' written].
  pose proof (filter_loop_bounds _ chunk (Z.of_nat (length chunk))
                (Z.of_nat n_out) self 0 0 [] r ltac:(lia) ltac:(lia) E)
    as (Hb & _).
  destruct (ret r); [|reflexivity].
  apply IH. lia.
Qed.

(** C2.  For every archive, any two schedules of calls (any chunking of
    the input, any room for output at each call, one byte at a time
    included) that reach the stop signal give the same output; they also
    consume the same input and leave the same decoder, and the driver with
    one-byte input and output buffers reaches the stop signal with that
    output. *)
Theorem chunking_invariance (schedule1 schedule2 : list (nat * nat)) :
  stopped (decode archive schedule1) = true ->
  stopped (decode archive schedule2) = true ->
  output (decode archive schedule1) = output (decode archive schedule2)
  /\ decode archive schedule1 = decode archive schedule2
  /\ decode archive (bytewise (S (length archive))) = decode archive schedule1.
Proof.
  unfold decode. rewrite !drive_on_memory by lia. intros H1 H2.
  pose proof (drive_stopped_bytewise schedule1 _ 0 [] new_consistent
                ltac:(lia) H1 (S (length archive)) ltac:(lia)) as E1.
  pose proof (drive_stopped_bytewise schedule2 _ 0 [] new_consistent
                ltac:(lia) H2 (S (length archive)) ltac:(lia)) as E2.
  rewrite <- E1, <- E2. auto.
Qed.

End OneArchive.

(** "hello.txt" decoded by one call with 4 KiB buffers, and by calls with
    an input window of 7 bytes and room for 2 bytes of output. *)
Lemma chunking_invariance_hello :
  output (decode hello_archive [(4096%nat, 4096%nat)]) = hello_content
  /\ output (decode hello_archive [(4096%nat, 4096%nat)])
     = output (decode hello_archive (replicate 1600 (7%nat, 2%nat)))
  /\ decode hello_archive (bytewise (S (length hello_archive)))
     = decode hello_archive [(4096%nat, 4096%nat)].
Proof.
  split; [vm_compute; reflexivity|].
  destruct (chunking_invariance hello_archive [(4096%nat, 4096%nat)]
              (replicate 1600 (7%nat, 2%nat))) as (Ho & _ & Hb).
  - vm_compute. reflexivity.
  - vm_compute. reflexivity.
  - split; [exact Ho | exact Hb].
Defined.

(** * The name field *)

Lemma name_length_spec (start : list byte) (count len : nat) :
  let k := name_length start len count in
  (len <= k <= len + count)%nat
  /\ (forall i, (len <= i < k)%nat -> at_ start i <> 0)
  /\ (k = (len + count)%nat \/ at_ start k = 0).
Proof.
  revert len. induction count as [|count IH]; intros len; cbn zeta.
  - simpl. split; [lia|]. split; [intros; lia | left; lia].
  - simpl. destruct (Z.eqb_spec (at_ start len) 0) as [E|E].
    + split; [lia|]. split; [intros; lia | right; done].
    + specialize (IH (S len)). cbn zeta in IH.
      destruct IH as (Hk & Hnz & Hend).
      split; [lia|]. split.
      * intros i Hi. destruct (Nat.eq_dec i len) as [->|]; [done|].
        apply Hnz. lia.
      * destruct Hend as [->|Hend]; [left; lia | right; done].
Qed.

Lemma at_nonzero_inside (p : list byte) (i : nat) :
  at_ p i <> 0 -> (i < length p)%nat.
Proof.
  intros H. destruct (Nat.lt_ge_cases i (length p)) as [|Hge]; [done|].
  exfalso. apply H. unfold at_. rewrite nth_overflow by lia. reflexivity.
Qed.

(** X1.  The name extracted from a header is the longest NUL-free prefix of
    its first 100 bytes: it is a prefix of the header, at most 100 bytes
    long, holds no NUL, and either fills the field or is followed by a NUL
    (or by the end of the buffer). *)
Theorem extract_file_name_impl_spec (tar : list byte) :
  let name := extract_file_name_impl tar in
  name = take (length name) tar
  /\ (length name <= 100)%nat
  /\ Forall (fun b => byte_val b <> 0) name
  /\ (length name = 100%nat \/ at_ tar (length name) = 0).
Proof.
  cbn zeta. unfold extract_file_name_impl, TarHeader.name,
    TarHeader.offsetof_name, TarHeader.sizeof_name.
  rewrite drop_0.
  destruct (name_length_spec tar 100 0) as (Hk & Hnz & Hend).
  cbn zeta in *. set (k := name_length tar 0 100) in *.
  assert (Hlen : length (take k tar) = k).
  { rewrite length_take. apply Nat.min_l.
    destruct k as [|k']; [lia|].
    pose proof (at_nonzero_inside tar k' (Hnz k' ltac:(lia))). lia. }
  rewrite Hlen. split; [done|]. split; [lia|]. split; [|simpl in Hend; done].
  apply Forall_lookup. intros i b Hb.
  pose proof (lookup_lt_Some _ _ _ Hb) as Hi. rewrite Hlen in Hi.
  rewrite lookup_take_lt in Hb by done.
  specialize (Hnz i ltac:(lia)). unfold at_ in Hnz.
  rewrite nth_lookup, Hb in Hnz. exact Hnz.
Qed.

(** * The zero-block test *)

Lemma zero_scan_spec (block : list byte) (count i : nat) :
  zero_scan block i count = true
  <-> forall j, (i <= j < i + count)%nat -> at_ block j = 0.
Proof.
  revert i. induction count as [|count IH]; intros i; simpl.
  - split; [intros _ j Hj; lia | done].
  - destruct (Z.eqb_spec (at_ block i) 0) as [E|E].
    + rewrite IH. split.
      * intros H j Hj. destruct (Nat.eq_dec j i) as [->|]; [done|].
        apply H. lia.
      * intros H j Hj. apply H. lia.
    + split; [discriminate|]. intros H. exfalso. apply E, H. lia.
Qed.

Lemma byte_val_zero (b : byte) : byte_val b = 0 -> b = x00.
Proof.
  unfold byte_val. intros H.
  assert (E : Byte.to_N b = Byte.to_N x00) by (simpl; lia).
  apply (f_equal Byte.of_N) in E. rewrite !Byte.of_to_N in E. congruence.
Qed.

Lemma is_zero_block_impl_iff (block : list byte) :
  (512 <= length block)%nat ->
  is_zero_block_impl block = true <-> take 512 block = zero_block.
Proof.
  intros Hlen. unfold is_zero_block_impl, zero_block.
  rewrite zero_scan_spec. split.
  - intros H. apply list_eq_same_length with 512%nat;
      [rewrite length_replicate; done | rewrite length_take; lia|].
    intros j x y Hj Hx Hy.
    rewrite lookup_take_lt in Hx by done.
    apply lookup_replicate in Hy as [-> _].
    specialize (H j ltac:(lia)). unfold at_ in H.
    rewrite nth_lookup, Hx in H. apply byte_val_zero, H.
  - intros H j Hj. unfold at_. rewrite nth_lookup.
    assert (E : take 512 block !! j = Some x00).
    { rewrite H. apply lookup_replicate. split; [done|lia]. }
    rewrite lookup_take_lt in E by lia. rewrite E. reflexivity.
Qed.

(** X2.  On a buffer of at least 512 bytes the end-marker test answers
    [true] exactly when the first 512 bytes are all NUL; bytes after the
    512th play no part. *)
Theorem is_zero_block_impl_spec (block : list byte) :
  (512 <= length block)%nat ->
  (is_zero_block_impl block = true <-> take 512 block = zero_block)
  /\ is_zero_block_impl block = is_zero_block_impl (take 512 block).
Proof.
  intros Hlen. split; [apply is_zero_block_impl_iff, Hlen|].
  assert (H512 : (512 <= length (take 512 block))%nat)
    by (rewrite length_take; lia).
  pose proof (is_zero_block_impl_iff block Hlen) as H1.
  pose proof (is_zero_block_impl_iff (take 512 block) H512) as H2.
  rewrite take_take in H2. change (512 `min` 512)%nat with 512%nat in H2.
  destruct (is_zero_block_impl block), (is_zero_block_impl (take 512 block));
    try reflexivity.
  - symmetry. apply H2, H1. reflexivity.
  - apply H1, H2. reflexivity.
Qed.

Lemma is_zero_block_impl_spec_hello :
  (is_zero_block_impl hello_archive = true
   <-> take 512 hello_archive = zero_block)
  /\ is_zero_block_impl hello_archive
     = is_zero_block_impl (take 512 hello_archive).
Proof.
  apply (is_zero_block_impl_spec hello_archive).
  replace (length hello_archive) with 1536%nat by (vm_compute; reflexivity).
  lia.
Defined.

(** * Writing and reading an octal size *)

Lemma byte_val_octal_digit (d : Z) :
  0 <= d < 8 -> byte_val (byte_of_Z (48 + d)) = 48 + d.
Proof. intros H. rewrite byte_val_byte_of_Z. apply Z.mod_small. lia. Qed.

Lemma length_octal_digits (k : nat) (n : Z) : length (octal_digits k n) = k.
Proof. induction k as [|k IH]; simpl; [done|]. rewrite IH. done. Qed.

Lemma octal_value_digits (k : nat) (n r : Z) (rest : list byte) :
  octal_value (octal_digits k n ++ rest) r
  = octal_value rest (r * 8 ^ Z.of_nat k + n mod 8 ^ Z.of_nat k).
Proof.
  revert r. induction k as [|k IH]; intros r.
  - simpl. rewrite Z.mod_1_r. f_equal. lia.
  - cbn [octal_digits app octal_value].
    assert (Hd : 0 <= (n / 8 ^ Z.of_nat k) mod 8 < 8)
      by (apply Z.mod_pos_bound; lia).
    rewrite byte_val_octal_digit by done.
    destruct (Z.eqb_spec (48 + (n / 8 ^ Z.of_nat k) mod 8) 0); [lia|].
    replace ((48 <=? 48 + (n / 8 ^ Z.of_nat k) mod 8)
             && (48 + (n / 8 ^ Z.of_nat k) mod 8 <=? 55)) with true
      by (symmetry; apply andb_true_iff; split; apply Z.leb_le; lia).
    rewrite IH. f_equal.
    rewrite Nat2Z.inj_succ, Z.pow_succ_r by lia.
    assert (0 < 8 ^ Z.of_nat k) by (apply Z.pow_pos_nonneg; lia).
    rewrite (Z.mul_comm 8 (8 ^ Z.of_nat k)), Z.rem_mul_r by lia. lia.
Qed.

Lemma parse_octal_impl_digits (k m : nat) (n : Z) (rest : list byte) :
  (k <= 21)%nat -> 0 <= n < 8 ^ Z.of_nat k ->
  ((k < m)%nat ->
   parse_octal_impl (octal_digits k n ++ x00 :: rest) m = n)
  /\ parse_octal_impl (octal_digits k n ++ rest) k = n.
Proof.
  intros Hk Hn.
  assert (H8 : 8 ^ Z.of_nat k <= 8 ^ 21) by (apply Z.pow_le_mono_r; lia).
  change (8 ^ 21) with (2 ^ 63) in H8.
  split; [intros Hm|]; rewrite parse_octal_impl_value.
  - rewrite take_app_ge by (rewrite length_octal_digits; lia).
    rewrite length_octal_digits.
    destruct (m - k)%nat as [|j] eqn:E; [lia|]. cbn [take].
    rewrite octal_value_digits. cbn [octal_value byte_val].
    change (Z.of_N (Byte.to_N x00) =? 0) with true. cbn iota.
    rewrite Z.mod_small by done. apply wrap64_small. lia.
  - rewrite take_app_length' by (rewrite length_octal_digits; done).
    rewrite <- (app_nil_r (octal_digits k n)), octal_value_digits.
    cbn [octal_value]. rewrite Z.mod_small by done. apply wrap64_small. lia.
Qed.

Lemma header_block_size_field (name size_field : list byte) (flag : byte) :
  TarHeader.size (header_block name size_field flag)
  = resize 12 x00 size_field ++ replicate 20 x00 ++ [flag]
    ++ replicate 355 x00.
Proof.
  unfold TarHeader.size, header_block. rewrite (app_assoc (resize 100 _ _)).
  apply drop_app_length'.
  rewrite length_app, length_resize, length_replicate. reflexivity.
Qed.

(** X3.  Octal round trip: a number below 8^k (k at most 21) written as
    [k] octal digits is read back by [parse_octal_impl], whether the digits
    are followed by a NUL inside the field or fill the field; and a header
    whose size field holds the 11 octal digits of [n < 8^11] and a NUL
    gives [n] through [parse_file_size_impl]. *)
Theorem octal_round_trip (k m : nat) (n : Z) (name rest : list byte)
    (flag : byte) :
  (k <= 21)%nat -> 0 <= n < 8 ^ Z.of_nat k ->
  ((k < m)%nat ->
   parse_octal_impl (octal_digits k n ++ x00 :: rest) m = n)
  /\ parse_octal_impl (octal_digits k n ++ rest) k = n
  /\ (k = 11%nat ->
      parse_file_size_impl (header_block name (octal_digits 11 n) flag) = n).
Proof.
  intros Hk Hn.
  destruct (parse_octal_impl_digits k m n rest Hk Hn) as [H1 H2].
  split; [done|]. split; [done|]. intros ->.
  unfold parse_file_size_impl. rewrite header_block_size_field.
  rewrite resize_ge by (rewrite length_octal_digits; lia).
  rewrite length_octal_digits. change (replicate (12 - 11) x00) with [x00].
  rewrite <- !app_assoc. cbn [app].
  assert (Hfirst : at_ (octal_digits 11 n ++ x00 :: replicate 20 x00
                        ++ flag :: replicate 355 x00) 0
                   = 48 + (n / 8 ^ 10) mod 8).
  { cbn [octal_digits app]. unfold at_. cbn [nth].
    apply byte_val_octal_digit. apply Z.mod_pos_bound. lia. }
  pose proof (Z.mod_pos_bound (n / 8 ^ 10) 8 ltac:(lia)) as Hd.
  pose proof (byte_marker_bit (byte_of_Z (48 + (n / 8 ^ 10) mod 8))) as Hm.
  rewrite byte_val_octal_digit in Hm by done.
  rewrite Hfirst, Hm.
  destruct (Z.ltb_spec (48 + (n / 8 ^ 10) mod 8) 128); [|lia]. cbn [negb].
  change TarHeader.sizeof_size with 12%nat.
  apply (proj1 (parse_octal_impl_digits 11 12 n _ ltac:(lia) Hn)). lia.
Qed.

(** The size 8 GiB - 1 = 8^11 - 1, the largest the octal form holds. *)
Lemma octal_round_trip_largest :
  parse_octal_impl (octal_digits 11 8589934591 ++ [x00]) 12 = 8589934591
  /\ parse_file_size_impl
       (header_block hello_name (octal_digits 11 8589934591) x30)
     = 8589934591.
Proof.
  destruct (octal_round_trip 11 12 8589934591 hello_name [] x30)
    as (H1 & _ & H3).
  - lia.
  - lia.
  - split; [apply H1; lia | apply H3; reflexivity].
Defined.

(** X4.  Whatever the header, a size read through the octal branch (high
    bit of the first size byte clear) is below 8^12 = 2^36: larger sizes
    can only come from the base-256 branch. *)
Theorem octal_size_bound (tar : list byte) :
  Z.land (at_ (TarHeader.size tar) 0) 0x80 = 0 ->
  0 <= parse_file_size_impl tar < 8 ^ 12.
Proof.
  intros H. unfold parse_file_size_impl. rewrite H. cbn [Z.eqb negb].
  rewrite parse_octal_impl_value.
  pose proof (octal_value_bound
                (take TarHeader.sizeof_size (TarHeader.size tar)) 0
                ltac:(lia)) as Hb.
  assert (8 ^ Z.of_nat (length (take TarHeader.sizeof_size
                                  (TarHeader.size tar))) <= 8 ^ 12).
  { apply Z.pow_le_mono_r; [lia|]. rewrite length_take.
    change TarHeader.sizeof_size with 12%nat. lia. }
  rewrite wrap64_small; [lia|].
  change (8 ^ 12) with 68719476736 in *. lia.
Qed.

Lemma octal_size_bound_hello :
  0 <= parse_file_size_impl hello_archive < 8 ^ 12.
Proof. apply (octal_size_bound hello_archive). vm_compute. reflexivity. Defined.

(** * A call and the memory around its window *)

Lemma rebase_rebase (a b c d : Z) (x : option result) :
  rebase a b <$> (rebase c d <$> x) = rebase (a + c) (b + d) <$> x.
Proof.
  destruct x as [r|]; [|reflexivity]. cbn. unfold rebase. cbn.
  f_equal. f_equal; lia.
Qed.

Lemma filter_window_chunk self src sb n db f :
  0 <= sb -> 0 <= n -> sb + n <= Z.of_nat (length src) ->
  filter self src sb (sb + n) db (db + f)
  = rebase sb db <$> filter self (bytes_at src sb n) 0 n 0 f.
Proof.
  intros Hsb Hn Hlen.
  pose proof (filter_rebase src sb n Hsb self db f) as H. cbn zeta in H.
  rewrite length_bytes_at_inside in H by lia. exact H.
Qed.

(** X5.  A call depends on the memory only through the bytes of its source
    window, and not on where the windows lie: the same bytes at another
    address, with the same room at another destination address, give the
    same return value, decoder and written bytes, and cursors moved by the
    same amounts.  In particular a call never reads outside
    [[src_begin, src_end)]. *)
Theorem filter_window_only self src src' sb sb' n db db' f :
  0 <= sb -> 0 <= sb' -> 0 <= n ->
  sb + n <= Z.of_nat (length src) -> sb' + n <= Z.of_nat (length src') ->
  bytes_at src sb n = bytes_at src' sb' n ->
  filter self src' sb' (sb' + n) db' (db' + f)
  = rebase (sb' - sb) (db' - db) <$> filter self src sb (sb + n) db (db + f).
Proof.
  intros Hsb Hsb' Hn Hlen Hlen' Hbytes.
  rewrite (filter_window_chunk self src sb n db f) by done.
  rewrite (filter_window_chunk self src' sb' n db' f) by done.
  rewrite rebase_rebase, Hbytes. f_equal; f_equal; lia.
Qed.

(** The block of "hello.txt" that holds "hi\n", read in place and read
    from the archive that has a pax entry in front of it. *)
Lemma filter_window_only_hello :
  filter mid_padding pax_archive 1536 (1536 + 512) 7 (7 + 3)
  = rebase (1536 - 512) (7 - 0)
    <$> filter mid_padding hello_archive 512 (512 + 512) 0 (0 + 3).
Proof.
  apply (filter_window_only mid_padding hello_archive pax_archive
           512 1536 512 0 7 3); try lia.
  - replace (length hello_archive) with 1536%nat by (vm_compute; reflexivity).
    lia.
  - replace (length pax_archive) with 3072%nat by (vm_compute; reflexivity).
    lia.
  - vm_compute. reflexivity.
Defined.

(** * Progress *)

Lemma body_progress_or_step self src sb se db de :
  consistent self -> state self <> Done -> sb < se -> db < de ->
  sb < o_src (filter_body self src sb se db de)
  \/ (o_ret (filter_body self src sb se db de) = None
      /\ state (o_self (filter_body self src sb se db de)) <> Done).
Proof.
  intros [[H1 H2 H3 H4 H5] Hh Hd Hp] Hst Hs Hdd.
  destruct Hh as [Hh|Hh]; [done|].
  unfold filter_body. destruct (state self) eqn:Est; [| | |done].
  - left. unfold read_header, header_to_copy.
    assert (1 <= Z.min (wrap64 (512 - header_bytes_read self)) (se - sb))
      by wrap_lia.
    destruct (header_bytes_read _ =? 512); [|cbn; lia].
    unfold header_complete.
    destruct (is_zero_block_impl _); cbn; lia.
  - right. unfold read_file_data. cbn [o_ret o_self state]. rewrite Est.
    split; [done|]. destruct (_ =? _); done.
  - right. unfold skip_padding. cbn [o_ret o_self state]. rewrite Est.
    split; [done|]. destruct (_ =? _); done.
Qed.

Lemma filter_loop_progress fuel src se de self sb db out r :
  consistent self -> state self <> Done -> sb < se -> db < de ->
  filter_loop fuel src se de self sb db out = Some r ->
  sb < src_begin' r.
Proof.
  revert self sb db out.
  induction fuel as [|fuel IH]; intros self sb db out Hc Hst Hs Hd H.
  { simpl in H. rewrite (proj2 (guard_true sb se db de)) in H by lia.
    discriminate. }
  rewrite filter_loop_pass in H by (apply guard_true; lia).
  pose proof (body_bounds self src sb se db de Hs Hd) as Hb.
  pose proof (body_dest_le_src self src sb se db de Hs Hd) as Hl.
  pose proof (body_consistent self src sb se db de Hc Hs Hd) as Hc'.
  pose proof (body_progress_or_step self src sb se db de Hc Hst Hs Hd) as Hp.
  cbn zeta in Hb.
  destruct (filter_body self src sb se db de)
    as [s' sb' db' o|b s' sb' db' o]; cbn in Hb, Hl, Hc', Hp.
  - destruct (Z.eq_dec sb' sb) as [->|Hne].
    + destruct Hp as [Hp|[_ Hp]]; [lia|].
      assert (db' = db) as -> by lia. eauto.
    + pose proof (filter_loop_bounds _ _ _ _ _ _ _ _ _
                    (proj2 (proj1 Hb)) (proj2 (proj1 (proj2 Hb))) H)
        as (Hr & _).
      lia.
  - injection H as <-. cbn. destruct Hp as [Hp|[Hp _]]; [lia|discriminate].
Qed.

(** X6.  Progress: a call on a decoder that is not in state [Done], given
    at least one source byte and room for at least one output byte,
    consumes at least one source byte, whatever it returns; a driver
    cannot spin on such calls. *)
Theorem filter_makes_progress self src src_begin src_end dest_begin dest_end :
  consistent self -> state self <> Done ->
  src_begin < src_end -> dest_begin < dest_end ->
  exists r,
    filter self src src_begin src_end dest_begin dest_end = Some r
    /\ src_begin < src_begin' r.
Proof.
  intros Hc Hst Hs Hd.
  destruct (filter_terminates self src src_begin src_end dest_begin dest_end
              (cons_fields _ Hc)) as [r Hr].
  exists r. split; [done|].
  exact (filter_loop_progress _ _ _ _ _ _ _ _ _ Hc Hst Hs Hd Hr).
Qed.

Lemma filter_makes_progress_mid_padding :
  exists r,
    filter mid_padding one_byte_archive 520 521 1 2 = Some r
    /\ 520 < src_begin' r.
Proof.
  apply (filter_makes_progress mid_padding one_byte_archive 520 521 1 2).
  - constructor; [constructor; unfold is_size_t; simpl; lia
                 | right; simpl; lia | discriminate
                 | right; right; simpl; lia].
  - discriminate.
  - lia.
  - lia.
Defined.

(** * After the stop signal *)

Lemma filter_done self src sb se db de :
  state self = Done ->
  filter self src sb se db de
  = Some (mkResult (negb ((sb <? se) && (db <? de))) self sb db []).
Proof.
  intros Hst. unfold filter, filter_fuel.
  destruct ((sb <? se) && (db <? de)) eqn:G.
  - replace (6 * Z.to_nat (se - sb) + 6)%nat
      with (S (6 * Z.to_nat (se - sb) + 5)) by lia.
    rewrite filter_loop_pass by done.
    unfold filter_body. rewrite Hst. reflexivity.
  - apply filter_loop_exit, G.
Qed.

(** X7.  The stop signal is final: a call that returns [false] leaves the
    decoder in state [Done], and from then on every call, on any memory and
    any ranges, consumes nothing, writes nothing and leaves the decoder as
    it is (it returns [false] when both ranges are non-empty and [true]
    otherwise).  Only [close] makes the decoder usable again. *)
Theorem stop_is_final self src src_begin src_end dest_begin dest_end r :
  filter self src src_begin src_end dest_begin dest_end = Some r ->
  ret r = false ->
  state (decoder r) = Done
  /\ forall src' sb se db de,
       filter (decoder r) src' sb se db de
       = Some (mkResult (negb ((sb <? se) && (db <? de))) (decoder r)
                 sb db []).
Proof.
  intros H Hret.
  pose proof (filter_loop_returns_false _ _ _ _ _ _ _ _ _ H Hret) as Hst.
  split; [done|]. intros. apply filter_done, Hst.
Qed.

Lemma stop_is_final_zero_block :
  state finished = Done
  /\ forall src' sb se db de,
       filter finished src' sb se db de
       = Some (mkResult (negb ((sb <? se) && (db <? de))) finished sb db []).
Proof.
  apply (stop_is_final new_BaseTarFilterImpl zero_block 0 512 0 1
           (mkResult false finished 512 0 [])).
  - vm_compute. reflexivity.
  - reflexivity.
Defined.

(** * Invariants of the decoder and bounds of the header copy *)

Lemma new_well_formed : well_formed new_BaseTarFilterImpl.
Proof.
  constructor; [apply new_consistent | simpl; lia | left; reflexivity].
Qed.

Lemma length_resized (buf : list byte) :
  length buf = 0%nat \/ length buf = 512%nat ->
  length (resized buf) = 512%nat.
Proof.
  unfold resized. intros [H|H]; rewrite H; cbn [Z.of_nat Z.ltb Z.compare].
  - apply length_resize.
  - change (Z.of_nat 512 <? 512) with false. cbn iota. exact H.
Qed.

Lemma close_well_formed self : well_formed self -> well_formed (close self).
Proof.
  intros [[[H1 H2 H3 H4 H5] Hh Hd Hp] Hpad Hbuf].
  constructor; [|exact Hpad|left; reflexivity].
  constructor; [constructor; try exact H4; unfold is_size_t; simpl; lia
               | right; simpl; lia | discriminate | left; reflexivity].
Qed.

Lemma body_well_formed self src sb se db de :
  well_formed self -> sb < se -> db < de ->
  well_formed (o_self (filter_body self src sb se db de)).
Proof.
  intros [Hc Hpad Hbuf] Hs Hd.
  constructor; [apply body_consistent; done| |].
  - unfold filter_body, read_header, header_complete, read_file_data,
      skip_padding.
    pose proof (padding_for_range
                  (parse_file_size_impl
                     (header_buffer (accumulate_header self src sb se)))).
    destruct (state self);
      repeat match goal with
        | |- context [if ?b then _ else _] => destruct b
        end; cbn [o_self padding_bytes set_state accumulate_header]; lia.
  - assert (Hacc : length (header_buffer (accumulate_header self src sb se))
                   = 512%nat).
    { unfold accumulate_header. cbn [header_buffer].
      rewrite length_inserts. apply (length_resized _ Hbuf). }
    unfold filter_body, read_header, header_complete, read_file_data,
      skip_padding.
    destruct (state self);
      repeat match goal with
        | |- context [if ?b then _ else _] => destruct b
        end; cbn [o_self header_buffer set_state]; auto.
Qed.

Lemma filter_loop_well_formed fuel src se de self sb db out r :
  well_formed self ->
  filter_loop fuel src se de self sb db out = Some r ->
  well_formed (decoder r).
Proof.
  revert self sb db out.
  induction fuel as [|fuel IH]; intros self sb db out Hw H.
  - destruct ((sb <? se) && (db <? de)) eqn:G.
    + simpl in H. rewrite G in H. discriminate.
    + rewrite filter_loop_exit in H by done. injection H as <-. done.
  - destruct ((sb <? se) && (db <? de)) eqn:G.
    + rewrite filter_loop_pass in H by done. apply guard_true in G as [Gs Gd].
      pose proof (body_well_formed self src sb se db de Hw Gs Gd) as Hw'.
      destruct (filter_body self src sb se db de)
        as [s' sb' db' o|b s' sb' db' o]; cbn [o_self] in Hw'.
      * eauto.
      * injection H as <-. done.
    + rewrite filter_loop_exit in H by done. injection H as <-. done.
Qed.

(** X8.  Every decoder a program can hold (a new one, after any calls to
    [filter] and [close]) satisfies the invariants: the counters are
    [std::size_t] values, fewer than 512 header bytes are buffered unless
    the state is [Done], the file bytes read do not exceed the file size
    in [ReadFileData], the padding skipped does not exceed the padding
    length in [ReadFileData] and [SkipPadding], the padding length is
    below 512, and the header buffer is empty or exactly 512 bytes long. *)
Theorem reachable_well_formed self : reachable self -> well_formed self.
Proof.
  induction 1 as [|self src sb se db de r _ IH H|self _ IH].
  - apply new_well_formed.
  - exact (filter_loop_well_formed _ _ _ _ _ _ _ _ _ IH H).
  - apply close_well_formed, IH.
Qed.

Lemma reachable_well_formed_mid_padding : well_formed mid_padding.
Proof.
  apply (reachable_well_formed mid_padding).
  apply (reach_filter new_BaseTarFilterImpl one_byte_archive 0 520 0 16
           (mkResult true mid_padding 520 1 [x62])).
  - apply reach_new.
  - vm_compute. reflexivity.
Defined.

(** X9.  The header copy stays in bounds: in state [ReadHeader], with a
    well-formed decoder and a non-empty source window inside the source
    memory, the [memcpy] copies at least one byte, reads only bytes of the
    window, and writes inside the 512 bytes of the header buffer; the
    buffer is still 512 bytes long afterwards. *)
Theorem header_copy_in_bounds self src src_begin src_end :
  well_formed self -> state self = ReadHeader ->
  0 <= src_begin -> src_begin < src_end ->
  src_end <= Z.of_nat (length src) ->
  let to_copy := header_to_copy self src_begin src_end in
  1 <= to_copy <= src_end - src_begin
  /\ length (bytes_at src src_begin to_copy) = Z.to_nat to_copy
  /\ 0 <= header_bytes_read self
  /\ header_bytes_read self + to_copy <= 512
  /\ length (resized (header_buffer self)) = 512%nat
  /\ length (header_buffer (accumulate_header self src src_begin src_end))
     = 512%nat.
Proof.
  intros [[[H1 H2 H3 H4 H5] Hh Hd Hp] Hpad Hbuf] Hst H0 Hs Hlen to_copy.
  destruct Hh as [Hh|Hh]; [congruence|].
  assert (Ht : 1 <= to_copy <= src_end - src_begin
               /\ header_bytes_read self + to_copy <= 512).
  { subst to_copy. unfold header_to_copy. wrap_lia. }
  split; [lia|]. split.
  { pose proof (length_bytes_at_inside src src_begin to_copy). lia. }
  split; [unfold is_size_t in H1; lia|]. split; [lia|].
  split; [apply length_resized, Hbuf|].
  unfold accumulate_header. cbn [header_buffer]. rewrite length_inserts.
  apply (length_resized _ Hbuf).
Qed.

Lemma header_copy_in_bounds_new :
  let to_copy := header_to_copy new_BaseTarFilterImpl 0 7 in
  1 <= to_copy <= 7 - 0
  /\ length (bytes_at hello_archive 0 to_copy) = Z.to_nat to_copy
  /\ 0 <= header_bytes_read new_BaseTarFilterImpl
  /\ header_bytes_read new_BaseTarFilterImpl + to_copy <= 512
  /\ length (resized (header_buffer new_BaseTarFilterImpl)) = 512%nat
  /\ length (header_buffer
               (accumulate_header new_BaseTarFilterImpl hello_archive 0 7))
     = 512%nat.
Proof.
  apply (header_copy_in_bounds new_BaseTarFilterImpl hello_archive 0 7).
  - constructor; [|simpl; lia|left; reflexivity].
    constructor; [constructor; unfold is_size_t; simpl; lia
                 | right; simpl; lia | discriminate | left; reflexivity].
  - reflexivity.
  - lia.
  - lia.
  - replace (length hello_archive) with 1536%nat by (vm_compute; reflexivity).
    lia.
Defined.

(** * The output is made of input bytes *)

Lemma bytes_at_add (src : list byte) (p a b : Z) :
  0 <= p -> 0 <= a -> 0 <= b ->
  bytes_at src p (a + b) = bytes_at src p a ++ bytes_at src (p + a) b.
Proof.
  intros Hp Ha Hb. unfold bytes_at.
  replace (Z.to_nat (a + b)) with (Z.to_nat a + Z.to_nat b)%nat by lia.
  replace (Z.to_nat (p + a)) with (Z.to_nat p + Z.to_nat a)%nat by lia.
  rewrite <- drop_drop. symmetry. apply take_take_drop.
Qed.

Lemma body_out_sublist self src sb se db de :
  sb < se -> db < de ->
  o_out (filter_body self src sb se db de)
  `sublist_of` bytes_at src sb (o_src (filter_body self src sb se db de) - sb).
Proof.
  intros Hs Hd.
  body_cases self; try apply sublist_nil_l.
  all: match goal with
       | |- _ `sublist_of` bytes_at _ _ ?n =>
           replace n
             with (Z.min (wrap64 (file_size_ self - file_bytes_read self))
                     (Z.min (se - sb) (de - db))) by lia
       end; reflexivity.
Qed.

Lemma filter_loop_sublist fuel src se de self sb db out r :
  0 <= sb -> sb <= se -> db <= de ->
  filter_loop fuel src se de self sb db out = Some r ->
  exists w,
    written r = out ++ w
    /\ w `sublist_of` bytes_at src sb (src_begin' r - sb).
Proof.
  revert self sb db out.
  induction fuel as [|fuel IH]; intros self sb db out H0 Hs Hd H.
  - destruct ((sb <? se) && (db <? de)) eqn:G.
    + simpl in H. rewrite G in H. discriminate.
    + rewrite filter_loop_exit in H by done. injection H as <-.
      exists []. cbn. rewrite app_nil_r. split; [done|apply sublist_nil_l].
  - destruct ((sb <? se) && (db <? de)) eqn:G.
    + rewrite filter_loop_pass in H by done. apply guard_true in G as [Gs Gd].
      pose proof (body_bounds self src sb se db de Gs Gd) as Hb.
      pose proof (body_out_sublist self src sb se db de Gs Gd) as Hsub.
      cbn zeta in Hb.
      destruct (filter_body self src sb se db de)
        as [s' sb' db' o|b s' sb' db' o]; cbn in Hb, Hsub.
      * pose proof (filter_loop_bounds _ _ _ _ _ _ _ _ _
                      (proj2 (proj1 Hb)) (proj2 (proj1 (proj2 Hb))) H)
          as (Hr & _).
        destruct (IH s' sb' db' (out ++ o) ltac:(lia) ltac:(lia) ltac:(lia) H)
          as (w & Hw & Hsubw).
        exists (o ++ w). rewrite Hw, app_assoc. split; [done|].
        replace (src_begin' r - sb)
          with ((sb' - sb) + (src_begin' r - sb')) by lia.
        rewrite bytes_at_add by lia.
        replace (sb + (sb' - sb)) with sb' by lia.
        apply sublist_app; done.
      * injection H as <-. cbn. exists o. split; done.
    + rewrite filter_loop_exit in H by done. injection H as <-.
      exists []. cbn. rewrite app_nil_r. split; [done|apply sublist_nil_l].
Qed.

(** X10.  A call writes nothing but source bytes it consumed, in their
    order: the bytes written are a subsequence of the bytes between the
    old and the new input cursor, so they are never more than the bytes
    consumed.  No byte of a header or of padding is made up. *)
Theorem written_from_consumed self src src_begin src_end dest_begin dest_end r :
  0 <= src_begin -> src_begin <= src_end -> dest_begin <= dest_end ->
  filter self src src_begin src_end dest_begin dest_end = Some r ->
  written r `sublist_of` bytes_at src src_begin (src_begin' r - src_begin)
  /\ Z.of_nat (length (written r)) <= src_begin' r - src_begin.
Proof.
  intros H0 Hs Hd H.
  destruct (filter_loop_sublist _ _ _ _ _ _ _ _ _ H0 Hs Hd H)
    as (w & Hw & Hsub).
  cbn [app] in Hw. subst w. split; [done|].
  pose proof (filter_loop_bounds _ _ _ _ _ _ _ _ _ Hs Hd H) as (Hb & _).
  apply sublist_length in Hsub.
  pose proof (length_bytes_at src src_begin (src_begin' r - src_begin)).
  lia.
Qed.

Lemma written_from_consumed_hello :
  exists r,
    filter new_BaseTarFilterImpl hello_archive 0 1536 0 16 = Some r
    /\ written r = hello_content
    /\ written r `sublist_of` bytes_at hello_archive 0 (src_begin' r - 0)
    /\ Z.of_nat (length (written r)) <= src_begin' r - 0.
Proof.
  eexists. split; [vm_compute; reflexivity|]. split; [reflexivity|].
  eapply (written_from_consumed new_BaseTarFilterImpl hello_archive
            0 1536 0 16).
  - lia.
  - lia.
  - lia.
  - vm_compute. reflexivity.
Defined.

(** * Reusing a decoder *)

Lemma drive_alike archive schedule :
  forall s s' pos out,
    alike s s' ->
    stopped (drive archive schedule s pos out)
    = stopped (drive archive schedule s' pos out)
    /\ consumed (drive archive schedule s pos out)
       = consumed (drive archive schedule s' pos out)
    /\ output (drive archive schedule s pos out)
       = output (drive archive schedule s' pos out)
    /\ alike (final (drive archive schedule s pos out))
         (final (drive archive schedule s' pos out)).
Proof.
  induction schedule as [|[n_in n_out] schedule IH]; intros s s' pos out Ha.
  { cbn. auto. }
  cbn [drive].
  set (chunk := bytes_at archive pos (Z.of_nat n_in)).
  pose proof (filter_loop_alike
                (filter_fuel 0 (Z.of_nat (length chunk))) chunk
                (Z.of_nat (length chunk)) (Z.of_nat n_out) s s' 0 0 [] Ha)
    as Hr.
  fold (filter s chunk 0 (Z.of_nat (length chunk)) 0 (Z.of_nat n_out)) in Hr.
  fold (filter s' chunk 0 (Z.of_nat (length chunk)) 0 (Z.of_nat n_out)) in Hr.
  destruct (filter s chunk 0 (Z.of_nat (length chunk)) 0 (Z.of_nat n_out))
    as [r|],
    (filter s' chunk 0 (Z.of_nat (length chunk)) 0 (Z.of_nat n_out))
    as [r'|]; cbn in Hr; try contradiction.
  - destruct Hr as (E1 & E2 & E3 & E4 & Ha').
    rewrite <- E1, <- E2, <- E4.
    destruct (ret r); [apply IH, Ha'|]. cbn. auto.
  - cbn. auto.
Qed.

(** X11.  Reuse after [close]: whatever a decoder went through, once
    closed it decodes any archive under any schedule of calls as a new
    decoder does: the same calls stop or not, consume the same input and
    give the same output. *)
Theorem close_then_decode self archive schedule :
  stopped (drive archive schedule (close self) 0 [])
  = stopped (decode archive schedule)
  /\ consumed (drive archive schedule (close self) 0 [])
     = consumed (decode archive schedule)
  /\ output (drive archive schedule (close self) 0 [])
     = output (decode archive schedule).
Proof.
  destruct (drive_alike archive schedule (close self) new_BaseTarFilterImpl
              0 [] (alike_close_new self)) as (H1 & H2 & H3 & _).
  auto.
Qed.

(** * Decoders that decode alike *)

Lemma list_inserts_take_drop (i : nat) (k l : list byte) :
  (i + length k <= length l)%nat ->
  list_inserts i k l = take i l ++ k ++ drop (i + length k) l.
Proof.
  intros H.
  rewrite <- (take_drop i l) at 1.
  assert (Hi : length (take i l) = i) by (rewrite length_take; lia).
  rewrite <- (Nat.add_0_r i) at 1. rewrite <- Hi at 1.
  rewrite list_inserts_app_r. f_equal.
  rewrite <- (take_drop (length k) (drop i l)) at 1.
  rewrite list_inserts_0_r by (rewrite length_take, length_drop; lia).
  rewrite drop_drop. reflexivity.
Qed.

Lemma resized_idemp (buf : list byte) :
  (512 <= length buf)%nat -> resized buf = buf.
Proof.
  intros H. unfold resized.
  destruct (Z.ltb_spec (Z.of_nat (length buf)) 512); [lia|done].
Qed.

Lemma header_complete_same_buffer s s' sb db :
  header_buffer s = header_buffer s' ->
  match header_complete s sb db, header_complete s' sb db with
  | Break t sb1 db1 o1, Break t' sb2 db2 o2 =>
      sb1 = sb2 /\ db1 = db2 /\ o1 = o2 /\ t = t'
  | Return b t sb1 db1 o1, Return b' t' sb2 db2 o2 =>
      b = b' /\ sb1 = sb2 /\ db1 = db2 /\ o1 = o2
      /\ state t = Done /\ state t' = Done
  | _, _ => False
  end.
Proof.
  intros E. unfold header_complete. rewrite <- E.
  destruct (is_zero_block_impl (header_buffer s)); cbn; auto 10.
Qed.

Lemma body_equivalent s s' src sb se db de :
  equivalent s s' ->
  0 <= sb -> sb < se -> se <= Z.of_nat (length src) -> db < de ->
  match filter_body s src sb se db de, filter_body s' src sb se db de with
  | Break t sb1 db1 o1, Break t' sb2 db2 o2 =>
      sb1 = sb2 /\ db1 = db2 /\ o1 = o2 /\ equivalent t t'
  | Return b t sb1 db1 o1, Return b' t' sb2 db2 o2 =>
      b = b' /\ sb1 = sb2 /\ db1 = db2 /\ o1 = o2 /\ equivalent t t'
  | _, _ => False
  end.
Proof.
  intros [<-|[Hh|[Hd Hd']]] H0 Hs Hlen Hdd.
  - destruct (filter_body s src sb se db de); unfold equivalent; auto 10.
  - destruct Hh as (Hst & Hst' & Eh & Hr & Hl & Hl' & Et).
    unfold filter_body. rewrite Hst, Hst'. unfold read_header.
    assert (T : header_to_copy s' sb se = header_to_copy s sb se)
      by (unfold header_to_copy; rewrite Eh; reflexivity).
    rewrite T.
    set (t := header_to_copy s sb se).
    assert (Ht : 1 <= t <= se - sb /\ header_bytes_read s + t <= 512)
      by (subst t; unfold header_to_copy; wrap_lia).
    assert (Hb : length (bytes_at src sb t) = Z.to_nat t).
    { pose proof (length_bytes_at_inside src sb t). lia. }
    assert (B : forall u, header_bytes_read u = header_bytes_read s ->
                  length (resized (header_buffer u)) = 512%nat ->
                  header_buffer (accumulate_header u src sb se)
                  = take (Z.to_nat (header_bytes_read s))
                      (resized (header_buffer u))
                    ++ bytes_at src sb t
                    ++ drop (Z.to_nat (header_bytes_read s) + Z.to_nat t)
                         (resized (header_buffer u))).
    { intros u Eu Hu. unfold accumulate_header. cbn [header_buffer].
      fold (resized (header_buffer u)).
      replace (header_to_copy u sb se) with t
        by (subst t; unfold header_to_copy; rewrite Eu; reflexivity).
      rewrite Eu, list_inserts_take_drop by lia. rewrite Hb. reflexivity. }
    pose proof (B s eq_refl Hl) as Bs.
    pose proof (B s' (eq_sym Eh) Hl') as Bs'.
    assert (C : forall u, header_bytes_read u = header_bytes_read s ->
                  header_bytes_read (accumulate_header u src sb se)
                  = header_bytes_read s + t).
    { intros u Eu. unfold accumulate_header. cbn [header_bytes_read].
      replace (header_to_copy u sb se) with t
        by (subst t; unfold header_to_copy; rewrite Eu; reflexivity).
      rewrite Eu. wrap_lia. }
    rewrite (C s eq_refl), (C s' (eq_sym Eh)).
    destruct (Z.eqb_spec (header_bytes_read s + t) 512) as [E512|N512].
    + assert (EB : header_buffer (accumulate_header s src sb se)
                   = header_buffer (accumulate_header s' src sb se)).
      { rewrite Bs, Bs', Et.
        rewrite !drop_ge by lia. reflexivity. }
      pose proof (header_complete_same_buffer
                    (accumulate_header s src sb se)
                    (accumulate_header s' src sb se) (sb + t) db EB) as Hc.
      destruct (header_complete (accumulate_header s src sb se) (sb + t) db),
        (header_complete (accumulate_header s' src sb se) (sb + t) db);
        try contradiction.
      * destruct Hc as (-> & -> & -> & ->). unfold equivalent. auto.
      * destruct Hc as (-> & -> & -> & -> & D1 & D2).
        unfold equivalent. auto 10.
    + repeat split. right. left.
      unfold same_header_progress.
      rewrite (C s eq_refl), (C s' (eq_sym Eh)).
      assert (L : forall u, header_bytes_read u = header_bytes_read s ->
                    length (resized (header_buffer u)) = 512%nat ->
                    length (header_buffer (accumulate_header u src sb se))
                    = 512%nat).
      { intros u Eu Hu. unfold accumulate_header. cbn [header_buffer].
        fold (resized (header_buffer u)). rewrite length_inserts. exact Hu. }
      rewrite !resized_idemp
        by (rewrite L; [lia | done || (symmetry; done) | done]).
      rewrite (L s eq_refl Hl), (L s' (eq_sym Eh) Hl').
      split; [exact Hst|]. split; [exact Hst'|]. split; [done|].
      split; [lia|]. split; [done|]. split; [done|].
      rewrite Bs, Bs'.
      replace (Z.to_nat (header_bytes_read s + t))
        with (Z.to_nat (header_bytes_read s) + Z.to_nat t)%nat by lia.
      rewrite !app_assoc.
      rewrite !take_app_length'; [rewrite Et; reflexivity| |];
        rewrite length_app, length_take, Hb; lia.
  - unfold filter_body. rewrite Hd, Hd'. unfold equivalent. auto 10.
Qed.

Lemma filter_loop_equivalent fuel src se de :
  se <= Z.of_nat (length src) ->
  forall s s' sb db out,
    equivalent s s' -> 0 <= sb ->
    equivalent_results (filter_loop fuel src se de s sb db out)
      (filter_loop fuel src se de s' sb db out).
Proof.
  intros Hlen.
  induction fuel as [|fuel IH]; intros s s' sb db out He H0.
  - simpl. destruct ((sb <? se) && (db <? de)); cbn; auto.
  - destruct ((sb <? se) && (db <? de)) eqn:G.
    + rewrite !filter_loop_pass by done. apply guard_true in G as [Gs Gd].
      pose proof (body_equivalent s s' src sb se db de He H0 Gs Hlen Gd) as Hb.
      pose proof (body_bounds s src sb se db de Gs Gd) as Hbd.
      cbn zeta in Hbd.
      destruct (filter_body s src sb se db de),
               (filter_body s' src sb se db de); try contradiction.
      * destruct Hb as (<- & <- & <- & He'). cbn in Hbd. apply IH; [done|lia].
      * destruct Hb as (<- & <- & <- & <- & He'). cbn. auto.
    + rewrite !filter_loop_exit by done. cbn. auto.
Qed.

Lemma filter_equivalent s s' src se de :
  equivalent s s' -> se <= Z.of_nat (length src) ->
  equivalent_results (filter s src 0 se 0 de) (filter s' src 0 se 0 de).
Proof.
  intros He Hlen. unfold filter.
  apply filter_loop_equivalent; [done|done|lia].
Qed.

Lemma bytes_at_app_r (pre rest : list byte) (p n : Z) :
  0 <= p ->
  bytes_at (pre ++ rest) (Z.of_nat (length pre) + p) n = bytes_at rest p n.
Proof.
  intros Hp. unfold bytes_at.
  replace (Z.to_nat (Z.of_nat (length pre) + p))
    with (length pre + Z.to_nat p)%nat by lia.
  rewrite <- drop_drop, drop_app_length. reflexivity.
Qed.

(** The same calls on [pre ++ rest] from the end of [pre] and on [rest]
    from its beginning, by decoders that decode alike. *)
Lemma drive_transport (pre rest : list byte) (schedule : list (nat * nat)) :
  forall s s' p out out',
    equivalent s s' -> 0 <= p ->
    let a := drive (pre ++ rest) schedule s (Z.of_nat (length pre) + p) out in
    let b := drive rest schedule s' p out' in
    stopped a = stopped b
    /\ consumed a = Z.of_nat (length pre) + consumed b
    /\ exists w, output a = out ++ w /\ output b = out' ++ w.
Proof.
  induction schedule as [|[n_in n_out] schedule IH];
    intros s s' p out out' He Hp; cbn zeta.
  - cbn. repeat split. exists []. rewrite !app_nil_r. done.
  - cbn [drive]. rewrite bytes_at_app_r by done.
    set (chunk := bytes_at rest p (Z.of_nat n_in)).
    pose proof (filter_equivalent s s' chunk (Z.of_nat (length chunk))
                  (Z.of_nat n_out) He ltac:(lia)) as Hf.
    destruct (filter s chunk 0 (Z.of_nat (length chunk)) 0 (Z.of_nat n_out))
      as [r|] eqn:F,
      (filter s' chunk 0 (Z.of_nat (length chunk)) 0 (Z.of_nat n_out))
      as [r'|] eqn:F'; cbn in Hf; try contradiction.
    + destruct Hf as (Er & Es & Ed & Ew & He').
      rewrite <- Er, <- Es, <- Ew.
      unfold filter in F.
      apply filter_loop_bounds in F; [|lia|lia].
      destruct (ret r).
      * rewrite <- Z.add_assoc.
        destruct (IH (decoder r) (decoder r') (p + src_begin' r)
                    (out ++ written r) (out' ++ written r) He' ltac:(lia))
          as (I1 & I2 & w & I3 & I4).
        split; [exact I1|]. split; [exact I2|].
        exists (written r ++ w). rewrite !app_assoc. done.
      * cbn. split; [done|]. split; [lia|]. exists (written r). done.
    + cbn. repeat split. exists []. rewrite !app_nil_r. done.
Qed.

(** * One entry, pass by pass *)

Lemma header_to_copy_full self sb se :
  header_bytes_read self = 0 -> sb + 512 <= se ->
  header_to_copy self sb se = 512.
Proof. intros E H. unfold header_to_copy. rewrite E. wrap_lia. Qed.

Lemma header_to_copy_one self sb :
  header_bytes_read self = 0 -> header_to_copy self sb (sb + 1) = 1.
Proof. intros E. unfold header_to_copy. rewrite E. wrap_lia. Qed.

Lemma accumulate_full self src sb se hdr :
  header_bytes_read self = 0 -> sb + 512 <= se ->
  length (resized (header_buffer self)) = 512%nat ->
  length hdr = 512%nat -> bytes_at src sb 512 = hdr ->
  header_buffer (accumulate_header self src sb se) = hdr
  /\ header_bytes_read (accumulate_header self src sb se) = 512.
Proof.
  intros E H Hr Hl Hb. unfold accumulate_header.
  cbn [header_buffer header_bytes_read].
  rewrite header_to_copy_full, E, Hb by done. split; [|reflexivity].
  fold (resized (header_buffer self)).
  rewrite list_inserts_take_drop by (simpl; lia).
  change (Z.to_nat 0) with 0%nat. rewrite take_0, drop_ge by (simpl; lia).
  apply app_nil_r.
Qed.

Lemma pass_header self src sb se db de hdr :
  state self = ReadHeader -> header_bytes_read self = 0 ->
  length (resized (header_buffer self)) = 512%nat ->
  sb + 512 <= se ->
  length hdr = 512%nat -> bytes_at src sb 512 = hdr ->
  is_zero_block_impl hdr = false ->
  filter_body self src sb se db de = Break (after_header hdr) (sb + 512) db [].
Proof.
  intros Hst E Hr H Hl Hb Hz.
  destruct (accumulate_full self src sb se hdr E H Hr Hl Hb) as [B C].
  unfold filter_body. rewrite Hst. unfold read_header.
  rewrite C, header_to_copy_full by done.
  change (512 =? 512) with true. cbn iota.
  unfold header_complete. rewrite B, Hz. reflexivity.
Qed.

Lemma pass_zero_block self src sb se db de :
  state self = ReadHeader -> header_bytes_read self = 0 ->
  length (resized (header_buffer self)) = 512%nat ->
  sb + 512 <= se ->
  bytes_at src sb 512 = zero_block ->
  filter_body self src sb se db de
  = Return false (set_state Done (accumulate_header self src sb se))
      (sb + 512) db [].
Proof.
  intros Hst E Hr H Hb.
  destruct (accumulate_full self src sb se zero_block E H Hr eq_refl Hb)
    as [B C].
  unfold filter_body. rewrite Hst. unfold read_header.
  rewrite C, header_to_copy_full by done.
  change (512 =? 512) with true. cbn iota.
  unfold header_complete. rewrite B.
  replace (is_zero_block_impl zero_block) with true; [reflexivity|].
  symmetry. apply is_zero_block_impl_iff; [done|]. reflexivity.
Qed.

Lemma pass_payload hdr src sb se db de :
  is_regular_file hdr = true ->
  parse_file_size_impl hdr <= se - sb ->
  parse_file_size_impl hdr <= de - db ->
  filter_body (after_header hdr) src sb se db de
  = Break (after_payload hdr) (sb + parse_file_size_impl hdr)
      (db + parse_file_size_impl hdr)
      (bytes_at src sb (parse_file_size_impl hdr)).
Proof.
  intros Hreg Hs Hd.
  pose proof (parse_file_size_impl_size_t hdr) as Hn. unfold is_size_t in Hn.
  unfold filter_body, after_header. cbn [state]. rewrite Hreg.
  unfold read_file_data.
  cbn [file_size_ file_bytes_read header_buffer header_bytes_read
       padding_bytes padding_bytes_skipped state current_file_name].
  rewrite Z.sub_0_r, (wrap64_small _ Hn).
  rewrite (Z.min_l _ (Z.min _ _)) by lia.
  rewrite Z.add_0_l, (wrap64_small _ Hn), Z.eqb_refl.
  reflexivity.
Qed.

Lemma pass_skip self sb se db :
  state self = SkipPadding -> padding_bytes_skipped self = 0 ->
  0 <= padding_bytes self < 512 -> padding_bytes self <= se - sb ->
  skip_padding self sb se db
  = Break
      {| header_buffer := header_buffer self;
         header_bytes_read := header_bytes_read self;
         file_size_ := file_size_ self;
         file_bytes_read := file_bytes_read self;
         padding_bytes := padding_bytes self;
         padding_bytes_skipped := padding_bytes self;
         state := ReadHeader;
         current_file_name := current_file_name self |}
      (sb + padding_bytes self) db [].
Proof.
  intros Hst E Hp Hs. unfold skip_padding. rewrite E.
  assert (W : wrap64 (padding_bytes self) = padding_bytes self) by wrap_lia.
  rewrite Z.sub_0_r, W.
  rewrite Z.min_l by lia.
  rewrite Z.add_0_l, W, Z.eqb_refl.
  reflexivity.
Qed.

Lemma pass_skip_regular hdr src sb se db de :
  is_regular_file hdr = true ->
  padding_for (parse_file_size_impl hdr) <= se - sb ->
  filter_body (after_payload hdr) src sb se db de
  = Break (after_entry hdr) (sb + padding_for (parse_file_size_impl hdr))
      db [].
Proof.
  intros Hreg Hs.
  pose proof (padding_for_range (parse_file_size_impl hdr)) as Hp.
  unfold filter_body. cbn [state after_payload].
  rewrite pass_skip
    by (cbn [after_payload state padding_bytes padding_bytes_skipped];
        done || lia).
  unfold after_entry. rewrite Hreg. reflexivity.
Qed.

Lemma pass_skip_other hdr src sb se db de :
  is_regular_file hdr = false ->
  padding_for (parse_file_size_impl hdr) <= se - sb ->
  filter_body (after_header hdr) src sb se db de
  = Break (after_entry hdr) (sb + padding_for (parse_file_size_impl hdr))
      db [].
Proof.
  intros Hreg Hs.
  pose proof (padding_for_range (parse_file_size_impl hdr)) as Hp.
  unfold filter_body. unfold after_header at 1. cbn [state]. rewrite Hreg.
  rewrite pass_skip;
    [|unfold after_header; cbn [state padding_bytes padding_bytes_skipped];
      rewrite ?Hreg; done || lia..].
  unfold after_entry, after_header. rewrite Hreg. reflexivity.
Qed.

Lemma pass_lookahead self src sb db de :
  state self = ReadHeader -> header_bytes_read self = 0 ->
  filter_body self src sb (sb + 1) db de
  = Break (accumulate_header self src sb (sb + 1)) (sb + 1) db [].
Proof.
  intros Hst E. unfold filter_body. rewrite Hst. unfold read_header.
  assert (C : header_bytes_read (accumulate_header self src sb (sb + 1)) = 1).
  { unfold accumulate_header. cbn [header_bytes_read].
    rewrite header_to_copy_one, E by done. reflexivity. }
  rewrite C, header_to_copy_one by done. reflexivity.
Qed.

(** After the first byte of the next header, the decoder that has read an
    entry decodes like a new one that has read this byte. *)
Lemma lookahead_equivalent (s s' : BaseTarFilterImpl) (src src' : list byte)
    (p p' : Z) :
  state s = ReadHeader -> state s' = ReadHeader ->
  header_bytes_read s = 0 -> header_bytes_read s' = 0 ->
  length (resized (header_buffer s)) = 512%nat ->
  length (resized (header_buffer s')) = 512%nat ->
  bytes_at src p 1 = bytes_at src' p' 1 ->
  length (bytes_at src' p' 1) = 1%nat ->
  equivalent (accumulate_header s src p (p + 1))
    (accumulate_header s' src' p' (p' + 1)).
Proof.
  intros Hst Hst' E E' Hl Hl' Hb Hk. right. left.
  unfold same_header_progress, accumulate_header.
  cbn [state header_bytes_read header_buffer].
  rewrite !header_to_copy_one, E, E', Hb by done.
  fold (resized (header_buffer s)) (resized (header_buffer s')).
  rewrite (resized_idemp (list_inserts _ _ (resized (header_buffer s))))
    by (rewrite length_inserts; lia).
  rewrite (resized_idemp (list_inserts _ _ (resized (header_buffer s'))))
    by (rewrite length_inserts; lia).
  rewrite !length_inserts.
  split; [done|]. split; [done|]. split; [done|].
  split; [wrap_lia|]. split; [done|]. split; [done|].
  change (Z.to_nat 0) with 0%nat.
  rewrite !list_inserts_take_drop by (simpl; lia).
  rewrite !take_0. cbn [app].
  change (Z.to_nat (wrap64 (0 + 1))) with 1%nat.
  destruct (bytes_at src' p' 1) as [|b [|b' k]]; try discriminate.
  reflexivity.
Qed.

Lemma guard_intro sb se db de :
  sb < se -> db < de -> (sb <? se) && (db <? de) = true.
Proof.
  intros Hs Hd. apply andb_true_intro. split; apply Z.ltb_lt; done.
Qed.

Lemma guard_src_exhausted se db de : (se <? se) && (db <? de) = false.
Proof. rewrite Z.ltb_irrefl. reflexivity. Qed.

Lemma bytes_at_first (a b : list byte) :
  bytes_at (a ++ b) 0 (Z.of_nat (length a)) = a.
Proof.
  unfold bytes_at. change (Z.to_nat 0) with 0%nat.
  rewrite drop_0, Nat2Z.id. apply take_app_length.
Qed.

Lemma bytes_at_second (a b c : list byte) :
  bytes_at (a ++ b ++ c) (Z.of_nat (length a)) (Z.of_nat (length b)) = b.
Proof.
  unfold bytes_at.
  rewrite !Nat2Z.id, drop_app_length. apply take_app_length.
Qed.

Section Entry.

Variable e : entry.
Variable rest : list byte.
Hypothesis e_ok : entry_ok e.
Hypothesis rest_nonempty : (0 < length rest)%nat.

Lemma entry_call :
  returns (entry_bytes e ++ rest)
    (Z.of_nat (length (entry_bytes e)) + 1)
    (Z.of_nat (length (e_payload e)) + 1)
    new_BaseTarFilterImpl 0 0 []
    (mkResult true
       (accumulate_header (after_entry (e_header e)) (entry_bytes e ++ rest)
          (Z.of_nat (length (entry_bytes e)))
          (Z.of_nat (length (entry_bytes e)) + 1))
       (Z.of_nat (length (entry_bytes e)) + 1)
       (Z.of_nat (length (e_payload e)))
       (e_payload e)).
Proof.
  destruct e_ok as (Hh & Hz & Hk & Hp).
  pose proof (padding_for_range (parse_file_size_impl (e_header e))) as Hpad.
  set (A := entry_bytes e ++ rest).
  set (L := Z.of_nat (length (entry_bytes e))).
  set (n := Z.of_nat (length (e_payload e))).
  assert (HL : L = 512 + n + Z.of_nat (length (e_skipped e))).
  { subst L n. unfold entry_bytes. rewrite !length_app. lia. }
  assert (HA : A = e_header e ++ e_payload e ++ (e_skipped e ++ rest)).
  { subst A. unfold entry_bytes. rewrite <- !app_assoc. reflexivity. }
  assert (H1 : filter_body new_BaseTarFilterImpl A 0 (L + 1) 0 (n + 1)
               = Break (after_header (e_header e)) (0 + 512) 0 []).
  { apply pass_header; try done; [lia|].
    rewrite HA. rewrite <- (bytes_at_first (e_header e)) at 2.
    rewrite Hh. reflexivity. }
  assert (H4 : forall db,
             filter_body (after_entry (e_header e)) A L (L + 1) db (n + 1)
             = Break (accumulate_header (after_entry (e_header e)) A L (L + 1))
                 (L + 1) db []).
  { intros db. apply pass_lookahead; reflexivity. }
  exists 5%nat.
  rewrite filter_loop_pass by (apply guard_intro; lia).
  rewrite H1.
  rewrite filter_loop_pass by (apply guard_intro; lia).
  destruct (is_regular_file (e_header e)) eqn:Hreg.
  - rewrite pass_payload by (done || lia).
    rewrite filter_loop_pass by (apply guard_intro; lia).
    rewrite pass_skip_regular by (done || lia).
    replace (0 + 512 + parse_file_size_impl (e_header e)
             + padding_for (parse_file_size_impl (e_header e))) with L by lia.
    rewrite filter_loop_pass by (apply guard_intro; lia).
    rewrite H4, filter_loop_exit by apply guard_src_exhausted.
    rewrite <- Hp. fold n.
    replace (bytes_at A (0 + 512) n) with (e_payload e).
    + rewrite !app_nil_r. reflexivity.
    + rewrite HA. change (0 + 512) with (Z.of_nat 512). rewrite <- Hh.
      subst n. symmetry. apply bytes_at_second.
  - rewrite pass_skip_other by (done || lia).
    assert (Hn0 : n = 0) by (subst n; rewrite Hp; reflexivity).
    replace (0 + 512 + padding_for (parse_file_size_impl (e_header e)))
      with L by lia.
    rewrite filter_loop_pass by (apply guard_intro; lia).
    rewrite H4, filter_loop_exit by apply guard_src_exhausted.
    rewrite Hn0, Hp. reflexivity.
Qed.

Lemma first_byte_call :
  returns rest 1 1 new_BaseTarFilterImpl 0 0 []
    (mkResult true (accumulate_header new_BaseTarFilterImpl rest 0 (0 + 1))
       1 0 []).
Proof.
  exists 2%nat.
  rewrite filter_loop_pass by reflexivity.
  change 1 with (0 + 1) at 1.
  rewrite pass_lookahead by reflexivity.
  rewrite filter_loop_exit by reflexivity. reflexivity.
Qed.

Lemma entry_bytewise (m : nat) :
  let a := drive (entry_bytes e ++ rest)
             (bytewise (length (entry_bytes e) + 1 + m))
             new_BaseTarFilterImpl 0 [] in
  let b := drive rest (bytewise (1 + m)) new_BaseTarFilterImpl 0 [] in
  stopped a = stopped b
  /\ consumed a = Z.of_nat (length (entry_bytes e)) + consumed b
  /\ output a = e_payload e ++ output b.
Proof.
  cbn zeta.
  set (A := entry_bytes e ++ rest).
  set (L := Z.of_nat (length (entry_bytes e))).
  assert (HlenA : Z.of_nat (length A) = L + Z.of_nat (length rest))
    by (subst A L; rewrite length_app; lia).
  rewrite (drive_on_memory A) by lia.
  rewrite (drive_on_memory rest) by lia.
  pose proof (bytewise_simulates A (Z.of_nat (length (e_payload e)) + 1)
                (Z.to_nat (L + 1)) new_BaseTarFilterImpl 0 [] _
                new_consistent ltac:(lia) (L + 1) ltac:(lia) ltac:(lia)
                ltac:(simpl; lia) ltac:(lia) entry_call m) as Ha.
  cbn [ret src_begin' decoder written] in Ha. fold A L in Ha.
  replace (Z.to_nat (L + 1 - 0)) with (length (entry_bytes e) + 1)%nat in Ha
    by lia.
  rewrite Ha.
  pose proof (bytewise_simulates rest 1 1 new_BaseTarFilterImpl 0 [] _
                new_consistent ltac:(lia) 1 ltac:(lia) ltac:(lia)
                ltac:(simpl; lia) ltac:(lia) first_byte_call m) as Hb.
  cbn [ret src_begin' decoder written] in Hb.
  change (Z.to_nat (1 - 0)) with 1%nat in Hb.
  rewrite Hb.
  rewrite <- (drive_on_memory A) by lia.
  rewrite <- (drive_on_memory rest) by lia.
  destruct (drive_transport (entry_bytes e) rest (bytewise m)
              (accumulate_header (after_entry (e_header e)) A L (L + 1))
              (accumulate_header new_BaseTarFilterImpl rest 0 (0 + 1))
              1 (e_payload e) []) as (T1 & T2 & w & T3 & T4).
  - destruct e_ok as (Hh & _).
    apply lookahead_equivalent; try reflexivity.
    + cbn [after_entry header_buffer]. rewrite resized_idemp; lia.
    + subst A L. rewrite <- (Z.add_0_r (Z.of_nat _)).
      apply bytes_at_app_r. lia.
    + apply length_bytes_at_1. lia.
  - lia.
  - fold A L in T1, T2, T3. rewrite T1, T2, T3, T4. done.
Qed.

End Entry.

(** A call on an empty source returns at once and a new decoder stays
    new. *)
Lemma drive_nothing (schedule : list (nat * nat)) (out : list byte) :
  drive [] schedule new_BaseTarFilterImpl 0 out
  = mkRun false new_BaseTarFilterImpl 0 out.
Proof.
  revert out. induction schedule as [|[n_in n_out] schedule IH]; intros out.
  - reflexivity.
  - cbn [drive].
    replace (bytes_at [] 0 (Z.of_nat n_in)) with (@nil byte)
      by (unfold bytes_at; rewrite drop_nil, take_nil; reflexivity).
    cbn [length Z.of_nat]. unfold filter.
    rewrite filter_loop_exit by reflexivity.
    cbn [ret decoder src_begin' written]. rewrite app_nil_r. apply IH.
Qed.

Lemma stopped_nonempty (archive : list byte) (schedule : list (nat * nat)) :
  stopped (decode archive schedule) = true -> (0 < length archive)%nat.
Proof.
  destruct archive; [|simpl; lia].
  unfold decode. rewrite drive_nothing. discriminate.
Qed.

Lemma decode_stopped_bytewise (archive : list byte)
    (schedule : list (nat * nat)) (n : nat) :
  stopped (decode archive schedule) = true ->
  (length archive + 1 <= n)%nat ->
  drive archive (bytewise n) new_BaseTarFilterImpl 0 []
  = decode archive schedule.
Proof.
  unfold decode. intros Hs Hn.
  rewrite !drive_on_memory in * by lia.
  apply drive_stopped_bytewise; [apply new_consistent|lia|done|lia].
Qed.

(** ** X12: an entry, then the rest *)

(** X12.  If the bytes after a well-formed entry are an input on which
    the decoder stops, it stops on the entry followed by these bytes, and
    every run that stops has emitted the entry's payload followed by the
    output for the rest, and has consumed the entry and what is consumed
    of the rest. *)
Theorem entry_then_rest (e : entry) (rest : list byte)
    (schedule' : list (nat * nat)) :
  entry_ok e ->
  stopped (decode rest schedule') = true ->
  stopped (decode (entry_bytes e ++ rest)
             (bytewise (S (length (entry_bytes e ++ rest))))) = true
  /\ forall schedule,
       stopped (decode (entry_bytes e ++ rest) schedule) = true ->
       output (decode (entry_bytes e ++ rest) schedule)
       = e_payload e ++ output (decode rest schedule')
       /\ consumed (decode (entry_bytes e ++ rest) schedule)
          = Z.of_nat (length (entry_bytes e))
            + consumed (decode rest schedule').
Proof.
  intros He Hs'.
  pose proof (stopped_nonempty rest schedule' Hs') as Hne.
  destruct (entry_bytewise e rest He Hne (length rest)) as (B1 & B2 & B3).
  rewrite (decode_stopped_bytewise rest schedule' (1 + length rest) Hs')
    in B1, B2, B3 by lia.
  replace (length (entry_bytes e) + 1 + length rest)%nat
    with (S (length (entry_bytes e ++ rest))) in B1, B2, B3
    by (rewrite length_app; lia).
  split; [unfold decode at 1; rewrite B1; exact Hs'|].
  intros schedule Hs.
  rewrite (decode_stopped_bytewise _ schedule
             (S (length (entry_bytes e ++ rest))) Hs) in B2, B3 by lia.
  split; [exact B3|exact B2].
Qed.

Lemma hello_entry_ok : entry_ok hello_entry.
Proof. repeat split; vm_compute; reflexivity. Qed.

Lemma entry_then_rest_hello :
  entry_ok hello_entry
  /\ stopped (decode zero_block [(512%nat, 1%nat)]) = true
  /\ stopped (decode (entry_bytes hello_entry ++ zero_block)
                (bytewise (S (length (entry_bytes hello_entry ++ zero_block)))))
     = true
  /\ forall schedule,
       stopped (decode (entry_bytes hello_entry ++ zero_block) schedule) = true ->
       output (decode (entry_bytes hello_entry ++ zero_block) schedule)
       = e_payload hello_entry
         ++ output (decode zero_block [(512%nat, 1%nat)])
       /\ consumed (decode (entry_bytes hello_entry ++ zero_block) schedule)
          = Z.of_nat (length (entry_bytes hello_entry))
            + consumed (decode zero_block [(512%nat, 1%nat)]).
Proof.
  split; [exact hello_entry_ok|].
  split; [vm_compute; reflexivity|].
  apply (entry_then_rest hello_entry zero_block [(512%nat, 1%nat)]).
  - exact hello_entry_ok.
  - vm_compute; reflexivity.
Defined.

(** ** X13: a whole archive *)

Lemma zero_block_call (trailer : list byte) :
  returns (zero_block ++ trailer) 512 1 new_BaseTarFilterImpl 0 0 []
    (mkResult false
       (set_state Done
          (accumulate_header new_BaseTarFilterImpl (zero_block ++ trailer)
             0 512))
       512 0 []).
Proof.
  assert (Hb : bytes_at (zero_block ++ trailer) 0 512 = zero_block).
  { change 512 with (Z.of_nat (length zero_block)). apply bytes_at_first. }
  assert (Hl : length (resized (header_buffer new_BaseTarFilterImpl))
               = 512%nat)
    by (apply length_resized; left; reflexivity).
  exists 1%nat.
  rewrite filter_loop_pass by reflexivity.
  rewrite (pass_zero_block new_BaseTarFilterImpl (zero_block ++ trailer)
             0 512 0 1 eq_refl eq_refl Hl ltac:(lia) Hb).
  reflexivity.
Qed.

Lemma length_archive_bytes (entries : list entry) (trailer : list byte) :
  length (archive_bytes entries trailer)
  = (length (concat (map entry_bytes entries)) + 512 + length trailer)%nat.
Proof.
  unfold archive_bytes. rewrite !length_app.
  change (length zero_block) with 512%nat. lia.
Qed.

Lemma archive_bytewise (entries : list entry) (trailer : list byte) :
  Forall entry_ok entries ->
  forall m : nat,
    drive (archive_bytes entries trailer)
      (bytewise (length (concat (map entry_bytes entries)) + 513 + m))
      new_BaseTarFilterImpl 0 []
    = mkRun true
        (final (drive (archive_bytes entries trailer)
                  (bytewise (length (concat (map entry_bytes entries))
                             + 513 + m))
                  new_BaseTarFilterImpl 0 []))
        (Z.of_nat (length (concat (map entry_bytes entries))) + 512)
        (archive_output entries).
Proof.
  induction 1 as [|e entries He Hes IH]; intros m.
  - unfold archive_bytes. cbn [map concat app].
    change (length (@nil byte) + 513 + m)%nat with (513 + m)%nat.
    rewrite drive_on_memory by lia.
    pose proof (bytewise_simulates (zero_block ++ trailer) 1 512
                  new_BaseTarFilterImpl 0 [] _
                  new_consistent ltac:(lia) 512 ltac:(lia)
                  ltac:(rewrite length_app;
                        change (length zero_block) with 512%nat; lia)
                  ltac:(simpl; lia) ltac:(lia)
                  (zero_block_call trailer) m) as Hz.
    cbn [ret src_begin' decoder written] in Hz.
    change (S (Z.to_nat (512 - 0) + m)) with (513 + m)%nat in Hz.
    rewrite Hz. reflexivity.
  - assert (EA : archive_bytes (e :: entries) trailer
                 = entry_bytes e ++ archive_bytes entries trailer).
    { unfold archive_bytes. cbn [map concat]. rewrite <- app_assoc.
      reflexivity. }
    assert (Hne : (0 < length (archive_bytes entries trailer))%nat)
      by (rewrite length_archive_bytes; lia).
    destruct (entry_bytewise e (archive_bytes entries trailer) He Hne
                (length (concat (map entry_bytes entries)) + 512 + m))
      as (B1 & B2 & B3).
    replace (1 + (length (concat (map entry_bytes entries)) + 512 + m))%nat
      with (length (concat (map entry_bytes entries)) + 513 + m)%nat
      in B1, B2, B3 by lia.
    rewrite IH in B1, B2, B3. cbn [stopped consumed output] in B1, B2, B3.
    cbn [map concat]. rewrite EA, length_app.
    replace (length (entry_bytes e)
             + length (concat (map entry_bytes entries)) + 513 + m)%nat
      with (length (entry_bytes e) + 1
            + (length (concat (map entry_bytes entries)) + 512 + m))%nat
      by lia.
    destruct (drive _ _ _ _ _) as [st fi co ou].
    cbn [stopped consumed output final] in *.
    rewrite B1, B2, B3. unfold archive_output. cbn [map concat].
    f_equal. lia.
Qed.

(** X13.  On an archive made of well-formed entries, a zero block and any
    trailer, the decoder stops; every run that stops has emitted the
    payloads of the entries in order, and nothing else, and has consumed
    the entries and the zero block, and none of the trailer. *)
Theorem archive_decodes (entries : list entry) (trailer : list byte) :
  Forall entry_ok entries ->
  stopped (decode (archive_bytes entries trailer)
             (bytewise (S (length (archive_bytes entries trailer))))) = true
  /\ forall schedule,
       stopped (decode (archive_bytes entries trailer) schedule) = true ->
       output (decode (archive_bytes entries trailer) schedule)
       = archive_output entries
       /\ consumed (decode (archive_bytes entries trailer) schedule)
          = Z.of_nat (length (concat (map entry_bytes entries))) + 512.
Proof.
  intros Hes.
  pose proof (archive_bytewise entries trailer Hes (length trailer)) as Hb.
  replace (length (concat (map entry_bytes entries)) + 513 + length trailer)%nat
    with (S (length (archive_bytes entries trailer))) in Hb
    by (rewrite length_archive_bytes; lia).
  split; [unfold decode; rewrite Hb; reflexivity|].
  intros schedule Hs.
  rewrite (decode_stopped_bytewise _ schedule
             (S (length (archive_bytes entries trailer))) Hs) in Hb by lia.
  rewrite Hb. split; reflexivity.
Qed.

Lemma archive_decodes_hello :
  Forall entry_ok [hello_entry]
  /\ stopped (decode (archive_bytes [hello_entry] zero_block)
                (bytewise (S (length (archive_bytes [hello_entry] zero_block)))))
     = true
  /\ forall schedule,
       stopped (decode (archive_bytes [hello_entry] zero_block) schedule)
       = true ->
       output (decode (archive_bytes [hello_entry] zero_block) schedule)
       = archive_output [hello_entry]
       /\ consumed (decode (archive_bytes [hello_entry] zero_block) schedule)
          = Z.of_nat (length (concat (map entry_bytes [hello_entry]))) + 512.
Proof.
  assert (H : Forall entry_ok [hello_entry])
    by (constructor; [exact hello_entry_ok|constructor]).
  split; [exact H|].
  exact (archive_decodes [hello_entry] zero_block H).
Defined.

(** * The decoder stops at a zero block only *)

Lemma body_done_at_zero_block self src sb se db de :
  well_formed self -> done_at_zero_block self ->
  done_at_zero_block (o_self (filter_body self src sb se db de)).
Proof.
  intros [_ _ Hbuf] Hd.
  assert (Hacc : length (header_buffer (accumulate_header self src sb se))
                 = 512%nat).
  { unfold accumulate_header. cbn [header_buffer].
    rewrite length_inserts. apply (length_resized _ Hbuf). }
  unfold done_at_zero_block, filter_body, read_header, header_complete,
    read_file_data, skip_padding.
  destruct (state self) eqn:Hst.
  - destruct (header_bytes_read (accumulate_header self src sb se) =? 512)
      eqn:E.
    + destruct (is_zero_block_impl
                  (header_buffer (accumulate_header self src sb se))) eqn:Z.
      * intros _. cbn [o_self set_state header_buffer header_bytes_read].
        split; [|apply Z.eqb_eq, E].
        apply is_zero_block_impl_iff in Z; [|lia].
        rewrite take_ge in Z by lia. exact Z.
      * cbn [o_self state].
        destruct (is_regular_file _); discriminate.
    + cbn [o_self]. unfold accumulate_header. cbn [state].
      rewrite ?Hst. discriminate.
  - cbn [o_self state]. rewrite ?Hst.
    destruct (_ =? _); discriminate.
  - cbn [o_self state]. rewrite ?Hst.
    destruct (_ =? _); discriminate.
  - cbn [o_self]. exact Hd.
Qed.

Lemma filter_loop_done_at_zero_block fuel src se de self sb db out r :
  well_formed self -> done_at_zero_block self ->
  filter_loop fuel src se de self sb db out = Some r ->
  done_at_zero_block (decoder r).
Proof.
  revert self sb db out.
  induction fuel as [|fuel IH]; intros self sb db out Hw Hd H.
  - destruct ((sb <? se) && (db <? de)) eqn:G.
    + simpl in H. rewrite G in H. discriminate.
    + rewrite filter_loop_exit in H by done. injection H as <-. done.
  - destruct ((sb <? se) && (db <? de)) eqn:G.
    + rewrite filter_loop_pass in H by done. apply guard_true in G as [Gs Gd].
      pose proof (body_well_formed self src sb se db de Hw Gs Gd) as Hw'.
      pose proof (body_done_at_zero_block self src sb se db de Hw Hd) as Hd'.
      destruct (filter_body self src sb se db de)
        as [s' sb' db' o|b s' sb' db' o]; cbn [o_self] in Hw', Hd'.
      * eauto.
      * injection H as <-. done.
    + rewrite filter_loop_exit in H by done. injection H as <-. done.
Qed.

Lemma reachable_invariants self :
  reachable self -> well_formed self /\ done_at_zero_block self.
Proof.
  induction 1 as [|self src sb se db de r _ [IW ID] H|self _ [IW ID]].
  - split; [apply new_well_formed|discriminate].
  - split.
    + exact (filter_loop_well_formed _ _ _ _ _ _ _ _ _ IW H).
    + exact (filter_loop_done_at_zero_block _ _ _ _ _ _ _ _ _ IW ID H).
  - split; [apply close_well_formed, IW|discriminate].
Qed.

(** X14.  The decoder stops at a zero block only: whenever a call on a
    decoder a program can hold returns [false], the 512 header bytes the
    decoder has read last, which it still holds, are all NUL. *)
Theorem stops_at_zero_block_only self src src_begin src_end dest_begin
    dest_end r :
  reachable self ->
  filter self src src_begin src_end dest_begin dest_end = Some r ->
  ret r = false ->
  state (decoder r) = Done
  /\ header_buffer (decoder r) = zero_block
  /\ header_bytes_read (decoder r) = 512.
Proof.
  intros Hr H Hret.
  assert (Hst : state (decoder r) = Done).
  { unfold filter in H.
    exact (filter_loop_returns_false _ _ _ _ _ _ _ _ _ H Hret). }
  destruct (reachable_invariants (decoder r)) as [_ Hd].
  { exact (reach_filter _ _ _ _ _ _ _ Hr H). }
  split; [exact Hst|]. exact (Hd Hst).
Qed.

Lemma stops_at_zero_block_only_finished :
  state finished = Done
  /\ header_buffer finished = zero_block
  /\ header_bytes_read finished = 512.
Proof.
  apply (stops_at_zero_block_only new_BaseTarFilterImpl zero_block 0 512 0 1
           (mkResult false finished 512 0 [])).
  - apply reach_new.
  - vm_compute. reflexivity.
  - reflexivity.
Defined.

(** * The public members describe the current entry *)

Lemma body_describes_entry self src sb se db de :
  describes_entry self ->
  describes_entry (o_self (filter_body self src sb se db de)).
Proof.
  unfold describes_entry, filter_body, read_header, header_complete,
    read_file_data, skip_padding.
  destruct (state self) eqn:Hst.
  - intros _.
    destruct (header_bytes_read (accumulate_header self src sb se) =? 512).
    + destruct (is_zero_block_impl
                  (header_buffer (accumulate_header self src sb se))) eqn:Z.
      * cbn [o_self set_state state]. intros [?|?]; discriminate.
      * cbn [o_self state current_file_name file_size_ padding_bytes
             header_bytes_read header_buffer].
        intros _. rewrite Z.
        destruct (is_regular_file _); repeat split; discriminate.
    + cbn [o_self]. unfold accumulate_header. cbn [state]. rewrite ?Hst.
      intros [?|?]; discriminate.
  - intros Hd. destruct (Hd (or_introl eq_refl)) as (D1 & D2 & D3 & D4 & D5 & D6).
    cbn [o_self state current_file_name file_size_ padding_bytes
         header_bytes_read header_buffer].
    intros _. repeat split; try done. intros _. apply D6. reflexivity.
  - intros Hd. destruct (Hd (or_intror eq_refl)) as (D1 & D2 & D3 & D4 & D5 & D6).
    cbn [o_self state current_file_name file_size_ padding_bytes
         header_bytes_read header_buffer].
    destruct (_ =? _); [intros [?|?]; discriminate|].
    intros _. repeat split; try done.
  - intros _. cbn [o_self]. rewrite Hst. intros [?|?]; discriminate.
Qed.

Lemma filter_loop_describes_entry fuel src se de self sb db out r :
  describes_entry self ->
  filter_loop fuel src se de self sb db out = Some r ->
  describes_entry (decoder r).
Proof.
  revert self sb db out.
  induction fuel as [|fuel IH]; intros self sb db out Hd H.
  - destruct ((sb <? se) && (db <? de)) eqn:G.
    + simpl in H. rewrite G in H. discriminate.
    + rewrite filter_loop_exit in H by done. injection H as <-. done.
  - destruct ((sb <? se) && (db <? de)) eqn:G.
    + rewrite filter_loop_pass in H by done.
      pose proof (body_describes_entry self src sb se db de Hd) as Hd'.
      destruct (filter_body self src sb se db de)
        as [s' sb' db' o|b s' sb' db' o]; cbn [o_self] in Hd'.
      * eauto.
      * injection H as <-. done.
    + rewrite filter_loop_exit in H by done. injection H as <-. done.
Qed.

(** X15.  While a decoder a program can hold reads the data of an entry or
    skips its padding, its public members describe that entry: the header
    buffer holds the entry's header (not a zero block),
    [current_file_name] is the name in it, [padding_bytes] is computed from
    the size in it, [file_size_] is that size for a regular file and zero
    otherwise, and data is only read for a regular file. *)
Theorem reachable_describes_entry self :
  reachable self ->
  state self = ReadFileData \/ state self = SkipPadding ->
  current_file_name self = extract_file_name_impl (header_buffer self)
  /\ file_size_ self
     = (if is_regular_file (header_buffer self)
        then parse_file_size_impl (header_buffer self) else 0)
  /\ padding_bytes self
     = padding_for (parse_file_size_impl (header_buffer self))
  /\ header_bytes_read self = 0
  /\ is_zero_block_impl (header_buffer self) = false
  /\ (state self = ReadFileData -> is_regular_file (header_buffer self) = true).
Proof.
  intros Hr. change (describes_entry self).
  induction Hr as [|self src sb se db de r _ IH H|self _ IH].
  - intros [?|?]; discriminate.
  - exact (filter_loop_describes_entry _ _ _ _ _ _ _ _ _ IH H).
  - intros [?|?]; discriminate.
Qed.

Lemma reachable_describes_entry_mid_padding :
  current_file_name mid_padding
  = extract_file_name_impl (header_buffer mid_padding)
  /\ file_size_ mid_padding
     = (if is_regular_file (header_buffer mid_padding)
        then parse_file_size_impl (header_buffer mid_padding) else 0)
  /\ padding_bytes mid_padding
     = padding_for (parse_file_size_impl (header_buffer mid_padding))
  /\ header_bytes_read mid_padding = 0
  /\ is_zero_block_impl (header_buffer mid_padding) = false
  /\ (state mid_padding = ReadFileData ->
      is_regular_file (header_buffer mid_padding) = true).
Proof.
  apply (reachable_describes_entry mid_padding).
  - apply (reach_filter new_BaseTarFilterImpl one_byte_archive 0 520 0 16
             (mkResult true mid_padding 520 1 [x62])).
    + apply reach_new.
    + vm_compute. reflexivity.
  - right. reflexivity.
Defined.
